(** * Variable resolution of BuildStream (src/buildstream/_variables.pyx)

    A shallow embedding of the [Variables] helper: the template parser
    ([ValueClass]), the memoised [Value] cells, the explicit stack of
    [ResolutionStep] objects and the resolution driver [Variables._resolve],
    followed by the properties of the engine.

    Conventions of the embedding.
    - A Python [str] is a [string]; [sys.intern] is the identity and the
      identity test [is] on interned strings is string equality.
    - A Python [dict] is an association list in insertion order.
    - A Python [set] of names is a list without duplicates in insertion
      order; the order in which a [for] loop visits a set is the function
      [set_iter], a parameter of the driver.
    - A [Value] object owned by the table [Variables._values] is referred to
      by its key; a call that mutates it writes the new cell back under
      that key.
    - Exceptions are values of [exn]; a raising call returns [Raise e]
      together with the state as it was left at the point of the raise. *)

From Stdlib Require Import String Ascii List Bool Arith Lia Permutation.
Import ListNotations.
Set Warnings "-register-all,-notation-for-abbreviation".
Open Scope list_scope.
Open Scope string_scope.

(* ================================================================= *)
(** ** Strings *)

(** [bool(s)] of a Python string: true when it is not empty. *)
Definition str_bool (s : string) : bool :=
  match s with EmptyString => false | String _ _ => true end.

(** ["".join(strs)] on a list that holds strings only. *)
Definition join (strs : list string) : string := String.concat "" strs.

(* ================================================================= *)
(** ** Dictionaries *)

(** A [dict] keeps its items in insertion order, as Python does. *)
Definition dict (A : Type) : Type := list (string * A).

Fixpoint dict_get {A} (d : dict A) (key : string) : option A :=
  match d with
  | [] => None
  | (k, a) :: d' => if String.eqb k key then Some a else dict_get d' key
  end.

(** [d[key] = a]: an existing key keeps its position, a new one goes last. *)
Fixpoint dict_set {A} (d : dict A) (key : string) (a : A) : dict A :=
  match d with
  | [] => [(key, a)]
  | (k, b) :: d' =>
      if String.eqb k key then (k, a) :: d' else (k, b) :: dict_set d' key a
  end.

Definition dict_keys {A} (d : dict A) : list string := map fst d.

Definition dict_mem {A} (d : dict A) (key : string) : bool :=
  match dict_get d key with Some _ => true | None => false end.

(* ================================================================= *)
(** ** Errors *)

(** [LoadErrorReason], the two members the module raises. *)
Inductive LoadErrorReason : Type :=
  | UNRESOLVED_VARIABLE
  | CIRCULAR_REFERENCE_VARIABLE.

Definition LoadErrorReason_eqb (a b : LoadErrorReason) : bool :=
  match a, b with
  | UNRESOLVED_VARIABLE, UNRESOLVED_VARIABLE => true
  | CIRCULAR_REFERENCE_VARIABLE, CIRCULAR_REFERENCE_VARIABLE => true
  | _, _ => false
  end.

(** The exceptions a call can end with.  [LoadError] carries its message,
    its reason and its detail.  [KeyError] is the failed subscript of a
    dict ([None] when the subscript was [None]), [TypeError] the join of a
    list holding [None], [AttributeError] an attribute read on [None],
    [StopIteration] the end of an iterator.
    [OutOfFuel] is not a Python exception: it marks a run of the
    fuel-indexed driver loop that was cut short. *)
Inductive exn : Type :=
  | LoadError (message : string) (reason : LoadErrorReason) (detail : option string)
  | KeyError (key : option string)
  | TypeError
  | AttributeError
  | StopIteration
  | OutOfFuel.

Inductive result (A : Type) : Type :=
  | Ok (a : A)
  | Raise (e : exn).
Arguments Ok {A} a.
Arguments Raise {A} e.

(** The reason of the [LoadError] a result carries, if it carries one. *)
Definition raised_reason {A} (r : result A) : option LoadErrorReason :=
  match r with
  | Raise (LoadError _ reason _) => Some reason
  | _ => None
  end.

(* ================================================================= *)
(** ** Nodes *)

(** Modelled from the spec: the provenance of a node (the node module is
    not among the sources) is source-location metadata used for error
    messages only, which renders as a human-readable string; it is kept as
    that rendering. *)
Definition ProvenanceInformation : Type := string.

Module ScalarNode.
Record t : Type := mk { value : string; provenance : ProvenanceInformation }.
Definition as_str (self : t) : string := value self.
Definition get_provenance (self : t) : ProvenanceInformation := provenance self.
End ScalarNode.

(** A document tree: scalar, sequence and mapping nodes. *)
Inductive Node : Type :=
  | Scalar (n : ScalarNode.t)
  | Sequence (value : list Node)
  | Mapping (value : list (string * Node)).

(* ================================================================= *)
(** ** The regular expression of variable references *)

Module Regex.

(** [[a-zA-Z]] *)
Definition is_alpha (c : ascii) : bool :=
  (("a" <=? c)%char && (c <=? "z")%char) || (("A" <=? c)%char && (c <=? "Z")%char).

(** [[a-zA-Z0-9_-]] *)
Definition is_name_char (c : ascii) : bool :=
  is_alpha c || (("0" <=? c)%char && (c <=? "9")%char)
  || Ascii.eqb c "_" || Ascii.eqb c "-".

(** The longest prefix of name characters, and what follows it: the greedy
    run of [[a-zA-Z0-9_-]]. *)
Fixpoint span_name (s : string) : string * string :=
  match s with
  | String c s' =>
      if is_name_char c
      then let (run, rest) := span_name s' in (String c run, rest)
      else ("", s)
  | EmptyString => ("", "")
  end.

(** A match of the pattern of [VALUE_CLASS_PARSE_EXPANSION] (a percent sign,
    an opening brace, the group: one character of [[a-zA-Z]] and a greedy
    run of [[a-zA-Z0-9_-]], and a closing brace) anchored at the start of
    [s]: the captured name and the text after the closing brace.  The
    closing brace is not a name character, so the greedy run is the only
    candidate for the group. *)
Definition match_at (s : string) : option (string * string) :=
  match s with
  | String c0 (String c1 (String c s')) =>
      if Ascii.eqb c0 "%" && Ascii.eqb c1 "{" && is_alpha c then
        let (run, rest) := span_name s' in
        match rest with
        | String c2 rest' =>
            if Ascii.eqb c2 "}" then Some (String c run, rest') else None
        | EmptyString => None
        end
      else None
  | _ => None
  end.

(** [VALUE_CLASS_PARSE_EXPANSION.split(string)], scanning left to right:
    [pending] is the text read since the last match.  The result
    alternates unmatched text (even positions, possibly empty) and captured
    names (odd positions).  A match consumes at least four characters, so
    [S (length s)] units of fuel reach the end of [s]. *)
Fixpoint split_from (fuel : nat) (pending s : string) : list string :=
  match fuel with
  | O => [pending ++ s]
  | S fuel' =>
      match match_at s with
      | Some (name, rest) => pending :: name :: split_from fuel' "" rest
      | None =>
          match s with
          | EmptyString => [pending]
          | String c s' => split_from fuel' (pending ++ String c "") s'
          end
      end
  end.

Definition split (s : string) : list string :=
  split_from (S (String.length s)) "" s.

(** Whether the pattern matches anywhere in [s]. *)
Fixpoint search (s : string) : bool :=
  match match_at s with
  | Some _ => true
  | None => match s with EmptyString => false | String _ s' => search s' end
  end.

(** A well-formed variable name: a letter, then name characters. *)
Definition valid_name (name : string) : bool :=
  match name with
  | String c run => is_alpha c && forallb is_name_char (list_ascii_of_string run)
  | EmptyString => false
  end.

End Regex.

(* ================================================================= *)
(** ** ValuePart and ValueClass *)

Module ValuePart.
(** The linked list of parts ([next_part]) is a list of [t]. *)
Record t : Type := mk { text : string; is_variable : bool }.
Definition init (text : string) (is_variable : bool) : t := mk text is_variable.
End ValuePart.

(** [names.add(name)] on a set kept in insertion order. *)
Definition set_add (name : string) (names : list string) : list string :=
  if existsb (String.eqb name) names then names else (names ++ [name])%list.

Module ValueClass.

Record t : Type := mk {
  variable_names : list string;   (* the set of variable names *)
  parts : list ValuePart.t        (* the linked list of ValuePart objects *)
}.

(** The body of the [for] loop of [_parse_string], from index [split_idx]
    on. *)
Fixpoint parse_splits (splits : list string) (split_idx : nat) (self : t) : t :=
  match splits with
  | [] => self
  | split :: rest =>
      let self' :=
        if str_bool split then
          let is_variable := negb (Nat.eqb (split_idx mod 2) 0) in
          let names :=
            if is_variable then set_add split (variable_names self)
            else variable_names self in
          mk names (parts self ++ [ValuePart.init split is_variable])%list
        else self in
      parse_splits rest (S split_idx) self'
  end.

Definition _parse_string (self : t) (string : string) : t :=
  parse_splits (Regex.split string) 0 self.

Definition init (string : string) : t :=
  _parse_string (mk [] []) string.

End ValueClass.

(* ================================================================= *)
(** ** Value *)

Module Value.

Record t : Type := mk {
  provenance : ProvenanceInformation;
  _value_class : ValueClass.t;
  _resolved : option string
}.

(** [_load_value_class]: [table] is the global [VALUE_CLASS_TABLE], read
    and extended by the call. *)
Definition _load_value_class (table : dict ValueClass.t) (string : string)
  : ValueClass.t * dict ValueClass.t :=
  match dict_get table string with
  | Some ret => (ret, table)
  | None =>
      let ret := ValueClass.init string in
      (ret, dict_set table string ret)
  end.

Definition init (table : dict ValueClass.t) (node : ScalarNode.t)
  : t * dict ValueClass.t :=
  let (value_class, table') := _load_value_class table (ScalarNode.as_str node) in
  (mk (ScalarNode.get_provenance node) value_class None, table').

(** The [while part] loop of [resolve]: the list [parts], whose entries are
    strings or [None] (the memo of a value that is not resolved). *)
Fixpoint collect_parts (values : dict t) (part : list ValuePart.t)
  : result (list (option string)) :=
  match part with
  | [] => Ok []
  | p :: next_part =>
      if ValuePart.is_variable p then
        match dict_get values (ValuePart.text p) with
        | None => Raise (KeyError (Some (ValuePart.text p)))
        | Some part_var =>
            match collect_parts values next_part with
            | Ok parts => Ok (_resolved part_var :: parts)
            | Raise e => Raise e
            end
        end
      else
        match collect_parts values next_part with
        | Ok parts => Ok (Some (ValuePart.text p) :: parts)
        | Raise e => Raise e
        end
  end.

(** ["".join(parts)]: a [TypeError] when an entry is [None]. *)
Fixpoint str_join (parts : list (option string)) : result string :=
  match parts with
  | [] => Ok ""
  | None :: _ => Raise TypeError
  | Some s :: parts' =>
      match str_join parts' with
      | Ok s' => Ok (s ++ s')
      | Raise e => Raise e
      end
  end.

(** [resolve]: the returned string and the value as the call leaves it. *)
Definition resolve (self : t) (values : dict t) : result string * t :=
  match _resolved self with
  | Some s => (Ok s, self)
  | None =>
      match collect_parts values (ValueClass.parts (_value_class self)) with
      | Raise e => (Raise e, self)
      | Ok parts =>
          match str_join parts with
          | Raise e => (Raise e, self)
          | Ok s => (Ok s, mk (provenance self) (_value_class self) (Some s))
          end
      end
  end.

Definition dependencies (self : t) : list string :=
  match _resolved self with
  | None => ValueClass.variable_names (_value_class self)
  | Some _ => []   (* EMPTY_SET *)
  end.

End Value.

(* ================================================================= *)
(** ** ResolutionStep *)

(** [str(x)] of a name that may be [None]. *)
Definition str_of_name (x : option string) : string :=
  match x with Some s => s | None => "None" end.

Definition option_string_eqb (a b : option string) : bool :=
  match a, b with
  | Some x, Some y => String.eqb x y
  | None, None => true
  | _, _ => false
  end.

Definition newline : string := String (ascii_of_nat 10) "".

Module ResolutionStep.

(** The field [prev] is not part of the record: the stack it links is the
    list of steps held by the driver, most recent first. *)
Inductive t : Type :=
  | mk (referee : option string) (varnames : list string) (parent : option t).

Definition referee (self : t) : option string :=
  match self with mk r _ _ => r end.
Definition varnames (self : t) : list string :=
  match self with mk _ v _ => v end.
Definition parent (self : t) : option t :=
  match self with mk _ _ p => p end.

Definition init (referee : option string) (varnames : list string) (parent : option t) : t :=
  mk referee varnames parent.

(** The steps above [self] on its parent chain, nearest first. *)
Fixpoint ancestors (self : t) : list t :=
  match self with
  | mk _ _ None => []
  | mk _ _ (Some p) => p :: ancestors p
  end.

(** [a is b] for two steps of one parent chain: such steps differ in the
    number of their ancestors unless they are the same object, so the test
    is structural equality. *)
Fixpoint is_ (a b : t) : bool :=
  match a, b with
  | mk ra va pa, mk rb vb pb =>
      option_string_eqb ra rb
      && (if list_eq_dec string_dec va vb then true else false)
      && match pa, pb with
         | None, None => true
         | Some a', Some b' => is_ a' b'
         | _, _ => false
         end
  end.

(** The [while step is not conflict] loop of
    [_raise_circular_reference_error], from [step] on: the error lines in
    the order they are appended.  A subscript of [values] that fails is a
    [KeyError]; past the top of the chain [step] is [None] and the loop
    reads [step.parent]. *)
Fixpoint error_lines (self_referee : option string) (values : dict Value.t)
    (conflict : t) (step : t) : result (list string) :=
  if is_ step conflict then Ok []
  else
    match step with
    | mk step_referee _ (Some p) =>
        match referee p with
        | None => Raise (KeyError None)
        | Some r =>
            match dict_get values r with
            | None => Raise (KeyError (Some r))
            | Some value =>
                let line := Value.provenance value ++ ": Variable '" ++ r
                            ++ "' refers to variable '" ++ str_of_name step_referee ++ "'" in
                match error_lines self_referee values conflict p with
                | Ok lines => Ok (line :: lines)
                | Raise e => Raise e
                end
            end
        end
    | mk _ _ None =>
        match self_referee with
        | None => Raise (KeyError None)
        | Some r =>
            match dict_get values r with
            | None => Raise (KeyError (Some r))
            | Some _ => Raise AttributeError   (* [step] is [None] from here on *)
            end
        end
    end.

Definition _raise_circular_reference_error (self : t) (conflict : t)
    (values : dict Value.t) : exn :=
  match error_lines (referee self) values conflict self with
  | Raise e => e
  | Ok lines =>
      LoadError ("Circular dependency detected on variable '"
                 ++ str_of_name (referee self) ++ "'")
                CIRCULAR_REFERENCE_VARIABLE
                (Some (String.concat newline (rev lines)))
  end.

(** The [while step] loop of [check_circular], from ancestor [step] on. *)
Fixpoint check_from (self : t) (values : dict Value.t) (step : t) : result unit :=
  if option_string_eqb (referee self) (referee step)
  then Raise (_raise_circular_reference_error self step values)
  else
    match step with
    | mk _ _ (Some p) => check_from self values p
    | mk _ _ None => Ok tt
    end.

Definition check_circular (self : t) (values : dict Value.t) : result unit :=
  match parent self with
  | Some step => check_from self values step
  | None => Ok tt
  end.

End ResolutionStep.

(* ================================================================= *)
(** ** Variables *)

(** [for x in xs: body(x)] for a body that may rewrite [x] in place and may
    raise: the outcome, the items as the loop leaves them, and the state. *)
Fixpoint for_each {A S : Type} (body : S -> A -> result unit * A * S)
    (state : S) (xs : list A) : result unit * list A * S :=
  match xs with
  | [] => (Ok tt, [], state)
  | x :: xs' =>
      match body state x with
      | (Ok _, x', state') =>
          match for_each body state' xs' with
          | (r, xs'', state'') => (r, x' :: xs'', state'')
          end
      | (Raise e, x', state') => (Raise e, x' :: xs', state')
      end
  end.

Module Variables.

Record t : Type := mk { _values : dict Value.t }.

(** What one pass over the names of a step, or the whole first loop of
    [_resolve], ends with: the loop state to go on with ([step] is the
    stack of pending steps, [deps] the queue of values to resolve, the
    most recently appended first), the early [return] on a value that is
    already resolved, or an exception. *)
Inductive flow : Type :=
  | Next (step : list ResolutionStep.t) (deps : list string) (first_iteration : bool)
  | Return (iter_name : string) (iter_value : Value.t)
  | Throw (e : exn).

(** The fuel that [_resolve] gives its first loop: with [b] a bound on the
    number of names of a step and [n] the number of variables, a step with
    [k] levels left below it stands for at most [budget b k] iterations. *)
Fixpoint budget (b k : nat) : nat :=
  match k with
  | O => 1
  | S k' => 1 + b * budget b k'
  end.

Section Driver.

(** The order in which a [for] loop visits the names of a set. *)
Variable set_iter : list string -> list string.

Definition _get_checked_value (self : t) (varname : string)
    (referee : option string) (provenance : option ProvenanceInformation)
  : result Value.t :=
  match dict_get (_values self) varname with
  | Some value => Ok value
  | None =>
      let referee_value :=
        match referee with
        | Some r => dict_get (_values self) r
        | None => None
        end in
      let provenance :=
        match referee_value with
        | Some v => Some (Value.provenance v)
        | None => provenance
        end in
      let error_message := "Reference to undefined variable '" ++ varname ++ "'" in
      let error_message :=
        match provenance with
        | Some p => p ++ ": " ++ error_message
        | None => error_message
        end in
      Raise (LoadError error_message UNRESOLVED_VARIABLE None)
  end.

(** [for iter_name_object in this_step.varnames], over the names that are
    left to visit. *)
Fixpoint for_varnames (self : t) (provenance : option ProvenanceInformation)
    (this_step : ResolutionStep.t) (names : list string)
    (step : list ResolutionStep.t) (deps : list string) (first_iteration : bool)
  : flow :=
  match names with
  | [] => Next step deps first_iteration
  | iter_name :: names' =>
      match _get_checked_value self iter_name (ResolutionStep.referee this_step) provenance with
      | Raise e => Throw e
      | Ok iter_value =>
          match first_iteration, Value._resolved iter_value with
          | true, Some _ => Return iter_name iter_value
          | _, Some _ =>
              for_varnames self provenance this_step names' step deps false
          | _, None =>
              let deps := iter_name :: deps in
              let iter_value_deps := Value.dependencies iter_value in
              let step :=
                match iter_value_deps with
                | [] => step
                | _ :: _ =>
                    ResolutionStep.init (Some iter_name) iter_value_deps (Some this_step)
                    :: step
                end in
              for_varnames self provenance this_step names' step deps false
          end
      end
  end.

(** [while step]: one unit of fuel per iteration. *)
Fixpoint while_step (fuel : nat) (self : t) (provenance : option ProvenanceInformation)
    (step : list ResolutionStep.t) (deps : list string) (first_iteration : bool)
  : flow :=
  match fuel with
  | O => Throw OutOfFuel
  | S fuel' =>
      match step with
      | [] => Next [] deps first_iteration
      | this_step :: step' =>
          match ResolutionStep.check_circular this_step (_values self) with
          | Raise e => Throw e
          | Ok _ =>
              match for_varnames self provenance this_step
                      (set_iter (ResolutionStep.varnames this_step))
                      step' deps first_iteration with
              | Next step'' deps' first_iteration' =>
                  while_step fuel' self provenance step'' deps' first_iteration'
              | other => other
              end
          end
      end
  end.

(** [while deps]: [deps.pop()] takes the head of the queue, and the value
    it names is written back as [resolve] leaves it.  The queue holds keys
    of the table, so the first branch is never taken. *)
Fixpoint while_deps (deps : list string) (self : t) (resolved_value : option string)
  : result (option string) * t :=
  match deps with
  | [] => (Ok resolved_value, self)
  | iter_name :: deps' =>
      match dict_get (_values self) iter_name with
      | None => (Raise (KeyError (Some iter_name)), self)
      | Some iter_value =>
          let (r, iter_value') := Value.resolve iter_value (_values self) in
          let self' := mk (dict_set (_values self) iter_name iter_value') in
          match r with
          | Raise e => (Raise e, self')
          | Ok s => while_deps deps' self' (Some s)
          end
      end
  end.

(** The widest set of names a step of this call can hold. *)
Definition max_names (self : t) (name : string) : nat :=
  fold_right
    (fun kv b => Nat.max (length (set_iter (ValueClass.variable_names (Value._value_class (snd kv))))) b)
    (length (set_iter [name])) (_values self).

Definition resolve_fuel (self : t) (name : string) : nat :=
  S (budget (max_names self name) (S (length (_values self)))).

(** [_resolve]: the first loop runs on the fuel [resolve_fuel], within
    which it ends by itself (lemma [first_loop_fuel]).  [resolved_value]
    starts as [None], hence the returned [str] is a string or [None]. *)
Definition _resolve (self : t) (name : string) (provenance : option ProvenanceInformation)
  : result (option string) * t :=
  let step := ResolutionStep.init None [name] None in
  match while_step (resolve_fuel self name) self provenance [step] [] true with
  | Throw e => (Raise e, self)
  | Return iter_name iter_value =>
      let (r, iter_value') := Value.resolve iter_value (_values self) in
      let self' := mk (dict_set (_values self) iter_name iter_value') in
      match r with
      | Raise e => (Raise e, self')
      | Ok s => (Ok (Some s), self')
      end
  | Next _ deps _ => while_deps deps self None
  end.

Definition __getitem__ (self : t) (name : string) : result (option string) * t :=
  _resolve self name None.

Definition __contains__ (self : t) (name : string) : bool :=
  dict_mem (_values self) name.

(** [get]: the [except] clause catches every [LoadError]; it returns [None]
    in its [if] branch and, for any other reason, falls off the end of the
    function, which returns [None] as well. *)
Definition get (self : t) (name : string) : result (option string) * t :=
  match _resolve self name None with
  | (Ok s, self') => (Ok s, self')
  | (Raise (LoadError _ reason _), self') =>
      if LoadErrorReason_eqb reason UNRESOLVED_VARIABLE
      then (Ok None, self')
      else (Ok None, self')
  | (Raise e, self') => (Raise e, self')
  end.

(** [for dep_name_object in value.dependencies()] of [subst]. *)
Fixpoint for_dependencies (names : list string) (self : t)
    (provenance : option ProvenanceInformation) : result unit * t :=
  match names with
  | [] => (Ok tt, self)
  | dep_name :: names' =>
      match _resolve self dep_name provenance with
      | (Raise e, self') => (Raise e, self')
      | (Ok _, self') => for_dependencies names' self' provenance
      end
  end.

Definition subst (self : t) (table : dict ValueClass.t) (node : ScalarNode.t)
  : result string * t * dict ValueClass.t :=
  let (value, table') := Value.init table node in
  match for_dependencies (set_iter (Value.dependencies value)) self
          (Some (ScalarNode.get_provenance node)) with
  | (Raise e, self') => (Raise e, self', table')
  | (Ok _, self') => (fst (Value.resolve value (_values self')), self', table')
  end.

(** [for key in self._values.keys()] of [check]. *)
Fixpoint for_keys (keys : list string) (self : t) : result unit * t :=
  match keys with
  | [] => (Ok tt, self)
  | key :: keys' =>
      match _resolve self key None with
      | (Raise e, self') => (Raise e, self')
      | (Ok _, self') => for_keys keys' self'
      end
  end.

Definition check (self : t) : result unit * t :=
  for_keys (dict_keys (_values self)) self.

(** [_expand]: the node as the call leaves it, rewritten in place up to the
    point of a raise, and the store and the table of value classes. *)
Fixpoint _expand (state : t * dict ValueClass.t) (node : Node)
  : result unit * Node * (t * dict ValueClass.t) :=
  match node with
  | Scalar n =>
      match subst (fst state) (snd state) n with
      | (Ok s, self', table') =>
          (Ok tt, Scalar (ScalarNode.mk s (ScalarNode.provenance n)), (self', table'))
      | (Raise e, self', table') => (Raise e, node, (self', table'))
      end
  | Sequence value =>
      match for_each _expand state value with
      | (r, value', state') => (r, Sequence value', state')
      end
  | Mapping value =>
      match for_each
              (fun st kv =>
                 match _expand st (snd kv) with
                 | (r, entry', st') => (r, (fst kv, entry'), st')
                 end)
              state value with
      | (r, value', state') => (r, Mapping value', state')
      end
  end.

Definition expand (self : t) (table : dict ValueClass.t) (node : Node)
  : result unit * Node * (t * dict ValueClass.t) :=
  _expand (self, table) node.

(** [for key_object, value_object in node.items()] of [_init_values]. *)
Fixpoint for_items (items : list (string * ScalarNode.t)) (ret : dict Value.t)
    (table : dict ValueClass.t) : dict Value.t * dict ValueClass.t :=
  match items with
  | [] => (ret, table)
  | (key, value_node) :: items' =>
      let (value, table') := Value.init table value_node in
      for_items items' (dict_set ret key value) table'
  end.

Definition _init_values (table : dict ValueClass.t) (node : dict ScalarNode.t)
  : dict Value.t * dict ValueClass.t :=
  for_items node [] table.

(** [node.get_bool(key, default)] of the node module, which is not among
    the sources: whether the mapping holds a true boolean under [key], or
    the error it raises. *)
Variable get_bool : dict ScalarNode.t -> string -> bool -> result bool.

(** Modelled from the spec: [node[key] = string] of the node module, which
    is not among the sources, stores a scalar node holding [string] under
    [key].  The provenance of that node is not specified: the model keeps
    the provenance of the node it replaces, if there is one. *)
Definition MappingNode_setitem (node : dict ScalarNode.t) (key string : string)
  : dict ScalarNode.t :=
  let provenance :=
    match dict_get node key with
    | Some old_value => ScalarNode.provenance old_value
    | None => ""
    end in
  dict_set node key (ScalarNode.mk string provenance).

(** [__init__]: the store, the mapping as the call leaves it, and the
    table. *)
Definition __init__ (table : dict ValueClass.t) (node : dict ScalarNode.t)
  : result t * dict ScalarNode.t * dict ValueClass.t :=
  match get_bool node "notparallel" false with
  | Raise e => (Raise e, node, table)
  | Ok notparallel =>
      let node' := if notparallel then MappingNode_setitem node "max-jobs" "1" else node in
      let (values, table') := _init_values table node' in
      (Ok (mk values), node', table')
  end.

End Driver.

End Variables.

(* ================================================================= *)
(** ** ValueIterator *)

Module ValueIterator.

(** [_iter] is the iterator over the keys of the table: the keys that are
    left.  [_variables] is the store the caller passes along. *)
Record t : Type := mk { _iter : list string }.

Definition __cinit__ (values : dict Value.t) : t := mk (dict_keys values).

Definition __next__ (set_iter : list string -> list string)
    (self : t) (_variables : Variables.t)
  : result (string * option string) * t * Variables.t :=
  match _iter self with
  | [] => (Raise StopIteration, self, _variables)
  | name :: rest =>
      match Variables.__getitem__ set_iter _variables name with
      | (Ok s, _variables') => (Ok (name, s), mk rest, _variables')
      | (Raise e, _variables') => (Raise e, mk rest, _variables')
      end
  end.

End ValueIterator.

Definition Variables__iter__ (self : Variables.t) : ValueIterator.t :=
  ValueIterator.__cinit__ (Variables._values self).

(* ================================================================= *)
(** * Specification *)

(** ** Templates *)

(** The text a part stands for in the raw template. *)
Definition render (p : ValuePart.t) : string :=
  if ValuePart.is_variable p then "%{" ++ ValuePart.text p ++ "}" else ValuePart.text p.

Definition render_parts (ps : list ValuePart.t) : string := join (map render ps).

(** The names of the variable parts, in order. *)
Definition variable_parts (ps : list ValuePart.t) : list string :=
  map ValuePart.text (filter ValuePart.is_variable ps).

(** A part as the parser may emit it: it is not empty; a variable part
    holds a well-formed name; a literal part holds no reference. *)
Definition part_ok (p : ValuePart.t) : Prop :=
  ValuePart.text p <> ""
  /\ if ValuePart.is_variable p
     then Regex.valid_name (ValuePart.text p) = true
     else Regex.search (ValuePart.text p) = false.

(** No two neighbours are both literal. *)
Fixpoint alternating (ps : list ValuePart.t) : Prop :=
  match ps with
  | p :: (q :: _) as ps' =>
      (ValuePart.is_variable p || ValuePart.is_variable q = true) /\ alternating ps'
  | _ => True
  end.

(** A class is well formed when the parser made it. *)
Definition class_ok (vc : ValueClass.t) : Prop :=
  exists raw, vc = ValueClass.init raw.

(** The invariant of [VALUE_CLASS_TABLE]: each string is bound to its own
    parse. *)
Definition table_ok (table : dict ValueClass.t) : Prop :=
  forall s vc, dict_get table s = Some vc -> vc = ValueClass.init s.

(** ** Stores *)

Definition defined (values : dict Value.t) (name : string) : Prop :=
  dict_get values name <> None.

Definition resolved (values : dict Value.t) (name : string) : Prop :=
  exists v s, dict_get values name = Some v /\ Value._resolved v = Some s.

(** [refers values x y]: the template of [x] holds a reference to [y]. *)
Definition refers (values : dict Value.t) (x y : string) : Prop :=
  exists v, dict_get values x = Some v
            /\ In y (ValueClass.variable_names (Value._value_class v)).

(** [reaches values x y]: a chain of references leads from [x] to [y]. *)
Inductive reaches (values : dict Value.t) : string -> string -> Prop :=
  | reaches_refl x : reaches values x x
  | reaches_step x y z : reaches values x y -> refers values y z -> reaches values x z.

(** [x] lies on a cycle of references. *)
Definition on_cycle (values : dict Value.t) (x : string) : Prop :=
  exists y, refers values x y /\ reaches values y x.

(** The reference chain from [name] revisits a variable. *)
Definition circular_from (values : dict Value.t) (name : string) : Prop :=
  exists x, reaches values name x /\ on_cycle values x.

(** Every name the chain from [name] comes across is defined. *)
Definition all_defined_from (values : dict Value.t) (name : string) : Prop :=
  forall x, reaches values name x -> defined values x.

(** The expansion of a list of parts, given the expansion [f] of names. *)
Fixpoint expand_parts (f : string -> option string) (ps : list ValuePart.t)
  : option string :=
  match ps with
  | [] => Some ""
  | p :: ps' =>
      match (if ValuePart.is_variable p then f (ValuePart.text p)
             else Some (ValuePart.text p)),
            expand_parts f ps' with
      | Some a, Some b => Some (a ++ b)
      | _, _ => None
      end
  end.

(** The fully expanded value of [name]: its template with each reference
    replaced, in order, by the fully expanded value of the name referred
    to; [n] bounds the depth of the chain of references. *)
Fixpoint expansion (n : nat) (values : dict Value.t) (name : string) : option string :=
  match n with
  | O => None
  | S n' =>
      match dict_get values name with
      | None => None
      | Some v => expand_parts (expansion n' values) (ValueClass.parts (Value._value_class v))
      end
  end.

(** [s] is the fully expanded value of [name]. *)
Definition expands_to (values : dict Value.t) (name s : string) : Prop :=
  exists n, expansion n values name = Some s.

(** [str] is what the part [p] stands for in an expansion: its own text
    for a literal part, the fully expanded value of the variable it names
    for a variable part. *)
Definition part_expands (values : dict Value.t) (p : ValuePart.t) (str : string) : Prop :=
  if ValuePart.is_variable p then expands_to values (ValuePart.text p) str
  else str = ValuePart.text p.

(** [s] is the substitution of the raw template [raw]. *)
Definition substitutes_to (values : dict Value.t) (raw s : string) : Prop :=
  exists n, expand_parts (expansion n values) (ValueClass.parts (ValueClass.init raw)) = Some s.

(** Every memo holds the fully expanded value of its variable. *)
Definition memo_ok (values : dict Value.t) : Prop :=
  forall k v s, dict_get values k = Some v -> Value._resolved v = Some s ->
                expands_to values k s.

Definition classes_ok (values : dict Value.t) : Prop :=
  forall k v, dict_get values k = Some v -> class_ok (Value._value_class v).

(** The invariant of a store. *)
Definition store_ok (self : Variables.t) : Prop :=
  classes_ok (Variables._values self) /\ memo_ok (Variables._values self).

(** A visiting order of sets: each element once. *)
Definition set_iter_ok (set_iter : list string -> list string) : Prop :=
  forall l, Permutation (set_iter l) l.

(** The memo of [name], if the store holds one. *)
Definition memo (self : Variables.t) (name : string) : option string :=
  match dict_get (Variables._values self) name with
  | Some v => Value._resolved v
  | None => None
  end.

(** ** Document trees *)

(** The scalar leaves of a tree, in the order [_expand] visits them. *)
Fixpoint leaves (node : Node) : list ScalarNode.t :=
  match node with
  | Scalar n => [n]
  | Sequence value => flat_map leaves value
  | Mapping value => flat_map (fun kv => leaves (snd kv)) value
  end.

(** The tree with the text of every scalar erased: node kinds, children,
    their order, keys and provenance. *)
Fixpoint skeleton (node : Node) : Node :=
  match node with
  | Scalar n => Scalar (ScalarNode.mk "" (ScalarNode.provenance n))
  | Sequence value => Sequence (map skeleton value)
  | Mapping value => Mapping (map (fun kv => (fst kv, skeleton (snd kv))) value)
  end.

(* ================================================================= *)
(** * Auxiliary notions of the proofs *)

(** The parts the loop of [_parse_string] appends for [splits], when the
    first of them has index [split_idx]. *)
Fixpoint parts_from (splits : list string) (split_idx : nat) : list ValuePart.t :=
  match splits with
  | [] => []
  | split :: rest =>
      ((if str_bool split
        then [ValuePart.init split (negb (Nat.eqb (split_idx mod 2) 0))]
        else []) ++ parts_from rest (S split_idx))%list
  end.

(** The names the loop of [_parse_string] adds to [names] for these parts. *)
Definition add_names (ps : list ValuePart.t) (names : list string) : list string :=
  fold_left (fun ns p => if ValuePart.is_variable p then set_add (ValuePart.text p) ns else ns)
            ps names.

(** No reference starts inside [pending] when [s] follows it. *)
Fixpoint clean (pending s : string) : Prop :=
  match pending with
  | EmptyString => True
  | String _ pending' => Regex.match_at (pending ++ s) = None /\ clean pending' s
  end.

(** Induction on a step along its parent chain. *)
Fixpoint step_rect' (P : ResolutionStep.t -> Type)
    (Htop : forall r v, P (ResolutionStep.mk r v None))
    (Hchild : forall r v p, P p -> P (ResolutionStep.mk r v (Some p)))
    (st : ResolutionStep.t) : P st :=
  match st with
  | ResolutionStep.mk r v None => Htop r v
  | ResolutionStep.mk r v (Some p) => Hchild r v p (step_rect' P Htop Hchild p)
  end.

(** The referees along the parent chain of a step, the step's own first. *)
Definition referees (st : ResolutionStep.t) : list (option string) :=
  map ResolutionStep.referee (st :: ResolutionStep.ancestors st).

Definition depth (st : ResolutionStep.t) : nat :=
  length (ResolutionStep.ancestors st).

(** The share of a pending step in the fuel of the first loop. *)
Definition weight (b n : nat) (st : ResolutionStep.t) : nat :=
  Variables.budget b (S n - depth st).

Definition stack_weight (b n : nat) (stack : list ResolutionStep.t) : nat :=
  list_sum (map (weight b n) stack).

(** The steps a call [_resolve(name, _)] on the table [values] can create:
    the initial step, and the step queued for a name of a step that passed
    its circularity check. *)
Inductive step_ok (values : dict Value.t) (name : string) : ResolutionStep.t -> Prop :=
  | step_ok_top : step_ok values name (ResolutionStep.mk None [name] None)
  | step_ok_child this_step iter_name v :
      step_ok values name this_step ->
      ResolutionStep.check_circular this_step values = Ok tt ->
      In iter_name (ResolutionStep.varnames this_step) ->
      dict_get values iter_name = Some v ->
      step_ok values name
        (ResolutionStep.mk (Some iter_name)
           (ValueClass.variable_names (Value._value_class v)) (Some this_step)).

(** [x] is a name that a step of the stack still has to visit for [n]. *)
Definition pending (stack : list ResolutionStep.t) (n x : string) : Prop :=
  exists st, In st stack /\ ResolutionStep.referee st = Some n
             /\ In x (ResolutionStep.varnames st).

(** The same while the names [names] of [this_step] are left to visit. *)
Definition pending_for (this_step : ResolutionStep.t) (names : list string)
    (stack : list ResolutionStep.t) (n x : string) : Prop :=
  (ResolutionStep.referee this_step = Some n /\ In x names) \/ pending stack n x.

Definition nothing_pending (n x : string) : Prop := False.

(** [n] can be resolved once the names of [newer] are: each variable it
    refers to is resolved, among [newer], or still to be visited. *)
Definition ready (values : dict Value.t) (pend : string -> string -> Prop)
    (newer : list string) (n : string) : Prop :=
  exists v, dict_get values n = Some v
            /\ forall x, In x (variable_parts (ValueClass.parts (Value._value_class v))) ->
                         resolved values x \/ In x newer \/ pend n x.

(** The queue [deps] (most recent first) can be resolved from its head on. *)
Fixpoint queue_ok (values : dict Value.t) (pend : string -> string -> Prop)
    (newer deps : list string) : Prop :=
  match deps with
  | [] => True
  | d :: rest => ready values pend newer d /\ queue_ok values pend (d :: newer) rest
  end.

(** Two tables with the same keys and the same templates. *)
Definition same_classes (values values' : dict Value.t) : Prop :=
  forall k, option_map Value._value_class (dict_get values k)
            = option_map Value._value_class (dict_get values' k).

(** Every memo of [values] is kept by [values']. *)
Definition memos_kept (values values' : dict Value.t) : Prop :=
  forall k v s, dict_get values k = Some v -> Value._resolved v = Some s ->
                exists v', dict_get values' k = Some v' /\ Value._resolved v' = Some s.

(** What the first loop of [_resolve(name, _)] ends with, past its first
    name: an undefined variable on the chain of references from [name], a
    circular reference on that chain, or an empty stack and a queue that
    can be resolved from its head on and ends with [name]. *)
Definition first_loop_post (values : dict Value.t) (name : string)
    (r : Variables.flow) : Prop :=
  match r with
  | Variables.Throw e =>
      (exists message detail x,
          e = LoadError message UNRESOLVED_VARIABLE detail
          /\ reaches values name x /\ ~ defined values x)
      \/ (exists message detail,
             e = LoadError message CIRCULAR_REFERENCE_VARIABLE detail
             /\ circular_from values name)
  | Variables.Return _ _ => False
  | Variables.Next step deps first_iteration =>
      step = [] /\ first_iteration = false
      /\ queue_ok values nothing_pending [] deps
      /\ exists l, deps = (l ++ [name])%list
  end.

(** What a call [_resolve(name, _)] on [self] ends with: the string, now the
    memo of [name], or one of the two errors with the store as it was. *)
Definition resolve_post (self : Variables.t) (name : string)
    (out : result (option string) * Variables.t) : Prop :=
  match out with
  | (Ok (Some s), self') =>
      memo self' name = Some s
      /\ (memo_ok (Variables._values self) -> memo_ok (Variables._values self'))
  | (Ok None, _) => False
  | (Raise e, self') =>
      self' = self
      /\ ((exists message detail x,
              e = LoadError message UNRESOLVED_VARIABLE detail
              /\ reaches (Variables._values self) name x
              /\ ~ defined (Variables._values self) x)
          \/ (exists message detail,
                 e = LoadError message CIRCULAR_REFERENCE_VARIABLE detail
                 /\ circular_from (Variables._values self) name))
  end.

(** The store [self'] holds the keys, the templates and the memos of
    [self]. *)
Definition extends (self self' : Variables.t) : Prop :=
  same_classes (Variables._values self) (Variables._values self')
  /\ memos_kept (Variables._values self) (Variables._values self')
  /\ dict_keys (Variables._values self') = dict_keys (Variables._values self).

(** No value of the table is resolved. *)
Definition fresh (values : dict Value.t) : Prop :=
  forall k v, dict_get values k = Some v -> Value._resolved v = None.

(** The value [Value.init] makes of a scalar node under [table_ok]. *)
Definition value_of (node : ScalarNode.t) : Value.t :=
  Value.mk (ScalarNode.provenance node) (ValueClass.init (ScalarNode.value node)) None.

(** Every name a template of the table refers to is a key of the table. *)
Definition closed_table (values : dict Value.t) : bool :=
  forallb (fun kv => forallb (dict_mem values)
                       (ValueClass.variable_names (Value._value_class (snd kv))))
          values.

(** Induction on a document tree. *)
Fixpoint Node_ind' (P : Node -> Prop)
    (Hscalar : forall n, P (Scalar n))
    (Hsequence : forall value, Forall P value -> P (Sequence value))
    (Hmapping : forall value, Forall (fun kv => P (snd kv)) value -> P (Mapping value))
    (node : Node) : P node :=
  match node with
  | Scalar n => Hscalar n
  | Sequence value =>
      Hsequence value
        ((fix all (l : list Node) : Forall P l :=
            match l with
            | [] => Forall_nil P
            | x :: l' =>
                Forall_cons x (Node_ind' P Hscalar Hsequence Hmapping x) (all l')
            end) value)
  | Mapping value =>
      Hmapping value
        ((fix all (l : list (string * Node)) : Forall (fun kv => P (snd kv)) l :=
            match l with
            | [] => Forall_nil _
            | kv :: l' =>
                Forall_cons kv (Node_ind' P Hscalar Hsequence Hmapping (snd kv)) (all l')
            end) value)
  end.

(** A scalar after [expand]: its text is the substitution of the text it
    had, its provenance is kept. *)
Definition substituted (values : dict Value.t) (old new : ScalarNode.t) : Prop :=
  substitutes_to values (ScalarNode.value old) (ScalarNode.value new)
  /\ ScalarNode.provenance new = ScalarNode.provenance old.

(** The operations of a store. *)
Inductive operation : Type :=
  | op_lookup (name : string)
  | op_get (name : string)
  | op_subst (node : ScalarNode.t)
  | op_expand (node : Node)
  | op_check
  | op_next (iterator : ValueIterator.t).

(** The store and the table of value classes after an operation, whether
    it returned or raised. *)
Definition run (set_iter : list string -> list string) (op : operation)
    (state : Variables.t * dict ValueClass.t) : Variables.t * dict ValueClass.t :=
  let (self, table) := state in
  match op with
  | op_lookup name => (snd (Variables.__getitem__ set_iter self name), table)
  | op_get name => (snd (Variables.get set_iter self name), table)
  | op_subst node =>
      match Variables.subst set_iter self table node with
      | (_, self', table') => (self', table')
      end
  | op_expand node =>
      snd (Variables.expand set_iter self table node)
  | op_check => (snd (Variables.check set_iter self), table)
  | op_next iterator =>
      match ValueIterator.__next__ set_iter iterator self with
      | (_, _, self') => (self', table)
      end
  end.

Definition run_all (set_iter : list string -> list string) (ops : list operation)
    (state : Variables.t * dict ValueClass.t) : Variables.t * dict ValueClass.t :=
  fold_left (fun st op => run set_iter op st) ops state.

(** What [_expand] does to a node, or to an item of a container that holds
    a node: [lv] gives the scalar leaves of an item, [sk] its skeleton. *)
Definition expand_post {A B : Type} (set_iter : list string -> list string)
    (lv : A -> list ScalarNode.t) (sk : A -> B)
    (state : Variables.t * dict ValueClass.t) (x : A)
    (out : result unit * A * (Variables.t * dict ValueClass.t)) : Prop :=
  extends (fst state) (fst (snd out))
  /\ sk (snd (fst out)) = sk x
  /\ (set_iter_ok set_iter -> store_ok (fst state) -> table_ok (snd state) ->
      store_ok (fst (snd out)) /\ table_ok (snd (snd out))
      /\ (fst (fst out) = Ok tt ->
          Forall2 (substituted (Variables._values (fst state))) (lv x) (lv (snd (fst out))))).

(* ================================================================= *)
(** * Example stores *)

(** The visiting order of insertion. *)
Definition in_order (l : list string) : list string := l.

Definition scalar (text : string) : ScalarNode.t := ScalarNode.mk text "element.bst".

(** The store [_init_values] builds from a mapping, starting with an empty
    table of value classes. *)
Definition store_of (node : dict ScalarNode.t) : Variables.t :=
  Variables.mk (fst (Variables._init_values [] node)).

Definition greeting : Variables.t :=
  store_of [("base", scalar "hello"); ("greet", scalar "%{base} world")].

Definition self_reference : Variables.t :=
  store_of [("a", scalar "%{a}")].

Definition two_cycle : Variables.t :=
  store_of [("a", scalar "%{b}"); ("b", scalar "%{a}")].

Definition cycle_and_missing : Variables.t :=
  store_of [("a", scalar "%{a}%{missing}")].

(** A cycle through [b] and an undefined name behind [c]. *)
Definition cycle_or_missing : Variables.t :=
  store_of [("a", scalar "%{b}%{c}"); ("b", scalar "%{a}"); ("c", scalar "%{d}")].

(** The visiting order opposite to insertion. *)
Definition in_reverse (l : list string) : list string := rev l.

(** A reading of booleans for the examples: the text [True]. *)
Definition get_bool_text (node : dict ScalarNode.t) (key : string) (default : bool)
  : result bool :=
  match dict_get node key with
  | Some n => Ok (String.eqb (ScalarNode.value n) "True")
  | None => Ok default
  end.

Definition notparallel_node : dict ScalarNode.t :=
  [("notparallel", scalar "True"); ("max-jobs", scalar "4")].

Definition greeting_tree : Node :=
  Mapping [("message", Scalar (scalar "%{greet}!"));
           ("items", Sequence [Scalar (scalar "plain"); Scalar (scalar "%{base}%{base}")])].

(** The store [greeting] once [greet] has been looked up. *)
Definition greeting_resolved : Variables.t :=
  snd (Variables.__getitem__ in_order greeting "greet").

Definition malformed : Variables.t :=
  store_of [("odd", scalar "%{1bad} or %{} or %{open"); ("empty", scalar "")].

Definition plain_node : dict ScalarNode.t :=
  [("max-jobs", scalar "4"); ("prefix", scalar "/usr")].

(* ================================================================= *)
(** * Further notions: the table of value classes, reports, iteration *)

(** The table [table'] holds every entry of [table]. *)
Definition table_extends (table table' : dict ValueClass.t) : Prop :=
  forall s vc, dict_get table s = Some vc -> dict_get table' s = Some vc.

(** The text of the undefined-variable error for [varname]. *)
Definition undefined_message (varname : string) : string :=
  "Reference to undefined variable '" ++ varname ++ "'".

(** A line of the report of a circular reference: [r], defined at
    [provenance], refers to [y]. *)
Definition reference_line (provenance : ProvenanceInformation) (r y : string) : string :=
  provenance ++ ": Variable '" ++ r ++ "' refers to variable '" ++ y ++ "'".

(** [list(iterator)]: [__next__] is called until it raises
    [StopIteration]; any other exception ends the loop and is raised.
    [n] bounds the number of calls. *)
Fixpoint drain (set_iter : list string -> list string) (n : nat)
    (iterator : ValueIterator.t) (variables : Variables.t)
  : result (list (string * option string)) * ValueIterator.t * Variables.t :=
  match n with
  | O => (Raise OutOfFuel, iterator, variables)
  | S n' =>
      match ValueIterator.__next__ set_iter iterator variables with
      | (Raise StopIteration, iterator', variables') => (Ok [], iterator', variables')
      | (Raise e, iterator', variables') => (Raise e, iterator', variables')
      | (Ok item, iterator', variables') =>
          match drain set_iter n' iterator' variables' with
          | (Ok items, iterator'', variables'') => (Ok (item :: items), iterator'', variables'')
          | (Raise e, iterator'', variables'') => (Raise e, iterator'', variables'')
          end
      end
  end.

(** A value that refers to an absent name and to an unresolved one. *)
Definition unready_value : Value.t :=
  Value.mk "element.bst" (ValueClass.init "%{base} and %{nobody}") None.

(** [lines] report a chain of references of the table from [x] to [y], one
    line for each reference, each attributed to the provenance of the
    variable that refers. *)
Fixpoint reference_chain (values : dict Value.t) (x : string) (lines : list string)
    (y : string) : Prop :=
  match lines with
  | [] => x = y
  | line :: rest =>
      exists m v,
        dict_get values x = Some v /\ refers values x m
        /\ line = reference_line (Value.provenance v) x m
        /\ reference_chain values m rest y
  end.

(** The text of a scalar has a substitution in the table. *)
Definition has_substitution (values : dict Value.t) (n : ScalarNode.t) : Prop :=
  exists s, substitutes_to values (ScalarNode.value n) s.

(** When [_expand] returns on a node, or on an item of a container that
    holds a node, and what it raises when it does not. *)
Definition expand_outcome {A : Type} (set_iter : list string -> list string)
    (lv : A -> list ScalarNode.t)
    (state : Variables.t * dict ValueClass.t) (x : A)
    (out : result unit * A * (Variables.t * dict ValueClass.t)) : Prop :=
  set_iter_ok set_iter -> store_ok (fst state) -> table_ok (snd state) ->
  (fst (fst out) = Ok tt
   <-> Forall (has_substitution (Variables._values (fst state))) (lv x))
  /\ (forall e, fst (fst out) = Raise e ->
                exists message reason detail, e = LoadError message reason detail).

(** The leaves of a tree on which [_expand] raised: the call stopped at
    the first leaf without a substitution; the leaves before it hold the
    substitution of their text, that leaf and the leaves after it are as
    they were. *)
Definition stopped_at (values : dict Value.t) (old new : list ScalarNode.t) : Prop :=
  exists pre pre' n post,
    old = (pre ++ n :: post)%list /\ new = (pre' ++ n :: post)%list
    /\ Forall2 (substituted values) pre pre'
    /\ ~ has_substitution values n.

(** What a raising [_expand] leaves of a node, or of an item of a
    container that holds a node. *)
Definition expand_raise {A : Type} (set_iter : list string -> list string)
    (lv : A -> list ScalarNode.t)
    (state : Variables.t * dict ValueClass.t) (x : A)
    (out : result unit * A * (Variables.t * dict ValueClass.t)) : Prop :=
  set_iter_ok set_iter -> store_ok (fst state) -> table_ok (snd state) ->
  forall e, fst (fst out) = Raise e ->
            stopped_at (Variables._values (fst state)) (lv x) (lv (snd (fst out))).

(** A tree whose second leaf refers to a name the store does not hold. *)
Definition broken_tree : Node :=
  Sequence [Scalar (scalar "%{greet}"); Mapping [("k", Scalar (scalar "%{nobody}"))]].

(** A value whose template refers to no variable. *)
Definition literal_value : Value.t :=
  Value.mk "element.bst" (ValueClass.init "/usr") None.

(* ================================================================= *)
(** * Properties *)

(** ** Strings and dictionaries *)

Lemma append_nil_r (s : string) : s ++ "" = s.
Proof. induction s as [|c s IH]; simpl; [reflexivity | now rewrite IH]. Qed.

Lemma append_assoc (a b c : string) : (a ++ b) ++ c = a ++ (b ++ c).
Proof. induction a as [|x a IH]; simpl; [reflexivity | now rewrite IH]. Qed.

Lemma str_bool_false (s : string) : str_bool s = false <-> s = "".
Proof. destruct s; simpl; split; congruence. Qed.

Lemma join_cons (s : string) (l : list string) : join (s :: l) = s ++ join l.
Proof.
  unfold join. destruct l as [|y l]; simpl; [now rewrite append_nil_r | reflexivity].
Qed.

Lemma dict_get_set_eq {A} (d : dict A) k a : dict_get (dict_set d k a) k = Some a.
Proof.
  induction d as [|[k' b] d IH]; simpl.
  - now rewrite String.eqb_refl.
  - destruct (String.eqb k' k) eqn:E; simpl; rewrite E; auto.
Qed.

Lemma dict_get_set_neq {A} (d : dict A) k k' a :
  k <> k' -> dict_get (dict_set d k a) k' = dict_get d k'.
Proof.
  intros Hne. induction d as [|[k0 b] d IH]; simpl.
  - destruct (String.eqb_spec k k'); [contradiction | reflexivity].
  - destruct (String.eqb_spec k0 k) as [->|Hk]; simpl.
    + destruct (String.eqb_spec k k'); [contradiction | reflexivity].
    + destruct (String.eqb_spec k0 k'); [reflexivity | apply IH].
Qed.

Lemma dict_get_set {A} (d : dict A) k k' a :
  dict_get (dict_set d k a) k' = if String.eqb k k' then Some a else dict_get d k'.
Proof.
  destruct (String.eqb_spec k k') as [->|Hne].
  - apply dict_get_set_eq.
  - now apply dict_get_set_neq.
Qed.

Lemma dict_keys_set_present {A} (d : dict A) k a b :
  dict_get d k = Some b -> dict_keys (dict_set d k a) = dict_keys d.
Proof.
  induction d as [|[k0 c] d IH]; simpl; [discriminate|].
  destruct (String.eqb_spec k0 k) as [->|Hk]; simpl; [reflexivity|].
  intros H. now rewrite IH.
Qed.

Lemma dict_get_In_keys {A} (d : dict A) k a :
  dict_get d k = Some a -> In k (dict_keys d).
Proof.
  induction d as [|[k0 c] d IH]; simpl; [discriminate|].
  destruct (String.eqb_spec k0 k) as [->|Hk]; auto.
Qed.


(** ** The regular expression *)

Lemma span_name_split s run rest :
  Regex.span_name s = (run, rest) ->
  s = run ++ rest /\ forallb Regex.is_name_char (list_ascii_of_string run) = true.
Proof.
  revert run rest. induction s as [|c s IH]; simpl; intros run rest H.
  - inversion H; subst. auto.
  - destruct (Regex.is_name_char c) eqn:Ec.
    + destruct (Regex.span_name s) as [run' rest'] eqn:Es. inversion H; subst.
      destruct (IH run' rest eq_refl) as [-> Hall]. simpl. rewrite Ec. auto.
    + inversion H; subst. auto.
Qed.

Lemma span_name_run run c r :
  forallb Regex.is_name_char (list_ascii_of_string run) = true ->
  Regex.is_name_char c = false ->
  Regex.span_name (run ++ String c r) = (run, String c r).
Proof.
  intros Hrun Hc. induction run as [|a run IH]; simpl in *.
  - now rewrite Hc.
  - apply andb_true_iff in Hrun as [Ha Hrun]. now rewrite Ha, (IH Hrun).
Qed.

(** A match at the start of [s] is a percent sign, an opening brace, a
    well-formed name and a closing brace. *)
Lemma match_at_sound s name rest :
  Regex.match_at s = Some (name, rest) ->
  s = "%{" ++ name ++ "}" ++ rest /\ Regex.valid_name name = true.
Proof.
  unfold Regex.match_at.
  destruct s as [|c0 [|c1 [|c s']]]; try discriminate.
  destruct (Ascii.eqb_spec c0 "%"); simpl; [|discriminate].
  destruct (Ascii.eqb_spec c1 "{"); simpl; [|discriminate].
  destruct (Regex.is_alpha c) eqn:Ec; [|discriminate].
  destruct (Regex.span_name s') as [run rest0] eqn:Es.
  destruct rest0 as [|c2 rest']; [discriminate|].
  destruct (Ascii.eqb_spec c2 "}"); [|discriminate].
  intros H; inversion H; subst.
  destruct (span_name_split _ _ _ Es) as [-> Hall].
  simpl. rewrite Ec, Hall. auto.
Qed.

Lemma match_at_complete name rest :
  Regex.valid_name name = true ->
  Regex.match_at ("%{" ++ name ++ "}" ++ rest) = Some (name, rest).
Proof.
  destruct name as [|c run]; simpl; [discriminate|].
  intros H. apply andb_true_iff in H as [Hc Hrun].
  rewrite Hc. now rewrite (span_name_run run "}" rest Hrun eq_refl).
Qed.

Lemma match_at_app s name rest t :
  Regex.match_at s = Some (name, rest) ->
  Regex.match_at (s ++ t) = Some (name, rest ++ t).
Proof.
  intros H. destruct (match_at_sound _ _ _ H) as [-> Hv].
  replace (("%{" ++ name ++ "}" ++ rest) ++ t) with ("%{" ++ name ++ "}" ++ (rest ++ t)).
  - now apply match_at_complete.
  - now rewrite !append_assoc.
Qed.

Lemma length_append (a b : string) :
  String.length (a ++ b) = String.length a + String.length b.
Proof. induction a as [|c a IH]; simpl; [reflexivity | now rewrite IH]. Qed.

Lemma match_at_length s name rest :
  Regex.match_at s = Some (name, rest) -> String.length rest < String.length s.
Proof.
  intros H. destruct (match_at_sound _ _ _ H) as [-> _].
  simpl. rewrite length_append. simpl. lia.
Qed.

Lemma valid_name_nonempty name : Regex.valid_name name = true -> str_bool name = true.
Proof. destruct name; simpl; [discriminate | reflexivity]. Qed.

(** ** The scan of [split] *)

Lemma clean_snoc pending c s :
  clean pending (String c s) -> Regex.match_at (String c s) = None ->
  clean (pending ++ String c "") s.
Proof.
  intros Hp Hc. induction pending as [|a p IH].
  - simpl. auto.
  - destruct Hp as [Ha Hp]. split; [|auto].
    cbn [append] in *. rewrite append_assoc. exact Ha.
Qed.

Lemma clean_search pending s : clean pending s -> Regex.search pending = false.
Proof.
  induction pending as [|a p IH]; intros H.
  - reflexivity.
  - destruct H as [Ha Hp]. cbn [Regex.search].
    destruct (Regex.match_at (String a p)) as [[name rest]|] eqn:E.
    + apply (match_at_app _ _ _ s) in E. congruence.
    + apply IH, Hp.
Qed.

Lemma mod2_succ idx : idx mod 2 = 0 -> S idx mod 2 = 1.
Proof.
  intros H. pose proof (Nat.div_mod_eq idx 2) as E.
  pose proof (Nat.div_mod_eq (S idx) 2) as E'.
  pose proof (Nat.mod_upper_bound (S idx) 2 ltac:(lia)). lia.
Qed.

Lemma mod2_succ_succ idx : idx mod 2 = 0 -> S (S idx) mod 2 = 0.
Proof.
  intros H. pose proof (Nat.div_mod_eq idx 2) as E.
  pose proof (Nat.div_mod_eq (S (S idx)) 2) as E'.
  pose proof (Nat.mod_upper_bound (S (S idx)) 2 ltac:(lia)). lia.
Qed.

Lemma alternating_cons_variable p ps :
  ValuePart.is_variable p = true -> alternating ps -> alternating (p :: ps).
Proof. intros Hp Hps. destruct ps as [|q ps]; simpl; [auto|]. rewrite Hp. auto. Qed.

Lemma render_parts_cons p ps : render_parts (p :: ps) = render p ++ render_parts ps.
Proof. unfold render_parts. simpl. apply join_cons. Qed.

(** The parts of a scan render back to the text scanned, are all well
    formed, and alternate. *)
Lemma split_from_parts fuel : forall pending s idx,
  String.length s < fuel -> idx mod 2 = 0 -> clean pending s ->
  let ps := parts_from (Regex.split_from fuel pending s) idx in
  render_parts ps = pending ++ s /\ Forall part_ok ps /\ alternating ps.
Proof.
  induction fuel as [|fuel IH]; intros pending s idx Hlen Hidx Hclean; [lia|].
  simpl Regex.split_from.
  destruct (Regex.match_at s) as [[name rest]|] eqn:Em.
  - pose proof (match_at_length _ _ _ Em) as Hl.
    destruct (match_at_sound _ _ _ Em) as [-> Hv].
    destruct (IH "" rest (S (S idx)) ltac:(lia) (mod2_succ_succ _ Hidx) I)
      as (Hr & Hok & Halt).
    simpl in Hr. cbn [parts_from].
    rewrite Hidx, (mod2_succ _ Hidx), (valid_name_nonempty _ Hv). simpl Nat.eqb. simpl negb.
    set (tl := parts_from (Regex.split_from fuel "" rest) (S (S idx))) in *.
    assert (Hvar : render_parts (ValuePart.init name true :: tl) = "%{" ++ name ++ "}" ++ rest).
    { rewrite render_parts_cons, Hr. unfold render. simpl. now rewrite append_assoc. }
    assert (Hokv : Forall part_ok (ValuePart.init name true :: tl)).
    { constructor; [|assumption]. split; simpl; [|assumption].
      intros ->. discriminate. }
    assert (Haltv : alternating (ValuePart.init name true :: tl))
      by (now apply alternating_cons_variable).
    destruct (str_bool pending) eqn:Ep; simpl app.
    + split; [|split].
      * rewrite render_parts_cons, Hvar. reflexivity.
      * constructor; [|assumption]. split; simpl.
        -- intros ->. discriminate.
        -- eapply clean_search; eauto.
      * simpl. auto.
    + apply str_bool_false in Ep. subst pending. auto.
  - destruct s as [|c s'].
    + cbn [parts_from]. rewrite Hidx. simpl Nat.eqb. simpl negb.
      rewrite append_nil_r.
      destruct (str_bool pending) eqn:Ep; simpl app.
      * split; [|split]; [| |simpl; auto].
        -- rewrite render_parts_cons. unfold render, render_parts. simpl.
           now rewrite append_nil_r.
        -- constructor; [|constructor]. split; simpl.
           ++ intros ->. discriminate.
           ++ eapply clean_search; eauto.
      * apply str_bool_false in Ep. subst. simpl. auto.
    + simpl in Hlen.
      destruct (IH (pending ++ String c "") s' idx ltac:(lia) Hidx
                  (clean_snoc _ _ _ Hclean Em)) as (Hr & Hok & Halt).
      rewrite append_assoc in Hr. auto.
Qed.

(** ** The loop of [_parse_string] *)

Lemma existsb_eqb_In x l : existsb (String.eqb x) l = true <-> In x l.
Proof.
  rewrite existsb_exists. split.
  - intros (y & Hy & E). apply String.eqb_eq in E. now subst.
  - intros H. exists x. split; [assumption | apply String.eqb_refl].
Qed.

Lemma set_add_In x y l : In y (set_add x l) <-> y = x \/ In y l.
Proof.
  unfold set_add. destruct (existsb (String.eqb x) l) eqn:E.
  - apply existsb_eqb_In in E. split; [auto | intros [->|]; auto].
  - rewrite in_app_iff. simpl. intuition.
Qed.

Lemma set_add_NoDup x l : NoDup l -> NoDup (set_add x l).
Proof.
  intros H. unfold set_add. destruct (existsb (String.eqb x) l) eqn:E; [assumption|].
  apply NoDup_app; [assumption | repeat constructor; simpl; tauto |].
  intros a Ha [<-|[]]. apply existsb_eqb_In in Ha. congruence.
Qed.

Lemma add_names_In ps : forall names x,
  In x (add_names ps names) <-> In x names \/ In x (variable_parts ps).
Proof.
  unfold add_names, variable_parts.
  induction ps as [|p ps IH]; intros names x; simpl.
  - tauto.
  - rewrite IH. destruct (ValuePart.is_variable p); simpl.
    + rewrite set_add_In. intuition.
    + tauto.
Qed.

Lemma add_names_NoDup ps : forall names, NoDup names -> NoDup (add_names ps names).
Proof.
  unfold add_names. induction ps as [|p ps IH]; intros names H; simpl; [assumption|].
  apply IH. destruct (ValuePart.is_variable p); [now apply set_add_NoDup | assumption].
Qed.

Lemma parse_splits_eq splits : forall split_idx self,
  ValueClass.parse_splits splits split_idx self
  = ValueClass.mk (add_names (parts_from splits split_idx) (ValueClass.variable_names self))
                  (ValueClass.parts self ++ parts_from splits split_idx)%list.
Proof.
  induction splits as [|split rest IH]; intros idx [names ps]; simpl.
  - now rewrite app_nil_r.
  - rewrite IH. destruct (str_bool split); simpl.
    + rewrite <- app_assoc. simpl.
      destruct (negb (idx mod 2 =? 0)%nat); reflexivity.
    + reflexivity.
Qed.

Lemma init_parts raw :
  ValueClass.parts (ValueClass.init raw) = parts_from (Regex.split raw) 0.
Proof. unfold ValueClass.init, ValueClass._parse_string. now rewrite parse_splits_eq. Qed.

Lemma init_variable_names raw :
  ValueClass.variable_names (ValueClass.init raw)
  = add_names (ValueClass.parts (ValueClass.init raw)) [].
Proof.
  rewrite init_parts. unfold ValueClass.init, ValueClass._parse_string.
  now rewrite parse_splits_eq.
Qed.

Lemma init_spec raw :
  let ps := ValueClass.parts (ValueClass.init raw) in
  render_parts ps = raw /\ Forall part_ok ps /\ alternating ps.
Proof.
  rewrite init_parts. unfold Regex.split.
  apply (split_from_parts (S (String.length raw)) "" raw 0); [lia | reflexivity | exact I].
Qed.

Lemma class_ok_names vc x :
  class_ok vc ->
  In x (ValueClass.variable_names vc) <-> In x (variable_parts (ValueClass.parts vc)).
Proof.
  intros [raw ->]. rewrite init_variable_names, add_names_In. simpl. tauto.
Qed.

Lemma class_ok_NoDup vc : class_ok vc -> NoDup (ValueClass.variable_names vc).
Proof.
  intros [raw ->]. rewrite init_variable_names. apply add_names_NoDup. constructor.
Qed.

Lemma variable_parts_In ps x :
  In x (variable_parts ps) <-> In (ValuePart.mk x true) ps.
Proof.
  unfold variable_parts. rewrite in_map_iff. split.
  - intros ([t v] & E & H). apply filter_In in H as [H Hv]. simpl in *. now subst.
  - intros H. exists (ValuePart.mk x true). split; [reflexivity|].
    apply filter_In. auto.
Qed.

(** ** Resolution steps *)

Lemma option_string_eqb_eq a b : option_string_eqb a b = true <-> a = b.
Proof.
  destruct a as [x|], b as [y|]; simpl; try (split; congruence).
  rewrite String.eqb_eq. split; congruence.
Qed.

Lemma option_string_eqb_refl a : option_string_eqb a a = true.
Proof. now apply option_string_eqb_eq. Qed.

Lemma is_refl (st : ResolutionStep.t) : ResolutionStep.is_ st st = true.
Proof.
  induction st as [r v|r v p IH] using step_rect'; simpl;
    rewrite option_string_eqb_refl;
    destruct (list_eq_dec string_dec v v); try congruence; auto.
Qed.

Lemma ancestors_child r v p :
  ResolutionStep.ancestors (ResolutionStep.mk r v (Some p)) = p :: ResolutionStep.ancestors p.
Proof. reflexivity. Qed.

Lemma check_from_ok self values step :
  ResolutionStep.check_from self values step = Ok tt ->
  forall a, In a (step :: ResolutionStep.ancestors step) ->
            ResolutionStep.referee a <> ResolutionStep.referee self.
Proof.
  induction step as [r v|r v p IH] using step_rect'; simpl;
    destruct (option_string_eqb (ResolutionStep.referee self) r) eqn:E; try discriminate.
  - intros _ a [<-|[]]. simpl. intros ->. now rewrite option_string_eqb_refl in E.
  - intros H a [<-|Ha].
    + simpl. intros ->. now rewrite option_string_eqb_refl in E.
    + now apply IH.
Qed.

Lemma check_from_raise self values step e :
  ResolutionStep.check_from self values step = Raise e ->
  exists conflict,
    In conflict (step :: ResolutionStep.ancestors step)
    /\ ResolutionStep.referee conflict = ResolutionStep.referee self
    /\ e = ResolutionStep._raise_circular_reference_error self conflict values.
Proof.
  induction step as [r v|r v p IH] using step_rect'; simpl;
    destruct (option_string_eqb (ResolutionStep.referee self) r) eqn:E; try discriminate.
  - intros H. inversion H. apply option_string_eqb_eq in E.
    exists (ResolutionStep.mk r v None). simpl. auto.
  - intros H. inversion H. apply option_string_eqb_eq in E.
    exists (ResolutionStep.mk r v (Some p)). simpl. auto.
  - intros H. destruct (IH H) as (c & Hc & Hr & He). exists c. simpl in *. auto.
Qed.

Lemma error_lines_unfold self_referee values conflict step :
  ResolutionStep.error_lines self_referee values conflict step
  = if ResolutionStep.is_ step conflict then Ok []
    else
      match step with
      | ResolutionStep.mk step_referee _ (Some p) =>
          match ResolutionStep.referee p with
          | None => Raise (KeyError None)
          | Some r =>
              match dict_get values r with
              | None => Raise (KeyError (Some r))
              | Some value =>
                  let line := Value.provenance value ++ ": Variable '" ++ r
                              ++ "' refers to variable '" ++ str_of_name step_referee ++ "'" in
                  match ResolutionStep.error_lines self_referee values conflict p with
                  | Ok lines => Ok (line :: lines)
                  | Raise e => Raise e
                  end
              end
          end
      | ResolutionStep.mk _ _ None =>
          match self_referee with
          | None => Raise (KeyError None)
          | Some r =>
              match dict_get values r with
              | None => Raise (KeyError (Some r))
              | Some _ => Raise AttributeError
              end
          end
      end.
Proof. destruct step as [r v [p|]]; reflexivity. Qed.

Section Steps.

Variable values : dict Value.t.
Variable name : string.

Lemma step_ok_parent r v p :
  step_ok values name (ResolutionStep.mk r v (Some p)) ->
  step_ok values name p
  /\ ResolutionStep.check_circular p values = Ok tt
  /\ exists x val, r = Some x /\ In x (ResolutionStep.varnames p)
                   /\ dict_get values x = Some val
                   /\ v = ValueClass.variable_names (Value._value_class val).
Proof. intros H. inversion H; subst. eauto 10. Qed.

Lemma step_ok_top_inv r v :
  step_ok values name (ResolutionStep.mk r v None) -> r = None /\ v = [name].
Proof. intros H. inversion H; subst. auto. Qed.

(** The referee of a step is [None] or a key of the table. *)
Lemma step_ok_referees st :
  step_ok values name st ->
  incl (referees st) (None :: map Some (dict_keys values)).
Proof.
  unfold referees.
  induction 1 as [|p x v Hp IH Hc Hx Hv]; intros r Hr; simpl in Hr.
  - destruct Hr as [<-|[]]. now left.
  - destruct Hr as [<-|Hr]; [|now apply IH].
    right. apply in_map. eapply dict_get_In_keys; eauto.
Qed.

Lemma check_circular_NoDup st :
  step_ok values name st ->
  ResolutionStep.check_circular st values = Ok tt ->
  NoDup (referees st).
Proof.
  unfold referees.
  induction 1 as [|p x v Hp IH Hc Hx Hv]; intros Hcheck; simpl.
  - repeat constructor. simpl. tauto.
  - constructor; [|now apply IH].
    unfold ResolutionStep.check_circular in Hcheck. simpl in Hcheck.
    intros Hin.
    change (In (Some x) (map ResolutionStep.referee (p :: ResolutionStep.ancestors p))) in Hin.
    apply in_map_iff in Hin as (a & Ha & Hin).
    apply (check_from_ok _ _ _ Hcheck a Hin). now rewrite Ha.
Qed.

(** A step that passes its check has fewer ancestors than the table has
    keys, the initial step apart. *)
Lemma check_circular_depth st :
  step_ok values name st ->
  ResolutionStep.check_circular st values = Ok tt ->
  depth st <= length values.
Proof.
  intros Hok Hcheck.
  pose proof (NoDup_incl_length (check_circular_NoDup st Hok Hcheck)
                (step_ok_referees st Hok)) as H.
  unfold referees, depth, dict_keys in *. simpl in H. rewrite !length_map in H. lia.
Qed.

(** The error report of a circular reference can be written. *)
Lemma error_lines_ok self_referee st :
  step_ok values name st ->
  forall conflict,
    In conflict (st :: ResolutionStep.ancestors st) ->
    ResolutionStep.referee conflict <> None ->
    exists lines, ResolutionStep.error_lines self_referee values conflict st = Ok lines.
Proof.
  induction st as [r v|r v p IH] using step_rect'; intros Hok conflict Hin Hc;
    rewrite error_lines_unfold.
  - destruct Hin as [<-|[]]. rewrite is_refl. eauto.
  - destruct (ResolutionStep.is_ (ResolutionStep.mk r v (Some p)) conflict) eqn:E; [eauto|].
    destruct Hin as [<-|Hin]; [now rewrite is_refl in E|].
    rewrite ancestors_child in Hin.
    destruct (step_ok_parent _ _ _ Hok) as (Hp & _ & _).
    destruct (IH Hp conflict Hin Hc) as (lines & Hl). rewrite Hl.
    destruct p as [rp vp [pp|]].
    + destruct (step_ok_parent _ _ _ Hp) as (_ & _ & x & val & -> & _ & Hval & _).
      simpl. rewrite Hval. eauto.
    + destruct (step_ok_top_inv _ _ Hp) as [-> ->].
      simpl in Hin. destruct Hin as [<-|[]]. now elim Hc.
Qed.

(** A failed check raises the circular-reference error. *)
Lemma check_circular_raise st e :
  step_ok values name st ->
  ResolutionStep.check_circular st values = Raise e ->
  exists x message detail,
    ResolutionStep.referee st = Some x
    /\ In (Some x) (map ResolutionStep.referee (ResolutionStep.ancestors st))
    /\ e = LoadError message CIRCULAR_REFERENCE_VARIABLE detail.
Proof.
  intros Hok. unfold ResolutionStep.check_circular.
  destruct st as [r v [p|]]; simpl; [|discriminate].
  intros H. apply check_from_raise in H as (conflict & Hin & Hr & ->).
  destruct (step_ok_parent _ _ _ Hok) as (Hp & _ & x & val & -> & _).
  simpl in Hr. exists x.
  unfold ResolutionStep._raise_circular_reference_error.
  destruct (error_lines_ok (Some x) _ Hok conflict) as (lines & Hl).
  - right. exact Hin.
  - rewrite Hr. discriminate.
  - simpl ResolutionStep.referee. rewrite Hl. do 2 eexists. split; [reflexivity|].
    split; [|reflexivity]. rewrite <- Hr.
    change (In (ResolutionStep.referee conflict)
              (map ResolutionStep.referee (p :: ResolutionStep.ancestors p))).
    now apply in_map.
Qed.

End Steps.

(** ** The first loop of [_resolve] *)

Lemma dict_get_In {A} (d : dict A) k a : dict_get d k = Some a -> In (k, a) d.
Proof.
  induction d as [|[k0 c] d IH]; simpl; [discriminate|].
  destruct (String.eqb_spec k0 k) as [->|Hk].
  - intros H; inversion H; auto.
  - auto.
Qed.

Lemma same_classes_refl values : same_classes values values.
Proof. intros k. reflexivity. Qed.

Lemma same_classes_trans a b c : same_classes a b -> same_classes b c -> same_classes a c.
Proof. intros H1 H2 k. now rewrite H1. Qed.

Lemma queue_mono values values' pend pend' deps : forall newer newer',
  same_classes values values' ->
  (forall n x, resolved values x \/ In x newer \/ pend n x ->
               resolved values' x \/ In x newer' \/ pend' n x) ->
  queue_ok values pend newer deps -> queue_ok values' pend' newer' deps.
Proof.
  induction deps as [|d rest IH]; intros newer newer' Hsame Hcov; simpl; [auto|].
  intros [(v & Hv & Hready) Hrest]. split.
  - specialize (Hsame d). rewrite Hv in Hsame. simpl in Hsame.
    destruct (dict_get values' d) as [v'|] eqn:Hv'; [|discriminate].
    inversion Hsame as [Hclass]. exists v'. split; [assumption|].
    rewrite <- Hclass. intros x Hx. apply Hcov. auto.
  - apply (IH (d :: newer) (d :: newer') Hsame); [|assumption].
    intros n x [H|[[<-|H]|H]]; simpl.
    + destruct (Hcov n x (or_introl H)) as [?|[?|?]]; auto.
    + auto.
    + destruct (Hcov n x (or_intror (or_introl H))) as [?|[?|?]]; auto.
    + destruct (Hcov n x (or_intror (or_intror H))) as [?|[?|?]]; auto.
Qed.

Lemma budget_pos b k : 1 <= Variables.budget b k.
Proof. destruct k; simpl; lia. Qed.

Lemma stack_weight_app b n s1 s2 :
  stack_weight b n (s1 ++ s2)%list = stack_weight b n s1 + stack_weight b n s2.
Proof. unfold stack_weight. now rewrite map_app, list_sum_app. Qed.

Lemma depth_child st p :
  ResolutionStep.parent st = Some p -> depth st = S (depth p).
Proof. destruct st as [r v [q|]]; simpl; intros H; inversion H. reflexivity. Qed.

Lemma weight_children b n this_step new :
  depth this_step <= n ->
  Forall (fun st => ResolutionStep.parent st = Some this_step) new ->
  length new <= b ->
  stack_weight b n new + 1 <= weight b n this_step.
Proof.
  intros Hd Hnew Hlen.
  assert (Hsum : stack_weight b n new
                 = length new * Variables.budget b (n - depth this_step)).
  { clear Hlen. induction Hnew as [|st new Hst Hnew IH]; [reflexivity|].
    unfold stack_weight in *. simpl. rewrite IH. unfold weight.
    rewrite (depth_child _ _ Hst). reflexivity. }
  rewrite Hsum. unfold weight.
  replace (S n - depth this_step) with (S (n - depth this_step)) by lia.
  simpl. pose proof (Nat.mul_le_mono_r _ _ (Variables.budget b (n - depth this_step)) Hlen).
  lia.
Qed.

Lemma max_names_name set_iter self name :
  length (set_iter [name]) <= Variables.max_names set_iter self name.
Proof.
  destruct self as [d]. unfold Variables.max_names. simpl.
  induction d as [|kv d IH]; simpl; lia.
Qed.

Lemma max_names_value set_iter self name k v :
  dict_get (Variables._values self) k = Some v ->
  length (set_iter (ValueClass.variable_names (Value._value_class v)))
  <= Variables.max_names set_iter self name.
Proof.
  destruct self as [d]. unfold Variables.max_names. simpl.
  intros H. apply dict_get_In in H.
  induction d as [|kv d IH]; simpl; [destruct H|].
  destruct H as [->|H]; simpl; [lia|]. specialize (IH H). lia.
Qed.

Section FirstLoop.

Variable set_iter : list string -> list string.
Variable self : Variables.t.
Variable name : string.
Variable provenance : option ProvenanceInformation.

Hypothesis Hiter : set_iter_ok set_iter.
Hypothesis Hclasses : classes_ok (Variables._values self).

Local Notation values := (Variables._values self).

Lemma set_iter_In l x : In x (set_iter l) <-> In x l.
Proof.
  split; intros H.
  - eapply Permutation_in; [apply Hiter | exact H].
  - eapply Permutation_in; [apply Permutation_sym, Hiter | exact H].
Qed.

Lemma set_iter_length l : length (set_iter l) = length l.
Proof. apply Permutation_length, Hiter. Qed.

Lemma set_iter_singleton x : set_iter [x] = [x].
Proof. apply Permutation_length_1_inv, Permutation_sym, Hiter. Qed.

(** The chain of references that a step stands for. *)
Lemma step_ok_path st :
  step_ok values name st ->
  match ResolutionStep.referee st with
  | None => ResolutionStep.varnames st = [name]
  | Some x =>
      reaches values name x
      /\ (forall y, In y (ResolutionStep.varnames st) -> refers values x y)
      /\ (forall x', In (Some x') (map ResolutionStep.referee (ResolutionStep.ancestors st)) ->
                     exists y, refers values x' y /\ reaches values y x)
  end.
Proof.
  induction 1 as [|p x v Hp IH Hc Hx Hv]; simpl; [reflexivity|].
  assert (Hrefers : forall y, In y (ValueClass.variable_names (Value._value_class v)) ->
                              refers values x y) by (intros y Hy; exists v; auto).
  destruct (ResolutionStep.referee p) as [r|] eqn:Er.
  - destruct IH as (Hreach & Hnames & Hanc).
    split; [eapply reaches_step; eauto|]. split; [assumption|].
    intros x' [E|Hin].
    + inversion E; subst. exists x. split; [auto | constructor].
    + destruct (Hanc x' Hin) as (y & Hy & Hyr). exists y. split; [assumption|].
      eapply reaches_step; eauto.
  - rewrite IH in Hx. destruct Hx as [<-|[]].
    split; [constructor|]. split; [assumption|].
    intros x' [E|Hin]; [discriminate|].
    destruct p as [rp vp [pp|]]; simpl in *.
    + apply step_ok_parent in Hp as (_ & _ & z & val & E & _). congruence.
    + destruct Hin.
Qed.

Lemma step_ok_reaches st x :
  step_ok values name st -> In x (ResolutionStep.varnames st) -> reaches values name x.
Proof.
  intros Hok Hx. pose proof (step_ok_path st Hok) as Hp.
  destruct (ResolutionStep.referee st) as [r|].
  - destruct Hp as (Hr & Hn & _). eapply reaches_step; eauto.
  - rewrite Hp in Hx. destruct Hx as [<-|[]]. constructor.
Qed.

Lemma step_ok_names_bound st :
  step_ok values name st ->
  length (set_iter (ResolutionStep.varnames st)) <= Variables.max_names set_iter self name.
Proof.
  destruct 1 as [|p x v Hp Hc Hx Hv]; simpl.
  - apply max_names_name.
  - eapply max_names_value; eauto.
Qed.

(** One pass over names of a step, past the first name of the call. *)
Lemma for_varnames_spec this_step :
  step_ok values name this_step ->
  ResolutionStep.check_circular this_step values = Ok tt ->
  forall names step deps,
    (forall x, In x names -> In x (ResolutionStep.varnames this_step)) ->
    queue_ok values (pending_for this_step names step) [] deps ->
    match Variables.for_varnames self provenance this_step names step deps false with
    | Variables.Throw e =>
        exists message detail x,
          e = LoadError message UNRESOLVED_VARIABLE detail
          /\ In x names /\ ~ defined values x
    | Variables.Return _ _ => False
    | Variables.Next step' deps' first_iteration' =>
        first_iteration' = false
        /\ exists new l,
            step' = (new ++ step)%list /\ deps' = (l ++ deps)%list
            /\ length new <= length names
            /\ Forall (fun st => step_ok values name st
                                 /\ ResolutionStep.parent st = Some this_step) new
            /\ queue_ok values (pending step') [] deps'
    end.
Proof.
  intros Hok Hcheck. induction names as [|iter_name names IH]; intros step deps Hin Hq.
  - simpl. split; [reflexivity|]. exists [], []. simpl.
    repeat split; auto. revert Hq. apply queue_mono; [apply same_classes_refl|].
    intros n x [H|[H|[[_ []]|H]]]; auto.
  - simpl. unfold Variables._get_checked_value.
    destruct (dict_get values iter_name) as [iter_value|] eqn:Hv.
    + destruct (Value._resolved iter_value) as [s|] eqn:Hres.
      * (* already resolved: nothing is queued *)
        specialize (IH step deps (fun x H => Hin x (or_intror H))).
        assert (Hq' : queue_ok values (pending_for this_step names step) [] deps).
        { revert Hq. apply queue_mono; [apply same_classes_refl|].
          intros n x [H|[H|[[Hr [<-|H]]|H]]]; auto.
          - left. exists iter_value, s. auto.
          - right. right. left. auto.
          - right. right. right. auto. }
        specialize (IH Hq').
        destruct (Variables.for_varnames self provenance this_step names step deps false)
          as [step' deps' fi'|n v|e].
        -- destruct IH as (Hfi & new & l & Hs & Hd & Hlen & Hnew & Hq'').
           split; [assumption|]. exists new, l. repeat split; auto; simpl; lia.
        -- assumption.
        -- destruct IH as (m & d & x & He & Hx & Hu). exists m, d, x. simpl. auto.
      * (* queued, with a step for its dependencies if it has any *)
        unfold Value.dependencies. rewrite Hres.
        set (vn := ValueClass.variable_names (Value._value_class iter_value)) in *.
        set (child := ResolutionStep.init (Some iter_name) vn (Some this_step)).
        assert (Hchild : step_ok values name child).
        { apply step_ok_child; auto. apply Hin. now left. }
        set (step1 := match vn with [] => step | _ :: _ => child :: step end).
        assert (Hstep1 : exists new1, step1 = (new1 ++ step)%list /\ length new1 <= 1
                  /\ Forall (fun st => step_ok values name st
                                       /\ ResolutionStep.parent st = Some this_step) new1
                  /\ (vn <> [] -> In child step1)).
        { unfold step1. destruct vn as [|y vn'].
          - exists []. simpl. repeat split; auto. congruence.
          - exists [child]. simpl. repeat split; auto. }
        destruct Hstep1 as (new1 & Hs1 & Hlen1 & Hnew1 & Hpush).
        specialize (IH step1 (iter_name :: deps) (fun x H => Hin x (or_intror H))).
        assert (Hq' : queue_ok values (pending_for this_step names step1) [] (iter_name :: deps)).
        { split.
          - exists iter_value. split; [assumption|]. intros x Hx.
            right. right. right.
            apply (class_ok_names _ x (Hclasses _ _ Hv)) in Hx. fold vn in Hx.
            exists child. split; [|split]; [|reflexivity|exact Hx].
            apply Hpush. intros E. rewrite E in Hx. destruct Hx.
          - revert Hq. apply queue_mono; [apply same_classes_refl|].
            intros n x [H|[[]|[[Hr [<-|H]]|H]]]; simpl; auto.
            + right. right. left. auto.
            + right. right. right. destruct H as (st & Hst & Hr & Hx).
              exists st. rewrite Hs1, in_app_iff. auto. }
        specialize (IH Hq').
        destruct (Variables.for_varnames self provenance this_step names step1
                    (iter_name :: deps) false) as [step' deps' fi'|n v|e].
        -- destruct IH as (Hfi & new & l & Hs & Hd & Hlen & Hnew & Hq'').
           split; [assumption|]. exists (new ++ new1)%list, (l ++ [iter_name])%list.
           rewrite <- !app_assoc. simpl. rewrite <- Hs1. repeat split; auto.
           ++ rewrite length_app. lia.
           ++ apply Forall_app. auto.
        -- assumption.
        -- destruct IH as (m & d & x & He & Hx & Hu). exists m, d, x. simpl. auto.
    + do 2 eexists. exists iter_name. split; [reflexivity|]. split; [now left|].
      unfold defined. rewrite Hv. auto.
Qed.

(** The first loop, past the first name of the call. *)
Lemma while_step_spec fuel : forall step deps,
  Forall (step_ok values name) step ->
  queue_ok values (pending step) [] deps ->
  (exists l, deps = (l ++ [name])%list) ->
  stack_weight (Variables.max_names set_iter self name) (length values) step < fuel ->
  first_loop_post values name
    (Variables.while_step set_iter fuel self provenance step deps false).
Proof.
  induction fuel as [|fuel IH]; intros step deps Hsteps Hq Hlast Hw; [lia|].
  simpl. destruct step as [|this_step step'].
  - repeat split; auto. revert Hq. apply queue_mono; [apply same_classes_refl|].
    intros n x [H|[H|(st & [] & _)]]; auto.
  - inversion Hsteps as [|? ? Hthis Hrest]; subst.
    destruct (ResolutionStep.check_circular this_step values) as [[]|e] eqn:Hcheck.
    + pose proof (for_varnames_spec this_step Hthis Hcheck
                    (set_iter (ResolutionStep.varnames this_step)) step' deps
                    (fun x H => proj1 (set_iter_In _ x) H)) as Hfor.
      assert (Hq' : queue_ok values
                      (pending_for this_step (set_iter (ResolutionStep.varnames this_step)) step')
                      [] deps).
      { revert Hq. apply queue_mono; [apply same_classes_refl|].
        intros n x [H|[H|(st & [<-|Hst] & Hr & Hx)]]; auto.
        - right. right. left. split; [assumption|]. now apply set_iter_In.
        - right. right. right. exists st. auto. }
      specialize (Hfor Hq').
      destruct (Variables.for_varnames self provenance this_step
                  (set_iter (ResolutionStep.varnames this_step)) step' deps false)
        as [step'' deps' fi'|n v|e].
      * destruct Hfor as (-> & new & l & -> & -> & Hlen & Hnew & Hq'').
        apply IH.
        -- apply Forall_app. split; [|assumption].
           eapply Forall_impl; [|exact Hnew]. simpl. tauto.
        -- assumption.
        -- destruct Hlast as (l0 & ->). exists (l ++ l0)%list. now rewrite app_assoc.
        -- rewrite stack_weight_app.
           unfold stack_weight in Hw. simpl in Hw. fold (stack_weight
             (Variables.max_names set_iter self name) (length values) step') in Hw.
           pose proof (weight_children (Variables.max_names set_iter self name)
                         (length values) this_step new
                         (check_circular_depth _ _ _ Hthis Hcheck)) as Hwc.
           assert (Hlen' : length new <= Variables.max_names set_iter self name).
           { etransitivity; [exact Hlen|]. now apply step_ok_names_bound. }
           specialize (Hwc (Forall_impl _ (fun st H => proj2 H) Hnew) Hlen'). lia.
      * assumption.
      * destruct Hfor as (m & d & x & -> & Hx & Hu). simpl. left.
        exists m, d, x. split; [reflexivity|]. split; [|assumption].
        apply (step_ok_reaches this_step); [assumption|]. now apply set_iter_In.
    + destruct (check_circular_raise _ _ _ _ Hthis Hcheck) as (x & m & d & Hr & Hin & ->).
      simpl. right. exists m, d. split; [reflexivity|].
      pose proof (step_ok_path this_step Hthis) as Hp. rewrite Hr in Hp.
      destruct Hp as (Hreach & _ & Hanc). exists x. split; [assumption|]. now apply Hanc.
Qed.

End FirstLoop.

(** ** Value.resolve *)

Lemma resolve_resolved v values s :
  Value._resolved v = Some s -> Value.resolve v values = (Ok s, v).
Proof. intros H. unfold Value.resolve. now rewrite H. Qed.

Lemma resolve_fields v values r v' :
  Value.resolve v values = (r, v') ->
  Value._value_class v' = Value._value_class v
  /\ Value.provenance v' = Value.provenance v
  /\ (forall s, Value._resolved v = Some s -> v' = v /\ r = Ok s)
  /\ (forall s, r = Ok s -> Value._resolved v' = Some s)
  /\ (forall e, r = Raise e -> v' = v).
Proof.
  unfold Value.resolve. destruct (Value._resolved v) as [s0|] eqn:E.
  - intros H; inversion H; subst. repeat split; auto; try congruence.
  - destruct (Value.collect_parts values _) as [ps|e].
    + destruct (Value.str_join ps) as [s|e]; intros H; inversion H; subst; simpl;
        repeat split; auto; try congruence.
    + intros H; inversion H; subst; simpl; repeat split; auto; try congruence.
Qed.

Lemma str_join_some strs : Value.str_join (map Some strs) = Ok (join strs).
Proof.
  induction strs as [|s strs IH]; [reflexivity|].
  simpl. now rewrite IH, join_cons.
Qed.

Lemma variable_parts_cons p ps :
  variable_parts (p :: ps)
  = if ValuePart.is_variable p then ValuePart.text p :: variable_parts ps
    else variable_parts ps.
Proof. unfold variable_parts. simpl. now destruct (ValuePart.is_variable p). Qed.

Lemma collect_parts_resolved values ps :
  (forall x, In x (variable_parts ps) -> resolved values x) ->
  exists strs, Value.collect_parts values ps = Ok (map Some strs).
Proof.
  induction ps as [|p ps IH]; intros H.
  - exists []. reflexivity.
  - rewrite variable_parts_cons in H. simpl.
    destruct (ValuePart.is_variable p).
    + destruct (H (ValuePart.text p) (or_introl eq_refl)) as (v & s & Hv & Hs).
      destruct IH as (strs & Hstrs); [intros x Hx; apply H; now right|].
      rewrite Hv, Hstrs, Hs. now exists (s :: strs).
    + destruct (IH H) as (strs & Hstrs). rewrite Hstrs.
      now exists (ValuePart.text p :: strs).
Qed.

Lemma resolve_ready v values :
  (forall x, In x (variable_parts (ValueClass.parts (Value._value_class v))) ->
             resolved values x) ->
  exists s v', Value.resolve v values = (Ok s, v').
Proof.
  intros H. unfold Value.resolve. destruct (Value._resolved v); [eauto|].
  destruct (collect_parts_resolved _ _ H) as (strs & ->).
  rewrite str_join_some. eauto.
Qed.

(** ** Expansions *)

Lemma expand_parts_mono (f g : string -> option string) ps s :
  (forall x a, f x = Some a -> g x = Some a) ->
  expand_parts f ps = Some s -> expand_parts g ps = Some s.
Proof.
  intros Hfg. revert s. induction ps as [|p ps IH]; simpl; intros s; [auto|].
  destruct (ValuePart.is_variable p).
  - destruct (f (ValuePart.text p)) as [a|] eqn:Ea; [|discriminate].
    rewrite (Hfg _ _ Ea).
    destruct (expand_parts f ps) as [b|]; [|discriminate].
    now rewrite (IH b eq_refl).
  - destruct (expand_parts f ps) as [b|]; [|discriminate].
    now rewrite (IH b eq_refl).
Qed.

Lemma expansion_succ n : forall values x s,
  expansion n values x = Some s -> expansion (S n) values x = Some s.
Proof.
  induction n as [|n IH]; intros values x s; [discriminate|].
  intros H. simpl in H. change (expansion (S (S n)) values x)
    with (match dict_get values x with
          | None => None
          | Some v => expand_parts (expansion (S n) values)
                        (ValueClass.parts (Value._value_class v))
          end).
  destruct (dict_get values x) as [v|]; [|discriminate].
  eapply expand_parts_mono; [|exact H]. intros y a. apply IH.
Qed.

Lemma expansion_le n m values x s :
  n <= m -> expansion n values x = Some s -> expansion m values x = Some s.
Proof. induction 1; auto using expansion_succ. Qed.

Lemma expansion_unique n m values x s t :
  expansion n values x = Some s -> expansion m values x = Some t -> s = t.
Proof.
  intros Hn Hm.
  apply (expansion_le n (Nat.max n m)) in Hn; [|lia].
  apply (expansion_le m (Nat.max n m)) in Hm; [|lia]. congruence.
Qed.

Lemma expand_parts_ext (f g : string -> option string) ps :
  (forall x, f x = g x) -> expand_parts f ps = expand_parts g ps.
Proof.
  intros Hfg. induction ps as [|p ps IH]; simpl; [reflexivity|].
  now rewrite IH, Hfg.
Qed.

Lemma expansion_ext n : forall values values' x,
  same_classes values values' -> expansion n values x = expansion n values' x.
Proof.
  induction n as [|n IH]; intros values values' x Hsame; [reflexivity|].
  simpl. specialize (Hsame x) as Hx.
  destruct (dict_get values x) as [v|], (dict_get values' x) as [v'|];
    simpl in Hx; try discriminate; [|reflexivity].
  inversion Hx as [Hc]. rewrite Hc. apply expand_parts_ext. intros y. now apply IH.
Qed.

Lemma expands_to_ext values values' x s :
  same_classes values values' -> expands_to values x s -> expands_to values' x s.
Proof. intros Hsame [n Hn]. exists n. now rewrite <- (expansion_ext n _ _ x Hsame). Qed.

(** What [resolve] computes from memos that are expansions is the
    expansion of the parts. *)
Lemma collect_parts_expansion values ps : forall l s,
  memo_ok values ->
  Value.collect_parts values ps = Ok l -> Value.str_join l = Ok s ->
  exists n, expand_parts (expansion n values) ps = Some s.
Proof.
  induction ps as [|p ps IH]; intros l s Hmemo Hl Hs; simpl in *.
  - inversion Hl; subst. simpl in Hs. inversion Hs. now exists 0.
  - destruct (ValuePart.is_variable p) eqn:Ep.
    + destruct (dict_get values (ValuePart.text p)) as [pv|] eqn:Hpv; [|discriminate].
      destruct (Value.collect_parts values ps) as [l'|]; [|discriminate].
      inversion Hl; subst. simpl in Hs.
      destruct (Value._resolved pv) as [a|] eqn:Ea; [|discriminate].
      destruct (Value.str_join l') as [b|] eqn:Eb; [|discriminate].
      inversion Hs; subst.
      destruct (Hmemo _ _ _ Hpv Ea) as [n1 Hn1].
      destruct (IH l' b Hmemo eq_refl Eb) as [n2 Hn2].
      exists (Nat.max n1 n2).
      rewrite (expansion_le n1 _ _ _ _ (Nat.le_max_l n1 n2) Hn1).
      rewrite (expand_parts_mono (expansion n2 values) _ ps b); [reflexivity| |exact Hn2].
      intros x c. apply expansion_le. lia.
    + destruct (Value.collect_parts values ps) as [l'|]; [|discriminate].
      inversion Hl; subst. simpl in Hs.
      destruct (Value.str_join l') as [b|] eqn:Eb; [|discriminate].
      inversion Hs; subst.
      destruct (IH l' b Hmemo eq_refl Eb) as [n2 Hn2].
      exists n2. now rewrite Hn2.
Qed.

Lemma resolve_expansion values k v s v' :
  memo_ok values -> dict_get values k = Some v ->
  Value.resolve v values = (Ok s, v') -> expands_to values k s.
Proof.
  intros Hmemo Hv. unfold Value.resolve.
  destruct (Value._resolved v) as [s0|] eqn:E.
  - intros H; inversion H; subst. eauto.
  - destruct (Value.collect_parts values _) as [l|] eqn:El; [|discriminate].
    destruct (Value.str_join l) as [s1|] eqn:Es; [|discriminate].
    intros H; inversion H; subst.
    destruct (collect_parts_expansion _ _ _ _ Hmemo El Es) as [n Hn].
    exists (S n). simpl. now rewrite Hv.
Qed.

(** ** Writing a value back *)

Lemma dict_set_same {A} (d : dict A) k a : dict_get d k = Some a -> dict_set d k a = d.
Proof.
  induction d as [|[k0 b] d IH]; simpl; [discriminate|].
  destruct (String.eqb_spec k0 k) as [->|Hk].
  - intros H; inversion H; reflexivity.
  - intros H. now rewrite IH.
Qed.

Lemma write_back_same_classes values k v v' :
  dict_get values k = Some v -> Value._value_class v' = Value._value_class v ->
  same_classes values (dict_set values k v').
Proof.
  intros Hv Hc x. rewrite dict_get_set.
  destruct (String.eqb_spec k x) as [<-|]; [|reflexivity].
  rewrite Hv. simpl. now rewrite Hc.
Qed.

Lemma write_back_memos_kept values k v v' :
  dict_get values k = Some v ->
  (forall s, Value._resolved v = Some s -> Value._resolved v' = Some s) ->
  memos_kept values (dict_set values k v').
Proof.
  intros Hv Hm x vx s Hx Hs. rewrite dict_get_set.
  destruct (String.eqb_spec k x) as [<-|]; [|eauto].
  exists v'. split; [reflexivity|]. apply Hm. congruence.
Qed.

Lemma memos_kept_refl values : memos_kept values values.
Proof. intros k v s Hv Hs. eauto. Qed.

Lemma memos_kept_trans a b c : memos_kept a b -> memos_kept b c -> memos_kept a c.
Proof.
  intros H1 H2 k v s Hv Hs. destruct (H1 _ _ _ Hv Hs) as (v' & Hv' & Hs'). eauto.
Qed.

Lemma memos_kept_resolved a b x : memos_kept a b -> resolved a x -> resolved b x.
Proof. intros H (v & s & Hv & Hs). destruct (H _ _ _ Hv Hs) as (v' & ? & ?). exists v', s. auto. Qed.

Lemma same_classes_classes_ok a b : same_classes a b -> classes_ok a -> classes_ok b.
Proof.
  intros Hsame Hok k v Hv. specialize (Hsame k). rewrite Hv in Hsame.
  destruct (dict_get a k) as [v0|] eqn:E; simpl in Hsame; [|discriminate].
  injection Hsame as Hc. rewrite <- Hc. eauto.
Qed.

(** ** The second loop of [_resolve] *)

(** Whatever the queue, the second loop keeps the keys, the templates and
    the memos that are set. *)
Lemma while_deps_kept deps : forall self resolved_value,
  let values' := Variables._values (snd (Variables.while_deps deps self resolved_value)) in
  same_classes (Variables._values self) values'
  /\ memos_kept (Variables._values self) values'
  /\ dict_keys values' = dict_keys (Variables._values self).
Proof.
  induction deps as [|d deps IH]; intros self rv; simpl.
  - auto using same_classes_refl, memos_kept_refl.
  - destruct (dict_get (Variables._values self) d) as [v|] eqn:Hv; simpl.
    + destruct (Value.resolve v (Variables._values self)) as [r v'] eqn:Hr.
      destruct (resolve_fields _ _ _ _ Hr) as (Hc & _ & Hmemo & _ & _).
      assert (Hstep : same_classes (Variables._values self) (dict_set (Variables._values self) d v')
                      /\ memos_kept (Variables._values self) (dict_set (Variables._values self) d v')
                      /\ dict_keys (dict_set (Variables._values self) d v')
                         = dict_keys (Variables._values self)).
      { split; [|split].
        - eapply write_back_same_classes; eauto.
        - eapply write_back_memos_kept; eauto.
          intros s Hs. destruct (Hmemo s Hs) as [-> _]. assumption.
        - eapply dict_keys_set_present; eauto. }
      destruct Hstep as (H1 & H2 & H3).
      destruct r as [s|e]; simpl; [|auto].
      specialize (IH (Variables.mk (dict_set (Variables._values self) d v')) (Some s)).
      simpl in IH. destruct IH as (I1 & I2 & I3).
      split; [|split].
      * eapply same_classes_trans; eauto.
      * eapply memos_kept_trans; eauto.
      * congruence.
    + auto using same_classes_refl, memos_kept_refl.
Qed.

(** A queue that can be resolved from its head on is resolved without an
    error; the call returns the memo of the last name of the queue. *)
Lemma while_deps_spec deps : forall self resolved_value,
  queue_ok (Variables._values self) nothing_pending [] deps ->
  exists r self',
    Variables.while_deps deps self resolved_value = (Ok r, self')
    /\ (memo_ok (Variables._values self) -> memo_ok (Variables._values self'))
    /\ (forall d, In d deps -> resolved (Variables._values self') d)
    /\ match deps with
       | [] => r = resolved_value
       | _ :: _ => exists s, r = Some s /\ memo self' (last deps "") = Some s
       end.
Proof.
  induction deps as [|d deps IH]; intros self rv Hq.
  - exists rv, self. simpl. repeat split; auto. intros d [].
  - destruct Hq as [(v & Hv & Hready) Hrest].
    destruct (resolve_ready v (Variables._values self)) as (s & v' & Hr).
    { intros x Hx. destruct (Hready x Hx) as [H|[[]|[]]]. exact H. }
    destruct (resolve_fields _ _ _ _ Hr) as (Hc & _ & Hmemo & Hset & _).
    set (self1 := Variables.mk (dict_set (Variables._values self) d v')).
    assert (Hsame : same_classes (Variables._values self) (Variables._values self1))
      by (eapply write_back_same_classes; eauto).
    assert (Hkept : memos_kept (Variables._values self) (Variables._values self1)).
    { eapply write_back_memos_kept; eauto.
      intros s0 Hs0. destruct (Hmemo s0 Hs0) as [-> _]. assumption. }
    assert (Hd : memo self1 d = Some s).
    { unfold memo, self1. simpl. rewrite dict_get_set_eq. now apply Hset. }
    assert (Hq1 : queue_ok (Variables._values self1) nothing_pending [] deps).
    { revert Hrest. apply queue_mono; [assumption|].
      intros n x [H|[[<-|[]]|[]]].
      - left. eapply memos_kept_resolved; eauto.
      - left. exists v', s. split; [apply dict_get_set_eq | now apply Hset]. }
    destruct (IH self1 (Some s) Hq1) as (r & self' & Hw & Hmo & Hres & Hlast).
    pose proof (while_deps_kept deps self1 (Some s)) as Hk. rewrite Hw in Hk.
    simpl in Hk. destruct Hk as (_ & Hk & _).
    exists r, self'. split; [|split; [|split]].
    + simpl. rewrite Hv, Hr. exact Hw.
    + intros Hm. apply Hmo. intros k vk sk Hk' Hsk.
      apply (expands_to_ext _ _ _ _ Hsame).
      unfold self1 in Hk'. simpl in Hk'. rewrite dict_get_set in Hk'.
      destruct (String.eqb_spec d k) as [<-|].
      * inversion Hk'; subst vk. rewrite (Hset s eq_refl) in Hsk. inversion Hsk; subst sk.
        eapply resolve_expansion; eauto.
      * eauto.
    + intros x [<-|Hx]; [|auto].
      unfold memo in Hd. destruct (dict_get (Variables._values self1) d) as [vd|] eqn:E;
        [|discriminate].
      destruct (Hk _ _ _ E Hd) as (v'' & ? & ?). exists v'', s. auto.
    + destruct deps as [|d' deps'].
      * subst r. exists s. split; [reflexivity|]. simpl in Hw. inversion Hw; subst. exact Hd.
      * exact Hlast.
Qed.

(** ** The driver [_resolve] *)

Lemma extends_refl self : extends self self.
Proof. repeat split; auto using same_classes_refl, memos_kept_refl. Qed.

Lemma extends_trans a b c : extends a b -> extends b c -> extends a c.
Proof.
  intros (A1 & A2 & A3) (B1 & B2 & B3). repeat split.
  - eapply same_classes_trans; eauto.
  - eapply memos_kept_trans; eauto.
  - congruence.
Qed.

Lemma mk_values self : Variables.mk (Variables._values self) = self.
Proof. now destruct self. Qed.

Lemma for_varnames_return self provenance this_step names :
  forall step deps first_iteration n v,
    Variables.for_varnames self provenance this_step names step deps first_iteration
    = Variables.Return n v ->
    dict_get (Variables._values self) n = Some v /\ exists s, Value._resolved v = Some s.
Proof.
  induction names as [|iter_name names IH]; intros step deps fi n v; simpl; [discriminate|].
  unfold Variables._get_checked_value.
  destruct (dict_get (Variables._values self) iter_name) as [iter_value|] eqn:Hv;
    [|discriminate].
  destruct fi, (Value._resolved iter_value) as [s|] eqn:Hs; try apply IH.
  intros H; inversion H; subst. eauto.
Qed.

Lemma while_step_return set_iter fuel self provenance :
  forall step deps first_iteration n v,
    Variables.while_step set_iter fuel self provenance step deps first_iteration
    = Variables.Return n v ->
    dict_get (Variables._values self) n = Some v /\ exists s, Value._resolved v = Some s.
Proof.
  induction fuel as [|fuel IH]; intros step deps fi n v; simpl; [discriminate|].
  destruct step as [|this_step step']; [discriminate|].
  destruct (ResolutionStep.check_circular this_step (Variables._values self)); [|discriminate].
  destruct (Variables.for_varnames self provenance this_step _ step' deps fi)
    as [s' d' f'|n' v'|e] eqn:Hfor.
  - apply IH.
  - intros H; inversion H; subst. eapply for_varnames_return; eauto.
  - discriminate.
Qed.

(** Whatever it ends with, a call of [_resolve] keeps the keys, the
    templates and the memos that are set. *)
Lemma resolve_extends set_iter self name provenance :
  extends self (snd (Variables._resolve set_iter self name provenance)).
Proof.
  unfold Variables._resolve.
  destruct (Variables.while_step set_iter _ self provenance _ [] true)
    as [s' deps f'|n v|e] eqn:Hloop.
  - apply while_deps_kept.
  - destruct (while_step_return _ _ _ _ _ _ _ _ _ Hloop) as (Hv & s & Hs).
    rewrite (resolve_resolved _ _ _ Hs). simpl.
    rewrite (dict_set_same _ _ _ Hv), mk_values. apply extends_refl.
  - apply extends_refl.
Qed.

(** More fuel does not change what the first loop ends with. *)
Lemma while_step_more_fuel set_iter fuel self provenance :
  forall step deps first_iteration fuel',
    Variables.while_step set_iter fuel self provenance step deps first_iteration
    <> Variables.Throw OutOfFuel ->
    fuel <= fuel' ->
    Variables.while_step set_iter fuel' self provenance step deps first_iteration
    = Variables.while_step set_iter fuel self provenance step deps first_iteration.
Proof.
  induction fuel as [|fuel IH]; intros step deps fi fuel' Hne Hle; simpl in *; [congruence|].
  destruct fuel' as [|fuel']; [lia|]. simpl.
  destruct step as [|this_step step']; [reflexivity|].
  destruct (ResolutionStep.check_circular this_step (Variables._values self)); [|reflexivity].
  destruct (Variables.for_varnames self provenance this_step _ step' deps fi); try reflexivity.
  apply IH; [assumption | lia].
Qed.

Section Resolve.

Variable set_iter : list string -> list string.
Variable self : Variables.t.
Variable name : string.
Variable provenance : option ProvenanceInformation.

Hypothesis Hiter : set_iter_ok set_iter.
Hypothesis Hclasses : classes_ok (Variables._values self).

Local Notation values := (Variables._values self).
Local Notation top := (ResolutionStep.init None [name] None).

(** The first loop from the initial state of [_resolve]. *)
Lemma first_loop_spec :
  match Variables.while_step set_iter (Variables.resolve_fuel set_iter self name)
          self provenance [top] [] true with
  | Variables.Return n v =>
      n = name /\ dict_get values name = Some v /\ exists s, Value._resolved v = Some s
  | other => first_loop_post values name other
  end.
Proof.
  unfold Variables.resolve_fuel.
  set (b := Variables.max_names set_iter self name).
  cbn [Variables.while_step].
  change (ResolutionStep.check_circular top values) with (@Ok unit tt).
  change (ResolutionStep.varnames top) with [name].
  rewrite (set_iter_singleton set_iter Hiter name).
  cbn [Variables.for_varnames]. unfold Variables._get_checked_value.
  change (ResolutionStep.referee top) with (@None string).
  destruct (dict_get values name) as [v|] eqn:Hv.
  - destruct (Value._resolved v) as [s|] eqn:Hs; [eauto|].
    unfold Value.dependencies. rewrite Hs.
    set (vn := ValueClass.variable_names (Value._value_class v)).
    set (child := ResolutionStep.init (Some name) vn (Some top)).
    set (step1 := match vn with [] => [] | _ :: _ => [child] end).
    assert (Hpost : first_loop_post values name
              (Variables.while_step set_iter (Variables.budget b (S (length values)))
                 self provenance step1 [name] false)).
    { assert (Hchild : step_ok values name child).
      { apply step_ok_child; auto; [constructor | now left]. }
      apply (while_step_spec set_iter self name provenance Hiter Hclasses).
      - unfold step1. destruct vn; auto.
      - split; [|exact I]. exists v. split; [assumption|]. intros x Hx.
        right. right. apply (class_ok_names _ x (Hclasses _ _ Hv)) in Hx. fold vn in Hx.
        exists child. unfold step1. destruct vn as [|y vn']; [destruct Hx|].
        simpl. auto.
      - now exists [].
      - fold b. unfold step1. destruct vn as [|y vn'].
        + pose proof (budget_pos b (S (length values))). simpl stack_weight. unfold stack_weight. simpl. lia.
        + unfold stack_weight, weight. simpl.
          replace (length values - 0) with (length values) by lia.
          pose proof (budget_pos b (length values)).
          pose proof (max_names_name set_iter self name) as Hb. fold b in Hb.
          rewrite (set_iter_length set_iter Hiter) in Hb. simpl in Hb.
          assert (Variables.budget b (length values) <= b * Variables.budget b (length values)).
          { destruct b; [lia|]. simpl. lia. }
          lia. }
    destruct (Variables.while_step set_iter _ self provenance step1 [name] false); auto.
    destruct Hpost.
  - simpl. left. do 2 eexists. exists name. split; [reflexivity|].
    split; [constructor|]. unfold defined. rewrite Hv. auto.
Qed.

(** The fuel of [_resolve] is enough: the first loop ends by itself. *)
Lemma first_loop_fuel :
  Variables.while_step set_iter (Variables.resolve_fuel set_iter self name)
    self provenance [top] [] true <> Variables.Throw OutOfFuel.
Proof.
  pose proof first_loop_spec as H.
  destruct (Variables.while_step set_iter _ self provenance [top] [] true) as [s d f|n v|e];
    try discriminate.
  simpl in H. intros E. inversion E; subst.
  destruct H as [(m & d & x & He & _)|(m & d & He & _)]; discriminate.
Qed.

Lemma resolve_spec :
  resolve_post self name (Variables._resolve set_iter self name provenance).
Proof.
  unfold Variables._resolve. pose proof first_loop_spec as H.
  destruct (Variables.while_step set_iter _ self provenance [top] [] true)
    as [step deps fi|n v|e].
  - destruct H as (-> & -> & Hq & l & ->).
    destruct (while_deps_spec _ self None Hq) as (r & self' & Hw & Hmemo & _ & Hlast).
    rewrite Hw. destruct (l ++ [name])%list as [|d ds] eqn:E.
    + now destruct l.
    + destruct Hlast as (s & -> & Hs). rewrite <- E, last_last in Hs. simpl. auto.
  - destruct H as (-> & Hv & s & Hs).
    rewrite (resolve_resolved _ _ _ Hs). simpl.
    rewrite (dict_set_same _ _ _ Hv), mk_values.
    split; [|auto]. unfold memo. now rewrite Hv.
  - simpl. auto.
Qed.

End Resolve.

(** ** The graph of references *)

Lemma same_classes_sym a b : same_classes a b -> same_classes b a.
Proof. intros H k. now rewrite H. Qed.

Lemma expand_parts_In f ps s y :
  expand_parts f ps = Some s -> In y (variable_parts ps) -> exists s', f y = Some s'.
Proof.
  revert s. induction ps as [|p ps IH]; intros s; simpl; [intros _ []|].
  rewrite variable_parts_cons.
  destruct (ValuePart.is_variable p).
  - destruct (f (ValuePart.text p)) as [a|] eqn:Ea; [|discriminate].
    destruct (expand_parts f ps) as [b|]; [|discriminate].
    intros _ [<-|Hy]; eauto.
  - destruct (expand_parts f ps) as [b|]; [|discriminate]. eauto.
Qed.

Lemma expansion_refers n values x y s :
  classes_ok values ->
  expansion (S n) values x = Some s -> refers values x y ->
  exists s', expansion n values y = Some s'.
Proof.
  intros Hc Hx (v & Hv & Hy). simpl in Hx. rewrite Hv in Hx.
  apply (class_ok_names _ y (Hc _ _ Hv)) in Hy.
  eapply expand_parts_In; eauto.
Qed.

Lemma expansion_reaches values x y :
  classes_ok values -> reaches values x y ->
  forall n s, expansion n values x = Some s ->
              exists m s', m <= n /\ expansion m values y = Some s'.
Proof.
  intros Hc. induction 1 as [x|x y z Hxy IH Hyz]; intros n s Hn.
  - exists n, s. auto.
  - destruct (IH n s Hn) as (m & s' & Hm & Hy).
    destruct m as [|m]; [discriminate|].
    destruct (expansion_refers _ _ _ _ _ Hc Hy Hyz) as (s'' & Hz).
    exists m, s''. split; [lia | assumption].
Qed.

Lemma expansion_no_cycle values :
  classes_ok values ->
  forall n x s, expansion n values x = Some s -> ~ on_cycle values x.
Proof.
  intros Hc n. induction n as [n IH] using lt_wf_ind. intros x s Hx (y & Hxy & Hyx).
  destruct n as [|n]; [discriminate|].
  destruct (expansion_refers _ _ _ _ _ Hc Hx Hxy) as (s' & Hy).
  destruct (expansion_reaches _ _ _ Hc Hyx _ _ Hy) as (m & s'' & Hm & Hx').
  apply (IH m ltac:(lia) x s'' Hx'). exists y. auto.
Qed.

(** A name with an expansion has all its references defined and none of
    them circular. *)
Lemma expands_graph values name s :
  classes_ok values -> expands_to values name s ->
  all_defined_from values name /\ ~ circular_from values name.
Proof.
  intros Hc [n Hn]. split.
  - intros x Hx. destruct (expansion_reaches _ _ _ Hc Hx _ _ Hn) as (m & s' & _ & Hm).
    destruct m as [|m]; [discriminate|]. simpl in Hm. unfold defined.
    destruct (dict_get values x); [discriminate | discriminate].
  - intros (x & Hx & Hcyc).
    destruct (expansion_reaches _ _ _ Hc Hx _ _ Hn) as (m & s' & _ & Hm).
    exact (expansion_no_cycle _ Hc _ _ _ Hm Hcyc).
Qed.

Lemma existsb_dict_mem {A} (d : dict A) k : dict_mem d k = true <-> dict_get d k <> None.
Proof. unfold dict_mem. destruct (dict_get d k); split; congruence. Qed.

(** A closed table defines whatever a defined name reaches. *)
Lemma closed_table_defined values name :
  closed_table values = true -> dict_mem values name = true ->
  all_defined_from values name.
Proof.
  intros Hclosed Hname x Hx. induction Hx as [|y z w Hyz IH Hzw].
  - now apply existsb_dict_mem.
  - destruct Hzw as (v & Hv & Hw). unfold closed_table in Hclosed.
    rewrite forallb_forall in Hclosed. specialize (Hclosed _ (dict_get_In _ _ _ Hv)).
    simpl in Hclosed. rewrite forallb_forall in Hclosed.
    apply existsb_dict_mem. auto.
Qed.

(** The fully expanded value of a name is the concatenation, in order, of
    what the parts of its template stand for. *)
Lemma expand_parts_pieces values n ps s :
  expand_parts (expansion n values) ps = Some s ->
  exists strs, Forall2 (part_expands values) ps strs /\ s = join strs.
Proof.
  revert s. induction ps as [|p ps IH]; intros s; simpl.
  - intros H; inversion H. exists []. split; [constructor | reflexivity].
  - destruct (ValuePart.is_variable p) eqn:Ep.
    + destruct (expansion n values (ValuePart.text p)) as [a|] eqn:Ea; [|discriminate].
      destruct (expand_parts (expansion n values) ps) as [b|]; [|discriminate].
      intros H; inversion H; subst. destruct (IH b eq_refl) as (strs & Hstrs & ->).
      exists (a :: strs). split; [|now rewrite join_cons].
      constructor; [|assumption]. unfold part_expands. rewrite Ep. now exists n.
    + destruct (expand_parts (expansion n values) ps) as [b|]; [|discriminate].
      intros H; inversion H; subst. destruct (IH b eq_refl) as (strs & Hstrs & ->).
      exists (ValuePart.text p :: strs). split; [|now rewrite join_cons].
      constructor; [|assumption]. unfold part_expands. now rewrite Ep.
Qed.

Lemma expands_to_pieces values name s :
  expands_to values name s ->
  exists v strs,
    dict_get values name = Some v
    /\ Forall2 (part_expands values) (ValueClass.parts (Value._value_class v)) strs
    /\ s = join strs.
Proof.
  intros [[|n] Hn]; [discriminate|]. simpl in Hn.
  destruct (dict_get values name) as [v|]; [|discriminate].
  destruct (expand_parts_pieces _ _ _ _ Hn) as (strs & H1 & H2). eauto.
Qed.

(** ** Successful and circular calls *)

Section ResolveCore.

Variable set_iter : list string -> list string.
Variable self : Variables.t.
Variable name : string.
Variable provenance : option ProvenanceInformation.

Hypothesis Hiter : set_iter_ok set_iter.
Hypothesis Hstore : store_ok self.

Lemma resolve_ok_core :
  all_defined_from (Variables._values self) name ->
  ~ circular_from (Variables._values self) name ->
  exists s self',
    Variables._resolve set_iter self name provenance = (Ok (Some s), self')
    /\ expands_to (Variables._values self) name s
    /\ memo self' name = Some s
    /\ store_ok self' /\ extends self self'.
Proof.
  intros Hdef Hacyc. destruct Hstore as [Hc Hm].
  pose proof (resolve_spec set_iter self name provenance Hiter Hc) as Hpost.
  pose proof (resolve_extends set_iter self name provenance) as Hext.
  destruct (Variables._resolve set_iter self name provenance) as [[[s|]|e] self'];
    simpl in *.
  - destruct Hpost as [Hs Hmemo]. exists s, self'.
    destruct Hext as (Hsame & Hkept & Hkeys).
    assert (Hc' : classes_ok (Variables._values self'))
      by (eapply same_classes_classes_ok; eauto).
    repeat split; auto.
    apply (expands_to_ext (Variables._values self')); [now apply same_classes_sym|].
    unfold memo in Hs. destruct (dict_get (Variables._values self') name) as [v|] eqn:Hv;
      [|discriminate].
    eapply Hmemo; eauto.
  - destruct Hpost.
  - destruct Hpost as [_ [(m & d & x & _ & Hx & Hu)|(m & d & _ & Hcirc)]].
    + elim Hu. now apply Hdef.
    + contradiction.
Qed.

Lemma resolve_circular_core :
  all_defined_from (Variables._values self) name ->
  circular_from (Variables._values self) name ->
  exists message detail,
    Variables._resolve set_iter self name provenance
    = (Raise (LoadError message CIRCULAR_REFERENCE_VARIABLE detail), self).
Proof.
  intros Hdef Hcirc. destruct Hstore as [Hc Hm].
  pose proof (resolve_spec set_iter self name provenance Hiter Hc) as Hpost.
  pose proof (resolve_extends set_iter self name provenance) as Hext.
  destruct (Variables._resolve set_iter self name provenance) as [[[s|]|e] self'];
    simpl in *.
  - destruct Hpost as [Hs Hmemo]. destruct Hext as (Hsame & _).
    assert (Hexp : expands_to (Variables._values self) name s).
    { apply (expands_to_ext (Variables._values self')); [now apply same_classes_sym|].
      unfold memo in Hs. destruct (dict_get (Variables._values self') name) as [v|] eqn:Hv;
        [|discriminate].
      eapply Hmemo; eauto. }
    destruct (expands_graph _ _ _ Hc Hexp) as [_ Hno]. contradiction.
  - destruct Hpost.
  - destruct Hpost as [-> [(m & d & x & _ & Hx & Hu)|(m & d & -> & _)]].
    + elim Hu. now apply Hdef.
    + eauto.
Qed.

End ResolveCore.

(** ** Templates without references *)

Lemma search_app_r a s : Regex.search s = true -> Regex.search (a ++ s) = true.
Proof.
  intros H. induction a as [|c a IH]; [assumption|].
  cbn [append Regex.search]. destruct (Regex.match_at (String c (a ++ s))); auto.
Qed.

Lemma search_match s name rest :
  Regex.match_at s = Some (name, rest) -> Regex.search s = true.
Proof.
  intros H. destruct s as [|c s]; [simpl in H; discriminate|].
  cbn [Regex.search]. now rewrite H.
Qed.

Lemma render_parts_search ps :
  Forall part_ok ps -> Regex.search (render_parts ps) = false ->
  variable_parts ps = [].
Proof.
  induction ps as [|p ps IH]; intros Hok Hs; [reflexivity|].
  inversion Hok as [|? ? [Hne Hp] Hps]; subst.
  rewrite render_parts_cons in Hs. rewrite variable_parts_cons.
  unfold render in Hs. destruct (ValuePart.is_variable p).
  - rewrite !append_assoc in Hs.
    rewrite (search_match _ _ _ (match_at_complete _ (render_parts ps) Hp)) in Hs.
    discriminate.
  - apply IH; [assumption|].
    destruct (Regex.search (render_parts ps)) eqn:E; [|reflexivity].
    now rewrite (search_app_r _ _ E) in Hs.
Qed.

Lemma expand_parts_literal f ps :
  variable_parts ps = [] -> expand_parts f ps = Some (render_parts ps).
Proof.
  induction ps as [|p ps IH]; [reflexivity|].
  rewrite variable_parts_cons, render_parts_cons. unfold render. simpl.
  destruct (ValuePart.is_variable p); [discriminate|].
  intros H. now rewrite (IH H).
Qed.

(** A template in which the pattern never matches has no variable part
    and expands to itself. *)
Lemma init_literal raw :
  Regex.search raw = false ->
  ValueClass.variable_names (ValueClass.init raw) = []
  /\ forall f, expand_parts f (ValueClass.parts (ValueClass.init raw)) = Some raw.
Proof.
  intros Hs. destruct (init_spec raw) as (Hr & Hok & _).
  assert (Hv : variable_parts (ValueClass.parts (ValueClass.init raw)) = []).
  { apply render_parts_search; [assumption | now rewrite Hr]. }
  split.
  - destruct (ValueClass.variable_names (ValueClass.init raw)) as [|x l] eqn:E; [reflexivity|].
    assert (Hx : In x (variable_parts (ValueClass.parts (ValueClass.init raw)))).
    { apply class_ok_names; [now exists raw | rewrite E; now left]. }
    rewrite Hv in Hx. destruct Hx.
  - intros f. now rewrite (expand_parts_literal f _ Hv), Hr.
Qed.

Lemma resolve_literal_core set_iter self name provenance v raw :
  set_iter_ok set_iter -> store_ok self ->
  dict_get (Variables._values self) name = Some v ->
  Value._value_class v = ValueClass.init raw ->
  Regex.search raw = false ->
  exists self',
    Variables._resolve set_iter self name provenance = (Ok (Some raw), self')
    /\ memo self' name = Some raw.
Proof.
  intros Hiter Hstore Hv Hclass Hs.
  destruct (init_literal raw Hs) as [Hnames Hexp].
  assert (Hraw : expands_to (Variables._values self) name raw).
  { exists 1. simpl. rewrite Hv, Hclass. apply Hexp. }
  destruct (expands_graph _ _ _ (proj1 Hstore) Hraw) as [Hdef Hacyc].
  destruct (resolve_ok_core set_iter self name provenance Hiter Hstore Hdef Hacyc)
    as (s & self' & Hr & [n Hn] & Hm & _).
  destruct Hraw as [n' Hn'].
  rewrite (expansion_unique _ _ _ _ _ _ Hn Hn') in *. eauto.
Qed.

(** ** Construction of the store *)

Lemma load_value_class_ok table s :
  table_ok table ->
  fst (Value._load_value_class table s) = ValueClass.init s
  /\ table_ok (snd (Value._load_value_class table s)).
Proof.
  intros Ht. unfold Value._load_value_class.
  destruct (dict_get table s) as [vc|] eqn:E; simpl.
  - split; [now apply Ht | assumption].
  - split; [reflexivity|]. intros k vc. rewrite dict_get_set.
    destruct (String.eqb_spec s k) as [<-|]; [|apply Ht].
    intros H; now inversion H.
Qed.

Lemma value_init_ok table node :
  table_ok table ->
  fst (Value.init table node) = value_of node /\ table_ok (snd (Value.init table node)).
Proof.
  intros Ht. unfold Value.init.
  pose proof (load_value_class_ok table (ScalarNode.as_str node) Ht) as [H1 H2].
  destruct (Value._load_value_class table (ScalarNode.as_str node)) as [vc table'].
  simpl in *. subst vc. auto.
Qed.

Lemma dict_get_not_In_keys {A} (d : dict A) k : ~ In k (dict_keys d) -> dict_get d k = None.
Proof.
  destruct (dict_get d k) eqn:E; [|reflexivity].
  intros H. elim H. eapply dict_get_In_keys; eauto.
Qed.

Lemma for_items_spec items : forall ret table,
  table_ok table -> NoDup (dict_keys items) ->
  table_ok (snd (Variables.for_items items ret table))
  /\ forall k, dict_get (fst (Variables.for_items items ret table)) k
               = match dict_get items k with
                 | Some node => Some (value_of node)
                 | None => dict_get ret k
                 end.
Proof.
  induction items as [|[key node] items IH]; intros ret table Ht Hnd; simpl.
  - auto.
  - inversion Hnd as [|? ? Hnotin Hnd']; subst.
    pose proof (value_init_ok table node Ht) as [Hv Ht'].
    destruct (Value.init table node) as [value table']. simpl in Hv, Ht'. subst value.
    destruct (IH (dict_set ret key (value_of node)) table' Ht' Hnd') as [Ht'' Hget].
    split; [assumption|]. intros k. rewrite Hget.
    destruct (String.eqb_spec key k) as [<-|Hne].
    + rewrite (dict_get_not_In_keys _ _ Hnotin). apply dict_get_set_eq.
    + destruct (dict_get items k); [reflexivity | now apply dict_get_set_neq].
Qed.

Lemma init_values_spec table node :
  table_ok table -> NoDup (dict_keys node) ->
  let out := Variables._init_values table node in
  table_ok (snd out)
  /\ (forall k, dict_get (fst out) k = option_map value_of (dict_get node k))
  /\ store_ok (Variables.mk (fst out)) /\ fresh (fst out).
Proof.
  intros Ht Hnd. unfold Variables._init_values.
  destruct (for_items_spec node [] table Ht Hnd) as [Ht' Hget].
  assert (Hget' : forall k, dict_get (fst (Variables.for_items node [] table)) k
                            = option_map value_of (dict_get node k)).
  { intros k. rewrite Hget. now destruct (dict_get node k). }
  assert (Hfresh : fresh (fst (Variables.for_items node [] table))).
  { intros k v Hv. rewrite Hget' in Hv. destruct (dict_get node k); inversion Hv. reflexivity. }
  repeat split; auto.
  - intros k v Hv. simpl in Hv. rewrite Hget' in Hv.
    destruct (dict_get node k) as [n|]; inversion Hv. now exists (ScalarNode.value n).
  - intros k v s Hv Hs. simpl in Hv. rewrite (Hfresh _ _ Hv) in Hs. discriminate.
Qed.

Lemma dict_set_keys_NoDup {A} (d : dict A) k a :
  NoDup (dict_keys d) -> NoDup (dict_keys (dict_set d k a)).
Proof.
  destruct (dict_get d k) as [b|] eqn:E.
  - now rewrite (dict_keys_set_present _ _ a _ E).
  - intros Hnd. assert (Hk : ~ In k (dict_keys d)).
    { clear Hnd. induction d as [|[k0 c] d IH]; simpl in *; [tauto|].
      destruct (String.eqb_spec k0 k); [discriminate|]. intros [?|?]; [contradiction|].
      now apply IH. }
    assert (Hkeys : dict_keys (dict_set d k a) = (dict_keys d ++ [k])%list).
    { clear Hnd Hk. induction d as [|[k0 c] d IH]; simpl in *; [reflexivity|].
      destruct (String.eqb_spec k0 k); [discriminate|]. simpl. now rewrite IH. }
    rewrite Hkeys. apply NoDup_app; [assumption | repeat constructor; simpl; tauto |].
    intros x Hx [<-|[]]. contradiction.
Qed.

(** A store made by [__init__] is well formed, and so is the table of
    value classes it leaves. *)
Lemma init_store_ok get_bool table node self node' table' :
  table_ok table -> NoDup (dict_keys node) ->
  Variables.__init__ get_bool table node = (Ok self, node', table') ->
  store_ok self /\ fresh (Variables._values self) /\ table_ok table'.
Proof.
  intros Ht Hnd. unfold Variables.__init__.
  destruct (get_bool node "notparallel" false) as [notparallel|e]; [|discriminate].
  set (node1 := if notparallel then Variables.MappingNode_setitem node "max-jobs" "1" else node).
  assert (Hnd1 : NoDup (dict_keys node1)).
  { unfold node1. destruct notparallel; [now apply dict_set_keys_NoDup | assumption]. }
  destruct (init_values_spec table node1 Ht Hnd1) as (Ht1 & _ & Hs & Hf).
  destruct (Variables._init_values table node1) as [values table1].
  intros H; inversion H; subst. simpl in *. auto.
Qed.

(** ** The operations of a store *)

Lemma memo_kept self self' k s :
  extends self self' -> memo self k = Some s -> memo self' k = Some s.
Proof.
  intros (_ & Hkept & _). unfold memo.
  destruct (dict_get (Variables._values self) k) as [v|] eqn:Hv; [|discriminate].
  intros Hs. destruct (Hkept _ _ _ Hv Hs) as (v' & -> & Hs'). assumption.
Qed.

Lemma memo_resolved self k s : memo self k = Some s -> resolved (Variables._values self) k.
Proof.
  unfold memo. destruct (dict_get (Variables._values self) k) as [v|] eqn:Hv; [|discriminate].
  intros Hs. exists v, s. auto.
Qed.

(** A name whose memo is set resolves to that memo, and the store is left
    as it is. *)
Lemma resolve_memo_hit set_iter self name provenance s :
  set_iter_ok set_iter -> memo self name = Some s ->
  Variables._resolve set_iter self name provenance = (Ok (Some s), self).
Proof.
  intros Hiter. unfold memo.
  destruct (dict_get (Variables._values self) name) as [v|] eqn:Hv; [|discriminate].
  intros Hs. unfold Variables._resolve, Variables.resolve_fuel.
  cbn [Variables.while_step].
  change (ResolutionStep.check_circular (ResolutionStep.init None [name] None)
            (Variables._values self)) with (@Ok unit tt).
  change (ResolutionStep.varnames (ResolutionStep.init None [name] None)) with [name].
  rewrite (set_iter_singleton set_iter Hiter name).
  cbn [Variables.for_varnames]. unfold Variables._get_checked_value.
  rewrite Hv, Hs, (resolve_resolved _ _ _ Hs). simpl.
  now rewrite (dict_set_same _ _ _ Hv), mk_values.
Qed.

Lemma resolve_store_ok set_iter self name provenance :
  set_iter_ok set_iter -> store_ok self ->
  store_ok (snd (Variables._resolve set_iter self name provenance)).
Proof.
  intros Hiter [Hc Hm].
  pose proof (resolve_spec set_iter self name provenance Hiter Hc) as Hpost.
  pose proof (resolve_extends set_iter self name provenance) as (Hsame & _).
  destruct (Variables._resolve set_iter self name provenance) as [[[s|]|e] self'];
    simpl in *.
  - split; [eapply same_classes_classes_ok; eauto | now apply Hpost].
  - destruct Hpost.
  - destruct Hpost as [-> _]. now split.
Qed.

Lemma resolve_ok_memo set_iter self name provenance r self' :
  set_iter_ok set_iter -> store_ok self ->
  Variables._resolve set_iter self name provenance = (Ok r, self') ->
  exists s, r = Some s /\ memo self' name = Some s.
Proof.
  intros Hiter [Hc Hm] E.
  pose proof (resolve_spec set_iter self name provenance Hiter Hc) as Hpost.
  rewrite E in Hpost. destruct r as [s|]; simpl in Hpost; [|destruct Hpost].
  exists s. tauto.
Qed.

Lemma get_store set_iter self name :
  snd (Variables.get set_iter self name)
  = snd (Variables._resolve set_iter self name None).
Proof.
  unfold Variables.get.
  destruct (Variables._resolve set_iter self name None) as [[r|[m reason d| | | | |]] self'];
    try reflexivity.
  now destruct (LoadErrorReason_eqb reason UNRESOLVED_VARIABLE).
Qed.

Lemma for_dependencies_spec set_iter provenance names : forall self,
  let out := Variables.for_dependencies set_iter names self provenance in
  extends self (snd out)
  /\ (set_iter_ok set_iter -> store_ok self ->
      store_ok (snd out)
      /\ (fst out = Ok tt ->
          forall x, In x names -> resolved (Variables._values (snd out)) x)).
Proof.
  induction names as [|dep_name names IH]; intros self; simpl.
  - split; [apply extends_refl|]. intros _ Hs. split; [assumption|]. intros _ x [].
  - pose proof (resolve_extends set_iter self dep_name provenance) as Hext.
    pose proof (resolve_store_ok set_iter self dep_name provenance) as Hok.
    pose proof (resolve_ok_memo set_iter self dep_name provenance) as Hmemo.
    destruct (Variables._resolve set_iter self dep_name provenance) as [[r|e] self1];
      simpl in *.
    + destruct (IH self1) as [Hext' Hrest]. split; [eapply extends_trans; eauto|].
      intros Hiter Hs. destruct (Hrest Hiter (Hok Hiter Hs)) as [Hs' Hall].
      split; [assumption|]. intros Hr x [<-|Hx]; [|auto].
      destruct (Hmemo r self1 Hiter Hs eq_refl) as (s & _ & Hm).
      apply (memo_resolved _ _ s). eapply memo_kept; eauto.
    + split; [assumption|]. intros Hiter Hs. split; [auto|discriminate].
Qed.

(** [subst] keeps what the store holds; in a well-formed store what it
    returns is the substitution of the text of the node. *)
Lemma subst_spec set_iter self table node :
  let out := Variables.subst set_iter self table node in
  extends self (snd (fst out))
  /\ (set_iter_ok set_iter -> store_ok self -> table_ok table ->
      store_ok (snd (fst out)) /\ table_ok (snd out)
      /\ forall s, fst (fst out) = Ok s ->
                   substitutes_to (Variables._values self) (ScalarNode.value node) s).
Proof.
  unfold Variables.subst.
  pose proof (value_init_ok table node) as Hinit.
  destruct (Value.init table node) as [value table'].
  pose proof (for_dependencies_spec set_iter (Some (ScalarNode.get_provenance node))
                (set_iter (Value.dependencies value)) self) as [Hext Hdeps].
  destruct (Variables.for_dependencies set_iter _ self _) as [[[]|e] self'];
    simpl in *; (split; [assumption|]); intros Hiter Hs Ht;
    destruct (Hinit Ht) as [-> Ht']; destruct (Hdeps Hiter Hs) as [Hs' Hall];
    (split; [assumption|]); (split; [assumption|]); [|discriminate].
  intros s Hr. specialize (Hall eq_refl).
  unfold Value.resolve in Hr. simpl in Hr.
  destruct (Value.collect_parts (Variables._values self') _) as [l|] eqn:El;
    [|discriminate].
  destruct (Value.str_join l) as [s'|] eqn:Ej; simpl in Hr; [|discriminate].
  inversion Hr; subst s'.
  destruct (collect_parts_expansion _ _ _ _ (proj2 Hs') El Ej) as [n Hn].
  exists n. rewrite <- Hn. apply expand_parts_ext. intros x.
  apply expansion_ext. apply Hext.
Qed.

Lemma for_keys_extends set_iter keys : forall self,
  extends self (snd (Variables.for_keys set_iter keys self)).
Proof.
  induction keys as [|key keys IH]; intros self; simpl; [apply extends_refl|].
  pose proof (resolve_extends set_iter self key None) as Hext.
  destruct (Variables._resolve set_iter self key None) as [[r|e] self1]; simpl in *.
  - eapply extends_trans; eauto.
  - assumption.
Qed.

Lemma for_keys_store_ok set_iter keys : forall self,
  set_iter_ok set_iter -> store_ok self ->
  store_ok (snd (Variables.for_keys set_iter keys self)).
Proof.
  induction keys as [|key keys IH]; intros self Hiter Hs; simpl; [assumption|].
  pose proof (resolve_store_ok set_iter self key None Hiter Hs) as Hok.
  destruct (Variables._resolve set_iter self key None) as [[r|e] self1]; simpl in *; auto.
Qed.

Lemma next_extends set_iter iterator self :
  extends self (snd (ValueIterator.__next__ set_iter iterator self)).
Proof.
  unfold ValueIterator.__next__, Variables.__getitem__.
  destruct (ValueIterator._iter iterator) as [|name rest]; [apply extends_refl|].
  pose proof (resolve_extends set_iter self name None) as Hext.
  destruct (Variables._resolve set_iter self name None) as [[r|e] self1]; exact Hext.
Qed.

(** ** Expansion of a document tree *)

Lemma substituted_ext a b old new :
  same_classes a b -> substituted a old new -> substituted b old new.
Proof.
  intros Hsame [[n Hn] Hp]. split; [|assumption]. exists n. rewrite <- Hn.
  apply expand_parts_ext. intros x. symmetry. now apply expansion_ext.
Qed.

Lemma for_each_post {A B : Type} set_iter (lv : A -> list ScalarNode.t) (sk : A -> B)
    (body : Variables.t * dict ValueClass.t -> A
            -> result unit * A * (Variables.t * dict ValueClass.t)) xs :
  Forall (fun x => forall state, expand_post set_iter lv sk state x (body state x)) xs ->
  forall state,
    expand_post set_iter (flat_map lv) (map sk) state xs (for_each body state xs).
Proof.
  induction 1 as [|x xs Hx Hxs IH]; intros state.
  - unfold expand_post. simpl. split; [apply extends_refl|]. split; [reflexivity|].
    intros _ Hs Ht. split; [assumption|]. split; [assumption|]. intros _. constructor.
  - simpl. specialize (Hx state).
    destruct (body state x) as [[[[]|e] x'] state1]; unfold expand_post in *; simpl in *.
    + specialize (IH state1).
      destruct (for_each body state1 xs) as [[r xs'] state2]; simpl in *.
      destruct Hx as (Hext & Hsk & Hx). destruct IH as (Hext' & Hsk' & Hxs').
      split; [eapply extends_trans; eauto|]. split; [congruence|].
      intros Hiter Hs Ht. destruct (Hx Hiter Hs Ht) as (Hs1 & Ht1 & Hl).
      destruct (Hxs' Hiter Hs1 Ht1) as (Hs2 & Ht2 & Hl').
      split; [assumption|]. split; [assumption|].
      intros Hr. apply Forall2_app; [auto|].
      eapply Forall2_impl; [|exact (Hl' Hr)].
      intros old new. apply substituted_ext, same_classes_sym, Hext.
    + destruct Hx as (Hext & Hsk & Hx).
      split; [assumption|]. split; [congruence|].
      intros Hiter Hs Ht. destruct (Hx Hiter Hs Ht) as (Hs1 & Ht1 & _).
      split; [assumption|]. split; [assumption|]. discriminate.
Qed.

(** [_expand] keeps the store and the skeleton of the tree; in a
    well-formed store a successful call leaves in each scalar the
    substitution of its text. *)
Lemma expand_spec set_iter node :
  forall state,
    expand_post set_iter leaves skeleton state node (Variables._expand set_iter state node).
Proof.
  induction node as [n|value IH|value IH] using Node_ind'; intros [self table].
  - cbn [Variables._expand fst snd].
    pose proof (subst_spec set_iter self table n) as [Hext Hsub].
    destruct (Variables.subst set_iter self table n) as [[[s|e] self'] table'];
      unfold expand_post; simpl in *; (split; [assumption|]); (split; [reflexivity|]);
      intros Hiter Hs Ht; destruct (Hsub Hiter Hs Ht) as (Hs' & Ht' & Hr);
      (split; [assumption|]); (split; [assumption|]); [|discriminate].
    intros _. constructor; [|constructor]. split; [|reflexivity]. simpl. now apply Hr.
  - cbn [Variables._expand].
    pose proof (for_each_post set_iter leaves skeleton (Variables._expand set_iter)
                  value IH (self, table)) as H.
    destruct (for_each (Variables._expand set_iter) (self, table) value)
      as [[r value'] state']. unfold expand_post in *. simpl in *.
    destruct H as (Hext & Hsk & H). split; [assumption|]. split; [now rewrite Hsk|].
    exact H.
  - cbn [Variables._expand].
    set (body := fun st (kv : string * Node) =>
                   match Variables._expand set_iter st (snd kv) with
                   | (r, entry', st') => (r, (fst kv, entry'), st')
                   end).
    assert (Hbody : Forall (fun kv => forall state,
                       expand_post set_iter (fun kv => leaves (snd kv))
                         (fun kv => (fst kv, skeleton (snd kv))) state kv (body state kv)) value).
    { eapply Forall_impl; [|exact IH]. intros [key entry] Hentry state. unfold body.
      specialize (Hentry state). simpl in *.
      destruct (Variables._expand set_iter state entry) as [[r entry'] state'].
      unfold expand_post in *. simpl in *.
      destruct Hentry as (Hext & Hsk & H). split; [assumption|]. split; [now rewrite Hsk|].
      exact H. }
    pose proof (for_each_post set_iter _ _ body value Hbody (self, table)) as H.
    fold body. destruct (for_each body (self, table) value) as [[r value'] state'].
    unfold expand_post in *. simpl in *.
    destruct H as (Hext & Hsk & H). split; [assumption|]. split; [now rewrite Hsk|].
    exact H.
Qed.

(** Every operation keeps the keys, the templates and the memos that are
    set. *)
Lemma run_extends set_iter op self table :
  extends self (fst (run set_iter op (self, table))).
Proof.
  destruct op as [name|name|node|node| |iterator]; simpl.
  - apply resolve_extends.
  - rewrite get_store. apply resolve_extends.
  - pose proof (subst_spec set_iter self table node) as [H _].
    now destruct (Variables.subst set_iter self table node) as [[r self'] table'].
  - pose proof (expand_spec set_iter node (self, table)) as [H _].
    unfold Variables.expand.
    now destruct (Variables._expand set_iter (self, table) node) as [[r node'] [self' table']].
  - apply for_keys_extends.
  - pose proof (next_extends set_iter iterator self) as H.
    now destruct (ValueIterator.__next__ set_iter iterator self) as [[r it'] self'].
Qed.

Lemma run_all_extends set_iter ops : forall self table,
  extends self (fst (run_all set_iter ops (self, table))).
Proof.
  unfold run_all. induction ops as [|op ops IH]; intros self table.
  - apply extends_refl.
  - cbn [fold_left]. pose proof (run_extends set_iter op self table) as H.
    destruct (run set_iter op (self, table)) as [self1 table1].
    eapply extends_trans; [exact H | apply IH].
Qed.

(** Every operation keeps a store and the table of value classes well
    formed. *)
Lemma run_store_ok set_iter op self table :
  set_iter_ok set_iter -> store_ok self -> table_ok table ->
  store_ok (fst (run set_iter op (self, table)))
  /\ table_ok (snd (run set_iter op (self, table))).
Proof.
  intros Hiter Hs Ht. destruct op as [name|name|node|node| |iterator]; simpl.
  - split; [now apply resolve_store_ok | assumption].
  - rewrite get_store. split; [now apply resolve_store_ok | assumption].
  - pose proof (subst_spec set_iter self table node) as [_ H].
    destruct (H Hiter Hs Ht) as (Hs' & Ht' & _).
    now destruct (Variables.subst set_iter self table node) as [[r self'] table'].
  - pose proof (expand_spec set_iter node (self, table)) as (_ & _ & H).
    destruct (H Hiter Hs Ht) as (Hs' & Ht' & _). unfold Variables.expand.
    now destruct (Variables._expand set_iter (self, table) node) as [[r node'] [self' table']].
  - split; [now apply for_keys_store_ok | assumption].
  - unfold ValueIterator.__next__, Variables.__getitem__.
    destruct (ValueIterator._iter iterator) as [|name rest]; [now split|].
    pose proof (resolve_store_ok set_iter self name None Hiter Hs) as Hok.
    destruct (Variables._resolve set_iter self name None) as [[r|e] self1]; now split.
Qed.

Lemma run_all_store_ok set_iter ops : forall self table,
  set_iter_ok set_iter -> store_ok self -> table_ok table ->
  store_ok (fst (run_all set_iter ops (self, table)))
  /\ table_ok (snd (run_all set_iter ops (self, table))).
Proof.
  unfold run_all. induction ops as [|op ops IH]; intros self table Hiter Hs Ht.
  - now split.
  - cbn [fold_left]. destruct (run_store_ok set_iter op self table Hiter Hs Ht) as [Hs1 Ht1].
    destruct (run set_iter op (self, table)) as [self1 table1]. now apply IH.
Qed.

(* ================================================================= *)
(** * The properties of the engine *)

Lemma in_order_ok : set_iter_ok in_order.
Proof. intros l. apply Permutation_refl. Qed.

Lemma table_ok_empty : table_ok [].
Proof. intros s vc H. discriminate. Qed.

Lemma store_of_ok node :
  NoDup (dict_keys node) -> store_ok (store_of node) /\ fresh (Variables._values (store_of node)).
Proof.
  intros Hnd. destruct (init_values_spec [] node table_ok_empty Hnd) as (_ & _ & Hs & Hf).
  split; assumption.
Qed.

Ltac solve_NoDup :=
  repeat constructor; simpl; intuition discriminate.

(** ** get *)

(** [get] never lets a [LoadError] out: whatever its reason, the call
    returns [None]. *)
Lemma get_catches_LoadError set_iter self name reason :
  raised_reason (fst (Variables._resolve set_iter self name None)) = Some reason ->
  fst (Variables.get set_iter self name) = Ok None.
Proof.
  unfold Variables.get.
  destruct (Variables._resolve set_iter self name None) as [[r|[m reason' d| | | | |]] self'];
    simpl; try discriminate.
  intros _. now destruct (LoadErrorReason_eqb reason' UNRESOLVED_VARIABLE).
Qed.

(** C1: on the store [a = "%{a}"] the resolution of [a] raises the
    circular-reference error, and [get("a")] returns [None] instead of
    letting that error out. *)
Theorem get_swallows_circular_reference :
  raised_reason (fst (Variables._resolve in_order self_reference "a" None))
  = Some CIRCULAR_REFERENCE_VARIABLE
  /\ fst (Variables.get in_order self_reference "a") = Ok None.
Proof. split; reflexivity. Qed.

(** ** Lookup *)

(** C2: in a well-formed store where every name that the chain of
    references from [name] comes across is defined and none lies on a
    cycle, the lookup of [name] returns a string.  That string is the
    fully expanded value of [name]: the concatenation, in order, of the
    text of each literal part of its template and of the fully expanded
    value of the variable each variable part refers to. *)
Theorem lookup_expands set_iter self name :
  set_iter_ok set_iter -> store_ok self ->
  all_defined_from (Variables._values self) name ->
  ~ circular_from (Variables._values self) name ->
  exists s v strs,
    fst (Variables.__getitem__ set_iter self name) = Ok (Some s)
    /\ expands_to (Variables._values self) name s
    /\ dict_get (Variables._values self) name = Some v
    /\ Forall2 (part_expands (Variables._values self))
         (ValueClass.parts (Value._value_class v)) strs
    /\ s = join strs.
Proof.
  intros Hiter Hstore Hdef Hacyc. unfold Variables.__getitem__.
  destruct (resolve_ok_core set_iter self name None Hiter Hstore Hdef Hacyc)
    as (s & self' & Hr & Hexp & _).
  destruct (expands_to_pieces _ _ _ Hexp) as (v & strs & Hv & Hstrs & Hs).
  exists s, v, strs. rewrite Hr. auto.
Qed.

(** With [base = "hello"] and [greet = "%{base} world"], the lookup of
    [greet] returns ["hello world"]. *)
Lemma lookup_expands_witness :
  fst (Variables.__getitem__ in_order greeting "greet") = Ok (Some "hello world").
Proof.
  assert (Hstore : store_ok greeting) by (apply store_of_ok; solve_NoDup).
  assert (Hexp : expands_to (Variables._values greeting) "greet" "hello world")
    by (exists 2; reflexivity).
  destruct (expands_graph _ _ _ (proj1 Hstore) Hexp) as [Hdef Hacyc].
  destruct (lookup_expands in_order greeting "greet" in_order_ok Hstore Hdef Hacyc)
    as (s & v & strs & Hs & [n Hn] & _).
  destruct Hexp as [m Hm].
  rewrite Hs. now rewrite (expansion_unique _ _ _ _ _ _ Hn Hm).
Defined.

(** ** Circular references *)

(** C3, as stated, fails: on the store [a = "%{a}%{missing}"] the chain of
    references from [a] revisits [a], yet the resolution of [a] raises the
    undefined-variable error for [missing]. *)
Lemma circular_reference_masked_by_undefined :
  ~ (forall set_iter self name,
        set_iter_ok set_iter -> store_ok self ->
        circular_from (Variables._values self) name ->
        raised_reason (fst (Variables._resolve set_iter self name None))
        = Some CIRCULAR_REFERENCE_VARIABLE).
Proof.
  intros H.
  assert (Hstore : store_ok cycle_and_missing) by (apply store_of_ok; solve_NoDup).
  assert (Hrefers : refers (Variables._values cycle_and_missing) "a" "a").
  { eexists. split; [reflexivity|]. simpl. auto. }
  assert (Hcirc : circular_from (Variables._values cycle_and_missing) "a").
  { exists "a". split; [constructor|]. exists "a". split; [assumption | constructor]. }
  specialize (H in_order cycle_and_missing "a" in_order_ok Hstore Hcirc).
  vm_compute in H. discriminate.
Qed.

(** The same in the other visiting order of the set of the two names. *)
Lemma circular_reference_masked_in_reverse :
  raised_reason (fst (Variables._resolve in_reverse cycle_and_missing "a" None))
  = Some UNRESOLVED_VARIABLE.
Proof. reflexivity. Qed.

(** When the chain of references holds a cycle and an undefined name that
    are not met in the same step, the error that is raised depends on the
    order in which the names of a set are visited. *)
Lemma reported_error_depends_on_order :
  raised_reason (fst (Variables._resolve in_order cycle_or_missing "a" None))
  = Some UNRESOLVED_VARIABLE
  /\ raised_reason (fst (Variables._resolve in_reverse cycle_or_missing "a" None))
     = Some CIRCULAR_REFERENCE_VARIABLE.
Proof. split; reflexivity. Qed.

(** C3, amended: in a well-formed store where every name that the chain of
    references from [name] comes across is defined, if that chain revisits
    a variable then the resolution of [name] ends, and it ends with the
    circular-reference error, the store left as it was. *)
Theorem circular_reference_detected set_iter self name provenance :
  set_iter_ok set_iter -> store_ok self ->
  all_defined_from (Variables._values self) name ->
  circular_from (Variables._values self) name ->
  raised_reason (fst (Variables._resolve set_iter self name provenance))
  = Some CIRCULAR_REFERENCE_VARIABLE
  /\ snd (Variables._resolve set_iter self name provenance) = self.
Proof.
  intros Hiter Hstore Hdef Hcirc.
  destruct (resolve_circular_core set_iter self name provenance Hiter Hstore Hdef Hcirc)
    as (m & d & ->).
  split; reflexivity.
Qed.

(** The two-cycle [a = "%{b}"], [b = "%{a}"]. *)
Lemma circular_reference_detected_witness :
  raised_reason (fst (Variables._resolve in_order two_cycle "a" None))
  = Some CIRCULAR_REFERENCE_VARIABLE
  /\ snd (Variables._resolve in_order two_cycle "a" None) = two_cycle.
Proof.
  apply circular_reference_detected.
  - exact in_order_ok.
  - apply store_of_ok. solve_NoDup.
  - apply closed_table_defined; reflexivity.
  - exists "a". split; [constructor|]. exists "b". split.
    + eexists. split; [reflexivity|]. simpl. auto.
    + apply reaches_step with "b"; [constructor|].
      eexists. split; [reflexivity|]. simpl. auto.
Defined.

(** The self-reference [a = "%{a}"] is reported as circular. *)
Lemma self_reference_detected :
  raised_reason (fst (Variables._resolve in_order self_reference "a" None))
  = Some CIRCULAR_REFERENCE_VARIABLE.
Proof. reflexivity. Qed.

(** ** The parser *)

Lemma match_at_iff s name rest :
  Regex.match_at s = Some (name, rest)
  <-> s = "%{" ++ name ++ "}" ++ rest /\ Regex.valid_name name = true.
Proof.
  split.
  - apply match_at_sound.
  - intros [-> Hv]. now apply match_at_complete.
Qed.

(** C4: the parser is a total function of the raw string.  A reference at
    the start of a text is a percent sign, an opening brace, a name (a
    letter followed by letters, digits, underscores and dashes) and a
    closing brace, and nothing else.  The parts of a template, rendered in
    order, give the raw string back; no part is empty; the text of a
    variable part is a well-formed name and that of a literal part holds
    no reference; no two literal parts are neighbours; and the set of
    variable names holds the names of the variable parts, each once.
    Text that looks like a reference but is not one stays literal. *)
Theorem parse_string_spec raw :
  let vc := ValueClass.init raw in
  render_parts (ValueClass.parts vc) = raw
  /\ Forall part_ok (ValueClass.parts vc)
  /\ alternating (ValueClass.parts vc)
  /\ (forall x, In x (ValueClass.variable_names vc)
                <-> In (ValuePart.mk x true) (ValueClass.parts vc))
  /\ NoDup (ValueClass.variable_names vc)
  /\ (forall s name rest,
         Regex.match_at s = Some (name, rest)
         <-> s = "%{" ++ name ++ "}" ++ rest /\ Regex.valid_name name = true)
  /\ ValueClass.parts (ValueClass.init "%{1bad}") = [ValuePart.mk "%{1bad}" false]
  /\ ValueClass.parts (ValueClass.init "%{}") = [ValuePart.mk "%{}" false]
  /\ ValueClass.parts (ValueClass.init "%{a}%{b-c}")
     = [ValuePart.mk "a" true; ValuePart.mk "b-c" true].
Proof.
  intros vc. destruct (init_spec raw) as (Hr & Hok & Halt).
  split; [exact Hr|]. split; [exact Hok|]. split; [exact Halt|].
  split; [|split; [|split; [|repeat split]]].
  - intros x. rewrite <- variable_parts_In. apply class_ok_names. now exists raw.
  - apply class_ok_NoDup. now exists raw.
  - apply match_at_iff.
Qed.

(** ** Termination *)

(** C5: in a store whose templates were made by the parser, a call of the
    resolution driver ends.  Its first loop stops by itself within the fuel
    that [_resolve] gives it, and more fuel does not change its outcome;
    its second loop runs once over a finite queue.  The call returns a
    string or raises the undefined-variable or the circular-reference
    error. *)
Theorem resolve_terminates set_iter self name provenance :
  set_iter_ok set_iter -> classes_ok (Variables._values self) ->
  let first_loop fuel :=
    Variables.while_step set_iter fuel self provenance
      [ResolutionStep.init None [name] None] [] true in
  let out := Variables._resolve set_iter self name provenance in
  first_loop (Variables.resolve_fuel set_iter self name) <> Variables.Throw OutOfFuel
  /\ (forall fuel, Variables.resolve_fuel set_iter self name <= fuel ->
                   first_loop fuel = first_loop (Variables.resolve_fuel set_iter self name))
  /\ ((exists s, fst out = Ok (Some s))
      \/ raised_reason (fst out) = Some UNRESOLVED_VARIABLE
      \/ raised_reason (fst out) = Some CIRCULAR_REFERENCE_VARIABLE).
Proof.
  intros Hiter Hc first_loop out.
  pose proof (first_loop_fuel set_iter self name provenance Hiter Hc) as Hfuel.
  split; [exact Hfuel|]. split.
  - intros fuel Hle. now apply while_step_more_fuel.
  - pose proof (resolve_spec set_iter self name provenance Hiter Hc) as Hpost.
    subst out. destruct (Variables._resolve set_iter self name provenance)
      as [[[s|]|e] self']; simpl in *.
    + left. eauto.
    + destruct Hpost.
    + destruct Hpost as [_ [(m & d & x & -> & _)|(m & d & -> & _)]]; auto.
Qed.

(** The call on the two-cycle ends, within the fuel of [_resolve]. *)
Lemma resolve_terminates_witness :
  let first_loop fuel :=
    Variables.while_step in_order fuel two_cycle None
      [ResolutionStep.init None ["a"] None] [] true in
  let out := Variables._resolve in_order two_cycle "a" None in
  first_loop (Variables.resolve_fuel in_order two_cycle "a") <> Variables.Throw OutOfFuel
  /\ (forall fuel, Variables.resolve_fuel in_order two_cycle "a" <= fuel ->
                   first_loop fuel = first_loop (Variables.resolve_fuel in_order two_cycle "a"))
  /\ ((exists s, fst out = Ok (Some s))
      \/ raised_reason (fst out) = Some UNRESOLVED_VARIABLE
      \/ raised_reason (fst out) = Some CIRCULAR_REFERENCE_VARIABLE).
Proof.
  apply (resolve_terminates in_order two_cycle "a" None).
  - exact in_order_ok.
  - apply store_of_ok. solve_NoDup.
Defined.

(** ** Failure leaves the store as it was *)

(** C6: in a store whose templates were made by the parser, a call of the
    resolution driver that raises leaves the store exactly as it was: no
    memo is written, and the values that were unresolved still are. *)
Theorem resolve_failure_writes_nothing set_iter self name provenance e :
  set_iter_ok set_iter -> classes_ok (Variables._values self) ->
  fst (Variables._resolve set_iter self name provenance) = Raise e ->
  snd (Variables._resolve set_iter self name provenance) = self
  /\ forall k, memo (snd (Variables._resolve set_iter self name provenance)) k = memo self k.
Proof.
  intros Hiter Hc Hr.
  pose proof (resolve_spec set_iter self name provenance Hiter Hc) as Hpost.
  destruct (Variables._resolve set_iter self name provenance) as [r self']; simpl in *.
  subst r. destruct Hpost as [-> _]. auto.
Qed.

(** The failing call on [a = "%{a}%{missing}"] writes nothing. *)
Lemma resolve_failure_writes_nothing_witness :
  snd (Variables._resolve in_order cycle_and_missing "a" None) = cycle_and_missing
  /\ forall k, memo (snd (Variables._resolve in_order cycle_and_missing "a" None)) k
               = memo cycle_and_missing k.
Proof.
  eapply (resolve_failure_writes_nothing in_order cycle_and_missing "a" None).
  - exact in_order_ok.
  - apply store_of_ok. solve_NoDup.
  - reflexivity.
Defined.

(** ** Memos are written once *)

(** C7: once the memo of a variable is set, it stays as it is through any
    sequence of lookups, [get], [subst], [expand], [check] and steps of an
    iteration, whether they return or raise; afterwards [resolve] on the
    value returns that same string without writing, and so does a lookup
    of the variable, which leaves the store as it is. *)
Theorem memo_written_once set_iter ops self table k s :
  set_iter_ok set_iter -> memo self k = Some s ->
  let self' := fst (run_all set_iter ops (self, table)) in
  memo self' k = Some s
  /\ (forall v, dict_get (Variables._values self') k = Some v ->
                 Value.resolve v (Variables._values self') = (Ok s, v))
  /\ Variables.__getitem__ set_iter self' k = (Ok (Some s), self').
Proof.
  intros Hiter Hs self'.
  assert (Hs' : memo self' k = Some s)
    by (eapply memo_kept; [apply run_all_extends | exact Hs]).
  split; [exact Hs'|]. split; [|now apply resolve_memo_hit].
  intros v Hv. apply resolve_resolved. unfold memo in Hs'. now rewrite Hv in Hs'.
Qed.

(** The memo of [greet] through a sequence of operations, some of which
    raise. *)
Lemma memo_written_once_witness :
  let ops := [op_check; op_expand greeting_tree; op_get "missing";
              op_subst (scalar "%{base}, %{nobody}");
              op_next (Variables__iter__ greeting_resolved); op_lookup "base"] in
  let self' := fst (run_all in_order ops (greeting_resolved, [])) in
  memo self' "greet" = Some "hello world"
  /\ (forall v, dict_get (Variables._values self') "greet" = Some v ->
                 Value.resolve v (Variables._values self') = (Ok "hello world", v))
  /\ Variables.__getitem__ in_order self' "greet" = (Ok (Some "hello world"), self').
Proof.
  apply (memo_written_once in_order).
  - exact in_order_ok.
  - reflexivity.
Defined.

(** ** The notparallel override *)

(** C8: when the input mapping holds a true boolean under [notparallel],
    the construction of the store sets [max-jobs] to the text ["1"] in the
    mapping before any value is parsed; the variable [max-jobs] of the
    store has the template ["1"], whatever the input gave for it, and its
    lookup returns ["1"]. *)
Theorem notparallel_overrides_max_jobs get_bool set_iter table node :
  set_iter_ok set_iter -> table_ok table -> NoDup (dict_keys node) ->
  get_bool node "notparallel" false = Ok true ->
  exists self node' table',
    Variables.__init__ get_bool table node = (Ok self, node', table')
    /\ option_map ScalarNode.value (dict_get node' "max-jobs") = Some "1"
    /\ option_map Value._value_class (dict_get (Variables._values self) "max-jobs")
       = Some (ValueClass.init "1")
    /\ fst (Variables.__getitem__ set_iter self "max-jobs") = Ok (Some "1").
Proof.
  intros Hiter Ht Hnd Hb. unfold Variables.__init__. rewrite Hb.
  set (node' := Variables.MappingNode_setitem node "max-jobs" "1").
  assert (Hnd' : NoDup (dict_keys node')) by (now apply dict_set_keys_NoDup).
  assert (Hmax : exists n, dict_get node' "max-jobs" = Some n /\ ScalarNode.value n = "1").
  { eexists. split; [apply dict_get_set_eq | reflexivity]. }
  destruct Hmax as (n & Hn & Hvalue).
  destruct (init_values_spec table node' Ht Hnd') as (Ht' & Hget & Hstore & _).
  destruct (Variables._init_values table node') as [values table'].
  simpl in *. exists (Variables.mk values), node', table'.
  assert (Hv : dict_get values "max-jobs" = Some (value_of n)) by (now rewrite Hget, Hn).
  split; [reflexivity|]. split; [now rewrite Hn, <- Hvalue|].
  cbn [Variables._values].
  split; [rewrite Hv; simpl; now rewrite Hvalue|].
  unfold Variables.__getitem__.
  destruct (resolve_literal_core set_iter (Variables.mk values) "max-jobs" None
              (value_of n) "1" Hiter Hstore Hv) as (self' & -> & _);
    [simpl; now rewrite Hvalue | reflexivity | reflexivity].
Qed.

(** With [notparallel = True] and [max-jobs = "4"], the lookup of
    [max-jobs] returns ["1"]. *)
Lemma notparallel_overrides_max_jobs_witness :
  exists self node' table',
    Variables.__init__ get_bool_text [] notparallel_node = (Ok self, node', table')
    /\ option_map ScalarNode.value (dict_get node' "max-jobs") = Some "1"
    /\ option_map Value._value_class (dict_get (Variables._values self) "max-jobs")
       = Some (ValueClass.init "1")
    /\ fst (Variables.__getitem__ in_order self "max-jobs") = Ok (Some "1").
Proof.
  apply (notparallel_overrides_max_jobs get_bool_text in_order [] notparallel_node).
  - exact in_order_ok.
  - exact table_ok_empty.
  - unfold notparallel_node. solve_NoDup.
  - reflexivity.
Defined.

(** ** Templates without references *)

(** C10: in a well-formed store, a variable bound to a template in which
    the pattern of references never matches (the empty string, plain text,
    malformed references) resolves to that template, unchanged. *)
Theorem resolve_without_references set_iter self name provenance v raw :
  set_iter_ok set_iter -> store_ok self ->
  dict_get (Variables._values self) name = Some v ->
  Value._value_class v = ValueClass.init raw ->
  Regex.search raw = false ->
  fst (Variables._resolve set_iter self name provenance) = Ok (Some raw).
Proof.
  intros Hiter Hstore Hv Hclass Hs.
  destruct (resolve_literal_core set_iter self name provenance v raw
              Hiter Hstore Hv Hclass Hs) as (self' & -> & _).
  reflexivity.
Qed.

(** Malformed references are kept as they are. *)
Lemma resolve_without_references_witness :
  fst (Variables._resolve in_order malformed "odd" None)
  = Ok (Some "%{1bad} or %{} or %{open").
Proof.
  eapply (resolve_without_references in_order malformed "odd" None).
  - exact in_order_ok.
  - apply store_of_ok. solve_NoDup.
  - reflexivity.
  - reflexivity.
  - reflexivity.
Defined.

(** The empty template resolves to the empty string. *)
Lemma resolve_empty_template :
  fst (Variables._resolve in_order malformed "empty" None) = Ok (Some "").
Proof. reflexivity. Qed.

(* ================================================================= *)
(** * Further properties of the code *)

(** ** The table of value classes *)

(** X1: [_load_value_class] only adds to the table; the class it returns
    for a string is the one every later call returns for that string,
    from any table that holds the entries of the one it left, and such a
    call leaves its table as it is.  From a table that binds strings to
    their own parse, the class is the parse of the string. *)
Theorem load_value_class_cached table s :
  let out := Value._load_value_class table s in
  table_extends table (snd out)
  /\ dict_get (snd out) s = Some (fst out)
  /\ (forall table', table_extends (snd out) table' ->
                     Value._load_value_class table' s = (fst out, table'))
  /\ (table_ok table -> fst out = ValueClass.init s /\ table_ok (snd out)).
Proof.
  intros out.
  assert (Hget : dict_get (snd out) s = Some (fst out)).
  { unfold out, Value._load_value_class.
    destruct (dict_get table s) as [vc|] eqn:E; simpl; [assumption | apply dict_get_set_eq]. }
  split; [|split; [exact Hget|split]].
  - unfold out, Value._load_value_class. intros s' vc Hs'.
    destruct (dict_get table s) as [vc0|] eqn:E; simpl; [assumption|].
    rewrite dict_get_set. destruct (String.eqb_spec s s'); [congruence | assumption].
  - intros table' Hext. unfold Value._load_value_class at 1.
    now rewrite (Hext _ _ Hget).
  - intros Ht. apply load_value_class_ok. assumption.
Qed.

Lemma load_value_class_cached_witness :
  let out := Value._load_value_class [] "%{base} world" in
  fst out = ValueClass.init "%{base} world" /\ table_ok (snd out).
Proof.
  apply (load_value_class_cached [] "%{base} world"). exact table_ok_empty.
Defined.

(** ** Construction *)

Lemma dict_keys_set_absent {A} (d : dict A) k a :
  dict_get d k = None -> dict_keys (dict_set d k a) = (dict_keys d ++ [k])%list.
Proof.
  induction d as [|[k0 c] d IH]; simpl; [reflexivity|].
  destruct (String.eqb_spec k0 k); [discriminate|]. intros H. simpl. now rewrite IH.
Qed.

Lemma for_items_keys items : forall ret table,
  NoDup (dict_keys ret ++ dict_keys items) ->
  dict_keys (fst (Variables.for_items items ret table))
  = (dict_keys ret ++ dict_keys items)%list.
Proof.
  induction items as [|[key node] items IH]; intros ret table Hnd; simpl.
  - now rewrite app_nil_r.
  - destruct (Value.init table node) as [value table'].
    assert (Hkey : dict_get ret key = None).
    { apply dict_get_not_In_keys. intros Hin.
      apply NoDup_remove_2 in Hnd. apply Hnd. apply in_app_iff. now left. }
    rewrite IH; rewrite (dict_keys_set_absent _ _ _ Hkey), <- app_assoc; simpl;
      [reflexivity | exact Hnd].
Qed.

(** X2: from a mapping with distinct keys, [_init_values] makes a table
    with the keys of the mapping in their order; the value of a key is
    unresolved, has the provenance of its node and, when the table of
    value classes binds strings to their own parse, the parse of its text
    as its class. *)
Theorem init_values_keys_and_values table node :
  table_ok table -> NoDup (dict_keys node) ->
  let values := fst (Variables._init_values table node) in
  dict_keys values = dict_keys node
  /\ (forall k, dict_get values k = option_map value_of (dict_get node k))
  /\ (forall k v, dict_get values k = Some v -> Value._resolved v = None)
  /\ table_ok (snd (Variables._init_values table node)).
Proof.
  intros Ht Hnd values.
  destruct (init_values_spec table node Ht Hnd) as (Ht' & Hget & _ & Hfresh).
  split; [|auto].
  unfold values, Variables._init_values. now rewrite for_items_keys.
Qed.

Lemma init_values_keys_and_values_witness :
  let values := fst (Variables._init_values [] notparallel_node) in
  dict_keys values = dict_keys notparallel_node
  /\ (forall k, dict_get values k = option_map value_of (dict_get notparallel_node k))
  /\ (forall k v, dict_get values k = Some v -> Value._resolved v = None)
  /\ table_ok (snd (Variables._init_values [] notparallel_node)).
Proof.
  apply (init_values_keys_and_values [] notparallel_node).
  - exact table_ok_empty.
  - unfold notparallel_node. solve_NoDup.
Defined.

(** ** Membership *)

Lemma same_classes_mem a b k : same_classes a b -> dict_mem a k = dict_mem b k.
Proof.
  intros H. specialize (H k). unfold dict_mem.
  destruct (dict_get a k), (dict_get b k); simpl in H; congruence.
Qed.

(** X3: no operation of a store adds, removes or reorders a variable:
    after any sequence of lookups, [get], [subst], [expand], [check] and
    steps of an iteration, returning or raising, the store has the same
    keys in the same order and [__contains__] answers as before. *)
Theorem contains_stable set_iter ops self table name :
  let self' := fst (run_all set_iter ops (self, table)) in
  dict_keys (Variables._values self') = dict_keys (Variables._values self)
  /\ Variables.__contains__ self' name = Variables.__contains__ self name.
Proof.
  intros self'. destruct (run_all_extends set_iter ops self table) as (Hsame & _ & Hkeys).
  split; [exact Hkeys|]. unfold Variables.__contains__. symmetry.
  now apply same_classes_mem.
Qed.

(** ** Lookup of a name that is not a key *)

(** X4: the lookup of a name that the store does not hold raises the
    undefined-variable error; its message names the variable, prefixed by
    the provenance the caller gave, if any.  The store is left as it is,
    [get] returns [None] and [__contains__] answers no. *)
Theorem lookup_absent set_iter self name provenance :
  set_iter_ok set_iter ->
  dict_get (Variables._values self) name = None ->
  Variables._resolve set_iter self name provenance
  = (Raise (LoadError
              (match provenance with
               | Some p => p ++ ": " ++ undefined_message name
               | None => undefined_message name
               end) UNRESOLVED_VARIABLE None), self)
  /\ Variables.get set_iter self name = (Ok None, self)
  /\ Variables.__contains__ self name = false.
Proof.
  intros Hiter Hv.
  assert (H : forall p, Variables._resolve set_iter self name p
              = (Raise (LoadError
                          (match p with
                           | Some p => p ++ ": " ++ undefined_message name
                           | None => undefined_message name
                           end) UNRESOLVED_VARIABLE None), self)).
  { intros p. unfold Variables._resolve, Variables.resolve_fuel.
    cbn [Variables.while_step].
    change (ResolutionStep.check_circular (ResolutionStep.init None [name] None)
              (Variables._values self)) with (@Ok unit tt).
    change (ResolutionStep.varnames (ResolutionStep.init None [name] None)) with [name].
    rewrite (set_iter_singleton set_iter Hiter name).
    cbn [Variables.for_varnames]. unfold Variables._get_checked_value.
    rewrite Hv. reflexivity. }
  split; [apply H|]. split.
  - unfold Variables.get. rewrite (H None). reflexivity.
  - unfold Variables.__contains__, dict_mem. now rewrite Hv.
Qed.

Lemma lookup_absent_witness :
  Variables._resolve in_order greeting "nobody" (Some "here")
  = (Raise (LoadError ("here" ++ ": " ++ undefined_message "nobody")
              UNRESOLVED_VARIABLE None), greeting)
  /\ Variables.get in_order greeting "nobody" = (Ok None, greeting)
  /\ Variables.__contains__ greeting "nobody" = false.
Proof.
  apply (lookup_absent in_order greeting "nobody" (Some "here")).
  - exact in_order_ok.
  - reflexivity.
Defined.

(** ** Value.resolve outside its precondition *)

Lemma collect_parts_raise values ps e :
  Value.collect_parts values ps = Raise e ->
  exists x, e = KeyError (Some x) /\ In x (variable_parts ps) /\ dict_get values x = None.
Proof.
  induction ps as [|p ps IH]; simpl; [discriminate|].
  rewrite variable_parts_cons. destruct (ValuePart.is_variable p).
  - destruct (dict_get values (ValuePart.text p)) as [pv|] eqn:Hpv.
    + destruct (Value.collect_parts values ps) as [l|e']; [discriminate|].
      intros H; inversion H; subst. destruct (IH eq_refl) as (x & ? & ? & ?).
      exists x. simpl. auto.
    + intros H; inversion H; subst. exists (ValuePart.text p). simpl. auto.
  - destruct (Value.collect_parts values ps) as [l|e']; [discriminate|].
    intros H; inversion H; subst. destruct (IH eq_refl) as (x & ? & ? & ?). eauto.
Qed.

Lemma collect_parts_join values ps : forall l,
  Value.collect_parts values ps = Ok l ->
  match Value.str_join l with
  | Ok _ => forall x, In x (variable_parts ps) -> resolved values x
  | Raise e =>
      e = TypeError
      /\ exists x v, In x (variable_parts ps) /\ dict_get values x = Some v
                     /\ Value._resolved v = None
  end.
Proof.
  induction ps as [|p ps IH]; intros l; simpl.
  - intros H; inversion H; subst. simpl. intros x [].
  - rewrite variable_parts_cons. destruct (ValuePart.is_variable p).
    + destruct (dict_get values (ValuePart.text p)) as [pv|] eqn:Hpv; [|discriminate].
      destruct (Value.collect_parts values ps) as [l'|]; [|discriminate].
      intros H; inversion H; subst. specialize (IH l' eq_refl). simpl.
      destruct (Value._resolved pv) as [a|] eqn:Ea.
      * destruct (Value.str_join l') as [b|e].
        -- intros x [<-|Hx]; [exists pv, a; auto | auto].
        -- destruct IH as (-> & x & v & Hx & Hv & Hr). split; [reflexivity|].
           exists x, v. simpl. auto.
      * split; [reflexivity|]. exists (ValuePart.text p), pv. simpl. auto.
    + destruct (Value.collect_parts values ps) as [l'|]; [|discriminate].
      intros H; inversion H; subst. specialize (IH l' eq_refl). simpl.
      destruct (Value.str_join l') as [b|e]; auto.
Qed.

(** X5: [resolve] on an unresolved value returns a string, and sets the
    memo to it, exactly when every variable its template refers to is
    resolved in the table.  Otherwise it raises and leaves the value
    unresolved: a [KeyError] for a variable the table does not hold, else
    a [TypeError] for a variable that is not resolved. *)
Theorem value_resolve_outcome v values :
  Value._resolved v = None ->
  let ps := ValueClass.parts (Value._value_class v) in
  match Value.resolve v values with
  | (Ok s, v') =>
      (forall x, In x (variable_parts ps) -> resolved values x)
      /\ Value._resolved v' = Some s
      /\ Value._value_class v' = Value._value_class v
  | (Raise e, v') =>
      v' = v
      /\ ((exists x, e = KeyError (Some x) /\ In x (variable_parts ps)
                     /\ dict_get values x = None)
          \/ (e = TypeError
              /\ (forall x, In x (variable_parts ps) -> dict_get values x <> None)
              /\ exists x w, In x (variable_parts ps) /\ dict_get values x = Some w
                             /\ Value._resolved w = None))
  end.
Proof.
  intros Hv ps. unfold Value.resolve. rewrite Hv. fold ps.
  destruct (Value.collect_parts values ps) as [l|e] eqn:El.
  - pose proof (collect_parts_join values ps l El) as Hj.
    destruct (Value.str_join l) as [s|e]; simpl.
    + auto.
    + split; [reflexivity|]. right. destruct Hj as [-> Hx]. split; [reflexivity|].
      split; [|exact Hx]. intros x Hin Hnone.
      clear Hx. revert l El. induction ps as [|p ps' IH]; intros l El; [destruct Hin|].
      rewrite variable_parts_cons in Hin. simpl in El.
      destruct (ValuePart.is_variable p).
      * destruct (dict_get values (ValuePart.text p)) as [pv|] eqn:Hpv; [|discriminate].
        destruct (Value.collect_parts values ps') as [l'|]; [|discriminate].
        destruct Hin as [<-|Hin]; [congruence | eauto].
      * destruct (Value.collect_parts values ps') as [l'|]; [|discriminate]. eauto.
  - split; [reflexivity|]. left. now apply collect_parts_raise.
Qed.

Lemma value_resolve_outcome_witness :
  snd (Value.resolve unready_value (Variables._values greeting)) = unready_value
  /\ fst (Value.resolve unready_value (Variables._values greeting))
     = Raise (KeyError (Some "nobody")).
Proof.
  pose proof (value_resolve_outcome unready_value (Variables._values greeting) eq_refl) as H.
  cbv zeta in H.
  destruct (Value.resolve unready_value (Variables._values greeting)) as [[s|e] v'] eqn:E.
  - vm_compute in E. discriminate.
  - destruct H as [-> _]. split; [reflexivity|].
    vm_compute in E. inversion E. reflexivity.
Defined.

(** ** Templates and their dependencies *)

Lemma variable_parts_nil_literal ps :
  variable_parts ps = [] -> Forall (fun p => ValuePart.is_variable p = false) ps.
Proof.
  induction ps as [|p ps IH]; [constructor|].
  rewrite variable_parts_cons. destruct (ValuePart.is_variable p) eqn:E; [discriminate|].
  intros H. constructor; auto.
Qed.

(** X6: the parser finds every reference: the set of variable names of a
    template is empty exactly when the pattern matches nowhere in it, and
    then the template is a single literal part holding the whole text, or
    no part at all when the text is empty. *)
Theorem no_variable_names_iff raw :
  (ValueClass.variable_names (ValueClass.init raw) = [] <-> Regex.search raw = false)
  /\ (Regex.search raw = false ->
      ValueClass.parts (ValueClass.init raw)
      = if str_bool raw then [ValuePart.mk raw false] else []).
Proof.
  destruct (init_spec raw) as (Hr & Hok & Halt).
  assert (Hparts : variable_parts (ValueClass.parts (ValueClass.init raw)) = [] ->
                   ValueClass.parts (ValueClass.init raw)
                   = (if str_bool raw then [ValuePart.mk raw false] else [])
                   /\ Regex.search raw = false).
  { intros Hv. apply variable_parts_nil_literal in Hv.
    destruct (ValueClass.parts (ValueClass.init raw)) as [|p [|q ps]].
    - unfold render_parts in Hr. simpl in Hr. subst raw. auto.
    - rewrite render_parts_cons in Hr. unfold render_parts in Hr. simpl in Hr.
      rewrite append_nil_r in Hr. inversion Hv as [|? ? Hp _]; subst.
      inversion Hok as [|? ? [Hne Hs] _]; subst. unfold render in *. rewrite Hp in *.
      destruct p as [t b]. simpl in *. subst b.
      destruct t; [now elim Hne | auto].
    - exfalso. inversion Hv as [|? ? Hp Hv']; subst. inversion Hv' as [|? ? Hq _]; subst.
      simpl in Halt. rewrite Hp, Hq in Halt. destruct Halt as [Habs _]. discriminate. }
  assert (Hnames : ValueClass.variable_names (ValueClass.init raw) = [] ->
                   variable_parts (ValueClass.parts (ValueClass.init raw)) = []).
  { intros Hn. destruct (variable_parts _) as [|x l] eqn:E; [reflexivity|].
    assert (Hx : In x (ValueClass.variable_names (ValueClass.init raw))).
    { apply class_ok_names; [now exists raw | rewrite E; now left]. }
    rewrite Hn in Hx. destruct Hx. }
  split; [split|].
  - intros Hn. now apply Hparts, Hnames.
  - intros Hs. now apply init_literal.
  - intros Hs. apply Hparts, Hnames. now apply init_literal.
Qed.

Lemma no_variable_names_iff_witness :
  ValueClass.parts (ValueClass.init "%{1bad}") = [ValuePart.mk "%{1bad}" false].
Proof.
  apply (proj2 (no_variable_names_iff "%{1bad}")). reflexivity.
Defined.

(** ** Where the errors of the driver come from *)

Lemma for_varnames_throw self provenance this_step names :
  forall step deps first_iteration e,
    Variables.for_varnames self provenance this_step names step deps first_iteration
    = Variables.Throw e ->
    exists x,
      In x names /\ dict_get (Variables._values self) x = None
      /\ Variables._get_checked_value self x (ResolutionStep.referee this_step) provenance
         = Raise e.
Proof.
  induction names as [|iter_name names IH]; intros step deps fi e; simpl; [discriminate|].
  destruct (Variables._get_checked_value self iter_name _ provenance) as [iter_value|e']
    eqn:Hc.
  - intros H.
    assert (Hrest : exists step' deps' fi',
               Variables.for_varnames self provenance this_step names step' deps' fi'
               = Variables.Throw e).
    { destruct fi, (Value._resolved iter_value); try discriminate; eauto. }
    destruct Hrest as (s' & d' & f' & Hrest).
    destruct (IH _ _ _ _ Hrest) as (x & ? & ? & ?). exists x. auto.
  - intros H; inversion H; subst. exists iter_name. split; [now left|]. split; [|exact Hc].
    unfold Variables._get_checked_value in Hc.
    destruct (dict_get (Variables._values self) iter_name); [discriminate | reflexivity].
Qed.

Lemma for_varnames_steps self name provenance this_step :
  step_ok (Variables._values self) name this_step ->
  ResolutionStep.check_circular this_step (Variables._values self) = Ok tt ->
  forall names step deps first_iteration step' deps' first_iteration',
    (forall x, In x names -> In x (ResolutionStep.varnames this_step)) ->
    Forall (step_ok (Variables._values self) name) step ->
    Variables.for_varnames self provenance this_step names step deps first_iteration
    = Variables.Next step' deps' first_iteration' ->
    Forall (step_ok (Variables._values self) name) step'.
Proof.
  intros Hok Hcheck. induction names as [|iter_name names IH];
    intros step deps fi step' deps' fi' Hin Hsteps; simpl.
  - intros H; inversion H; subst. assumption.
  - unfold Variables._get_checked_value.
    destruct (dict_get (Variables._values self) iter_name) as [iter_value|] eqn:Hv;
      [|discriminate].
    assert (Hin' : forall x, In x names -> In x (ResolutionStep.varnames this_step))
      by (intros x Hx; apply Hin; now right).
    unfold Value.dependencies.
    destruct fi, (Value._resolved iter_value) as [s|] eqn:Hs; try discriminate;
      try (apply IH; assumption);
      (destruct (ValueClass.variable_names (Value._value_class iter_value)) eqn:Evn;
       [apply IH; assumption|]);
      apply IH; try assumption; constructor; try assumption;
      rewrite <- Evn; apply step_ok_child; auto; apply Hin; now left.
Qed.

(** An exception of the first loop comes from the circularity check of a
    step the call created, or from the lookup of one of its names. *)
Lemma while_step_throw set_iter self name provenance :
  set_iter_ok set_iter ->
  forall fuel step deps first_iteration e,
    Forall (step_ok (Variables._values self) name) step ->
    Variables.while_step set_iter fuel self provenance step deps first_iteration
    = Variables.Throw e ->
    e = OutOfFuel
    \/ exists this_step,
        step_ok (Variables._values self) name this_step
        /\ (ResolutionStep.check_circular this_step (Variables._values self) = Raise e
            \/ (ResolutionStep.check_circular this_step (Variables._values self) = Ok tt
                /\ exists x,
                    In x (ResolutionStep.varnames this_step)
                    /\ dict_get (Variables._values self) x = None
                    /\ Variables._get_checked_value self x
                         (ResolutionStep.referee this_step) provenance = Raise e)).
Proof.
  intros Hiter. induction fuel as [|fuel IH]; intros step deps fi e Hsteps; simpl.
  - intros H; inversion H. now left.
  - destruct step as [|this_step step']; [discriminate|].
    inversion Hsteps as [|? ? Hthis Hrest]; subst.
    destruct (ResolutionStep.check_circular this_step (Variables._values self))
      as [[]|e'] eqn:Hcheck.
    + destruct (Variables.for_varnames self provenance this_step _ step' deps fi)
        as [step'' deps' fi'|n v|e'] eqn:Hfor.
      * apply IH.
        apply (for_varnames_steps self name provenance this_step Hthis Hcheck
                 _ _ _ _ _ _ _
                 (fun x Hx => proj1 (set_iter_In set_iter Hiter _ x) Hx) Hrest Hfor).
      * discriminate.
      * intros H; inversion H; subst. right. exists this_step. split; [assumption|].
        right. split; [assumption|].
        destruct (for_varnames_throw _ _ _ _ _ _ _ _ Hfor) as (x & Hx & Hnone & Hc).
        exists x. split; [now apply (set_iter_In set_iter Hiter)|]. auto.
    + intros H; inversion H; subst. right. exists this_step. auto.
Qed.

(** A call of [_resolve] that raises raises what its first loop threw. *)
Lemma resolve_raise_first_loop set_iter self name provenance e :
  set_iter_ok set_iter -> classes_ok (Variables._values self) ->
  fst (Variables._resolve set_iter self name provenance) = Raise e ->
  Variables.while_step set_iter (Variables.resolve_fuel set_iter self name)
    self provenance [ResolutionStep.init None [name] None] [] true
  = Variables.Throw e.
Proof.
  intros Hiter Hc. unfold Variables._resolve.
  pose proof (first_loop_spec set_iter self name provenance Hiter Hc) as H.
  destruct (Variables.while_step set_iter _ self provenance _ [] true)
    as [step deps fi|n v|e'].
  - destruct H as (_ & _ & Hq & _).
    destruct (while_deps_spec _ self None Hq) as (r & self' & -> & _). discriminate.
  - destruct H as (_ & _ & s & Hs). rewrite (resolve_resolved _ _ _ Hs). discriminate.
  - simpl. congruence.
Qed.

Lemma resolve_raise_origin set_iter self name provenance e :
  set_iter_ok set_iter -> classes_ok (Variables._values self) ->
  fst (Variables._resolve set_iter self name provenance) = Raise e ->
  exists this_step,
    step_ok (Variables._values self) name this_step
    /\ (ResolutionStep.check_circular this_step (Variables._values self) = Raise e
        \/ (ResolutionStep.check_circular this_step (Variables._values self) = Ok tt
            /\ exists x,
                In x (ResolutionStep.varnames this_step)
                /\ dict_get (Variables._values self) x = None
                /\ Variables._get_checked_value self x
                     (ResolutionStep.referee this_step) provenance = Raise e)).
Proof.
  intros Hiter Hc Hr.
  pose proof (resolve_raise_first_loop _ _ _ _ _ Hiter Hc Hr) as Hloop.
  destruct (while_step_throw set_iter self name provenance Hiter _ _ _ _ e
              (Forall_cons _ (step_ok_top _ _) (Forall_nil _)) Hloop) as [->|H];
    [|exact H].
  elim (first_loop_fuel set_iter self name provenance Hiter Hc). exact Hloop.
Qed.

(** X7: when the resolution of [name] raises the undefined-variable error,
    the error names a variable [x] that the store does not hold and has no
    detail.  Either [x] is [name] itself and the message is prefixed by the
    provenance the caller gave, if any; or a variable [r] on the chain of
    references from [name] refers to [x], and the message is prefixed by
    the provenance of [r]. *)
Theorem undefined_error_attribution set_iter self name provenance message detail :
  set_iter_ok set_iter -> classes_ok (Variables._values self) ->
  fst (Variables._resolve set_iter self name provenance)
  = Raise (LoadError message UNRESOLVED_VARIABLE detail) ->
  exists x,
    dict_get (Variables._values self) x = None /\ detail = None
    /\ ((x = name
         /\ message = match provenance with
                      | Some p => p ++ ": " ++ undefined_message x
                      | None => undefined_message x
                      end)
        \/ (exists r v,
               reaches (Variables._values self) name r
               /\ refers (Variables._values self) r x
               /\ dict_get (Variables._values self) r = Some v
               /\ message = Value.provenance v ++ ": " ++ undefined_message x)).
Proof.
  intros Hiter Hc Hr.
  destruct (resolve_raise_origin _ _ _ _ _ Hiter Hc Hr) as (st & Hst & [Hcheck|Hlook]).
  - destruct (check_circular_raise _ _ _ _ Hst Hcheck) as (x & m & d & _ & _ & E).
    discriminate.
  - destruct Hlook as (_ & x & Hx & Hnone & Hget). exists x.
    unfold Variables._get_checked_value in Hget. rewrite Hnone in Hget.
    pose proof (step_ok_path self name st Hst) as Hpath.
    destruct st as [[r|] vn [p|]]; simpl in *.
    + destruct (step_ok_parent _ _ _ _ _ Hst) as (_ & _ & r' & v & E & _ & Hv & _).
      inversion E; subst r'. rewrite Hv in Hget. inversion Hget; subst.
      split; [assumption|]. split; [reflexivity|]. right.
      destruct Hpath as (Hreach & Hrefers & _). exists r, v. auto.
    + apply step_ok_top_inv in Hst as [E _]. discriminate.
    + apply step_ok_parent in Hst as (_ & _ & r' & v & E & _). discriminate.
    + subst vn. destruct Hx as [<-|[]]. inversion Hget; subst.
      split; [assumption|]. split; [reflexivity|]. left. split; reflexivity.
Qed.

Lemma undefined_error_attribution_witness :
  exists x,
    dict_get (Variables._values cycle_and_missing) x = None /\ @None string = None
    /\ ((x = "a"
         /\ "element.bst: Reference to undefined variable 'missing'"
            = undefined_message x)
        \/ (exists r v,
               reaches (Variables._values cycle_and_missing) "a" r
               /\ refers (Variables._values cycle_and_missing) r x
               /\ dict_get (Variables._values cycle_and_missing) r = Some v
               /\ "element.bst: Reference to undefined variable 'missing'"
                  = Value.provenance v ++ ": " ++ undefined_message x)).
Proof.
  apply (undefined_error_attribution in_order cycle_and_missing "a" None).
  - exact in_order_ok.
  - apply store_of_ok. solve_NoDup.
  - reflexivity.
Defined.

(** ** The report of a circular reference *)

Lemma is_eq a : forall b, ResolutionStep.is_ a b = true -> a = b.
Proof.
  induction a as [r v|r v p IH] using step_rect'; intros [rb vb [pb|]]; simpl;
    intros H; repeat (apply andb_true_iff in H as [H ?]);
    try discriminate;
    apply option_string_eqb_eq in H; subst;
    destruct (list_eq_dec string_dec v vb); try discriminate; subst.
  - reflexivity.
  - f_equal. f_equal. now apply IH.
Qed.

Lemma ancestors_depth st : forall a,
  In a (ResolutionStep.ancestors st) -> depth a < depth st.
Proof.
  unfold depth. induction st as [r v|r v p IH] using step_rect'; simpl; [tauto|].
  intros a [<-|Ha]; [lia|]. specialize (IH a Ha). lia.
Qed.

Lemma reference_chain_snoc values x lines : forall y z v,
  reference_chain values x lines y ->
  dict_get values y = Some v -> refers values y z ->
  reference_chain values x (lines ++ [reference_line (Value.provenance v) y z])%list z.
Proof.
  revert x. induction lines as [|line rest IH]; intros x y z v; simpl.
  - intros <- Hv Hr. exists z, v. auto.
  - intros (m & w & Hw & Hr & Hl & Hrest) Hv Hyz. exists m, w. eauto 10.
Qed.

(** The lines of a report, in the order they are written down, lead from
    the referee of the conflicting step to the referee of the step. *)
Lemma error_lines_chain self name self_referee conflict st :
  step_ok (Variables._values self) name st ->
  forall lines y,
    ResolutionStep.error_lines self_referee (Variables._values self) conflict st = Ok lines ->
    ResolutionStep.referee st = Some y ->
    exists x,
      ResolutionStep.referee conflict = Some x
      /\ reference_chain (Variables._values self) x (rev lines) y
      /\ (ResolutionStep.is_ st conflict = false -> lines <> []).
Proof.
  induction st as [r vn|r vn p IH] using step_rect'; intros Hok lines y;
    rewrite error_lines_unfold.
  - destruct (ResolutionStep.is_ (ResolutionStep.mk r vn None) conflict) eqn:E.
    + intros H Hr; inversion H; subst. apply is_eq in E. subst conflict.
      exists y. simpl. repeat split; auto. discriminate.
    + destruct self_referee as [sr|]; [|discriminate].
      destruct (dict_get (Variables._values self) sr); discriminate.
  - destruct (ResolutionStep.is_ (ResolutionStep.mk r vn (Some p)) conflict) eqn:E.
    + intros H Hr; inversion H; subst. apply is_eq in E. subst conflict.
      exists y. simpl. repeat split; auto. discriminate.
    + destruct (step_ok_parent _ _ _ _ _ Hok) as (Hp & _ & y' & val & -> & Hy & _).
      destruct (ResolutionStep.referee p) as [rp|] eqn:Erp; [|discriminate].
      destruct (dict_get (Variables._values self) rp) as [value|] eqn:Hvalue;
        [|discriminate].
      destruct (ResolutionStep.error_lines self_referee (Variables._values self) conflict p)
        as [lines'|] eqn:El; [|discriminate].
      intros H Hr; inversion H; subst. simpl in Hr. inversion Hr; subst y'.
      destruct (IH Hp lines' rp eq_refl eq_refl) as (x & Hx & Hchain & _).
      exists x. split; [assumption|]. split; [|discriminate].
      simpl rev. apply (reference_chain_snoc _ _ _ rp y value Hchain Hvalue).
      pose proof (step_ok_path self name p Hp) as Hpath. rewrite Erp in Hpath.
      now apply Hpath.
Qed.

(** X8: when the resolution of [name] raises the circular-reference error,
    the message names a variable [x] that the chain of references from
    [name] comes across and that lies on a cycle, and the detail is a
    report of at least one line, joined by newlines, that lists in order a
    chain of references of the store from [x] back to [x], each line
    attributed to the provenance of the variable that refers. *)
Theorem circular_error_report set_iter self name provenance message detail :
  set_iter_ok set_iter -> classes_ok (Variables._values self) ->
  fst (Variables._resolve set_iter self name provenance)
  = Raise (LoadError message CIRCULAR_REFERENCE_VARIABLE detail) ->
  exists x lines,
    message = "Circular dependency detected on variable '" ++ x ++ "'"
    /\ reaches (Variables._values self) name x
    /\ on_cycle (Variables._values self) x
    /\ detail = Some (String.concat newline lines)
    /\ lines <> []
    /\ reference_chain (Variables._values self) x lines x.
Proof.
  intros Hiter Hc Hr.
  destruct (resolve_raise_origin _ _ _ _ _ Hiter Hc Hr) as (st & Hst & [Hcheck|Hlook]).
  - pose proof (step_ok_path self name st Hst) as Hpath.
    destruct (check_circular_raise _ _ _ _ Hst Hcheck) as (x & _ & _ & Hx & Hanc & _).
    rewrite Hx in Hpath. destruct Hpath as (Hreach & _ & Hcyc).
    unfold ResolutionStep.check_circular in Hcheck.
    destruct st as [r vn [p|]]; simpl in Hcheck; [|discriminate].
    apply check_from_raise in Hcheck as (conflict & Hin & Hconf & He).
    simpl in Hx. subst r. simpl in Hconf.
    unfold ResolutionStep._raise_circular_reference_error in He.
    destruct (error_lines_ok _ _ (Some x) _ Hst conflict) as (lines & Hl);
      [right; exact Hin | rewrite Hconf; discriminate|].
    simpl ResolutionStep.referee in He. rewrite Hl in He. inversion He; subst.
    destruct (error_lines_chain self name (Some x) conflict _ Hst lines x Hl eq_refl)
      as (x' & Hx' & Hchain & Hne).
    rewrite Hconf in Hx'. inversion Hx'; subst x'.
    exists x, (rev lines).
    split; [reflexivity|]. split; [exact Hreach|]. split; [now apply Hcyc|].
    split; [reflexivity|]. split; [|exact Hchain].
    intros Hnil. apply (f_equal (@rev string)) in Hnil. rewrite rev_involutive in Hnil.
    simpl in Hnil. revert Hnil. apply Hne.
    destruct (ResolutionStep.is_ (ResolutionStep.mk (Some x) vn (Some p)) conflict) eqn:E;
      [|reflexivity].
    apply is_eq in E. subst conflict.
    pose proof (ancestors_depth (ResolutionStep.mk (Some x) vn (Some p)) _ Hin). lia.
  - destruct Hlook as (_ & x & _ & Hnone & Hget).
    unfold Variables._get_checked_value in Hget. rewrite Hnone in Hget. discriminate.
Qed.

Lemma circular_error_report_witness :
  exists x lines,
    "Circular dependency detected on variable 'a'"
    = "Circular dependency detected on variable '" ++ x ++ "'"
    /\ reaches (Variables._values two_cycle) "a" x
    /\ on_cycle (Variables._values two_cycle) x
    /\ Some ("element.bst: Variable 'a' refers to variable 'b'" ++ newline
             ++ "element.bst: Variable 'b' refers to variable 'a'")
       = Some (String.concat newline lines)
    /\ lines <> []
    /\ reference_chain (Variables._values two_cycle) x lines x.
Proof.
  apply (circular_error_report in_order two_cycle "a" None).
  - exact in_order_ok.
  - apply store_of_ok. solve_NoDup.
  - reflexivity.
Defined.

(** ** Lookup and the expansion of a name *)

Lemma resolve_ok_expands set_iter self name provenance r :
  set_iter_ok set_iter -> store_ok self ->
  fst (Variables._resolve set_iter self name provenance) = Ok r ->
  exists s, r = Some s /\ expands_to (Variables._values self) name s
            /\ memo (snd (Variables._resolve set_iter self name provenance)) name = Some s.
Proof.
  intros Hiter Hstore Hr.
  pose proof (resolve_extends set_iter self name provenance) as (Hsame & _).
  pose proof (resolve_store_ok set_iter self name provenance Hiter Hstore) as [_ Hm].
  destruct (Variables._resolve set_iter self name provenance) as [r' self'] eqn:E.
  simpl in *. subst r'.
  destruct (resolve_ok_memo set_iter self name provenance r self' Hiter Hstore E)
    as (s & -> & Hs).
  exists s. split; [reflexivity|]. split; [|exact Hs].
  apply (expands_to_ext (Variables._values self')); [now apply same_classes_sym|].
  unfold memo in Hs. destruct (dict_get (Variables._values self') name) as [v|] eqn:Hv;
    [|discriminate].
  eapply Hm; eauto.
Qed.

Lemma resolve_iff set_iter self name provenance s :
  set_iter_ok set_iter -> store_ok self ->
  fst (Variables._resolve set_iter self name provenance) = Ok (Some s)
  <-> expands_to (Variables._values self) name s.
Proof.
  intros Hiter Hstore. split.
  - intros Hr. destruct (resolve_ok_expands _ _ _ _ _ Hiter Hstore Hr) as (s' & E & H & _).
    inversion E; subst. exact H.
  - intros Hexp. destruct (expands_graph _ _ _ (proj1 Hstore) Hexp) as [Hdef Hacyc].
    destruct (resolve_ok_core set_iter self name provenance Hiter Hstore Hdef Hacyc)
      as (s' & self' & -> & [n Hn] & _).
    destruct Hexp as [m Hm]. simpl. now rewrite (expansion_unique _ _ _ _ _ _ Hn Hm).
Qed.

Lemma resolve_raise_LoadError set_iter self name provenance e :
  set_iter_ok set_iter -> store_ok self ->
  fst (Variables._resolve set_iter self name provenance) = Raise e ->
  (exists message reason detail, e = LoadError message reason detail)
  /\ forall s, ~ expands_to (Variables._values self) name s.
Proof.
  intros Hiter Hstore Hr. split.
  - pose proof (resolve_spec set_iter self name provenance Hiter (proj1 Hstore)) as Hpost.
    destruct (Variables._resolve set_iter self name provenance) as [r self']; simpl in *.
    subst r. destruct Hpost as [_ [(m & d & x & -> & _)|(m & d & -> & _)]]; eauto.
  - intros s Hs. apply (resolve_iff set_iter self name provenance s Hiter Hstore) in Hs.
    congruence.
Qed.

(** X9: in a well-formed store a lookup returns a string exactly when the
    name has a fully expanded value, and then it returns that value.  So
    what a lookup returns depends neither on the order in which the names
    of a set are visited nor on the operations that ran on the store
    before it. *)
Theorem lookup_independent set_iter set_iter' ops self table name s :
  set_iter_ok set_iter -> set_iter_ok set_iter' ->
  store_ok self -> table_ok table ->
  (fst (Variables.__getitem__ set_iter self name) = Ok (Some s)
   <-> expands_to (Variables._values self) name s)
  /\ (fst (Variables.__getitem__ set_iter self name) = Ok (Some s)
      <-> fst (Variables.__getitem__ set_iter'
                 (fst (run_all set_iter' ops (self, table))) name) = Ok (Some s)).
Proof.
  intros Hiter Hiter' Hstore Ht. unfold Variables.__getitem__.
  pose proof (resolve_iff set_iter self name None s Hiter Hstore) as H1.
  split; [exact H1|]. rewrite H1.
  destruct (run_all_store_ok set_iter' ops self table Hiter' Hstore Ht) as [Hstore' _].
  destruct (run_all_extends set_iter' ops self table) as (Hsame & _).
  rewrite (resolve_iff set_iter' _ name None s Hiter' Hstore').
  split; apply expands_to_ext; [assumption | now apply same_classes_sym].
Qed.

Lemma lookup_independent_witness :
  (fst (Variables.__getitem__ in_order greeting "greet") = Ok (Some "hello world")
   <-> expands_to (Variables._values greeting) "greet" "hello world")
  /\ (fst (Variables.__getitem__ in_order greeting "greet") = Ok (Some "hello world")
      <-> fst (Variables.__getitem__ in_reverse
                 (fst (run_all in_reverse [op_check; op_get "nobody"] (greeting, [])))
                 "greet") = Ok (Some "hello world")).
Proof.
  apply (lookup_independent in_order in_reverse).
  - exact in_order_ok.
  - intros l. apply Permutation_sym, Permutation_rev.
  - apply store_of_ok. solve_NoDup.
  - exact table_ok_empty.
Defined.

(** ** check *)

Lemma for_keys_spec set_iter keys : forall self,
  set_iter_ok set_iter -> store_ok self ->
  let out := Variables.for_keys set_iter keys self in
  (fst out = Ok tt <->
   forall k, In k keys -> exists s, expands_to (Variables._values self) k s)
  /\ (fst out = Ok tt ->
      forall k, In k keys ->
                exists s, memo (snd out) k = Some s
                          /\ expands_to (Variables._values self) k s)
  /\ (forall e, fst out = Raise e ->
                exists message reason detail, e = LoadError message reason detail).
Proof.
  induction keys as [|key keys IH]; intros self Hiter Hstore; simpl.
  - split; [|split]; try discriminate.
    + split; [intros _ k [] | reflexivity].
    + intros _ k [].
  - pose proof (resolve_extends set_iter self key None) as Hext.
    pose proof (resolve_store_ok set_iter self key None Hiter Hstore) as Hstore1.
    pose proof (resolve_ok_expands set_iter self key None) as Hok.
    pose proof (resolve_raise_LoadError set_iter self key None) as Hraise.
    destruct (Variables._resolve set_iter self key None) as [[r|e] self1]; simpl in *.
    + destruct (Hok r Hiter Hstore eq_refl) as (s & _ & Hexp & Hmemo).
      destruct (IH self1 Hiter Hstore1) as (Hiff & Hmemos & Herr).
      pose proof (for_keys_extends set_iter keys self1) as Hext'.
      assert (Hto : forall k t, expands_to (Variables._values self1) k t
                                <-> expands_to (Variables._values self) k t).
      { intros k t. split; apply expands_to_ext;
          [apply same_classes_sym|]; apply Hext. }
      split; [|split; [|exact Herr]].
      * rewrite Hiff. split.
        -- intros H k [<-|Hk]; [eauto|]. destruct (H k Hk) as (t & Ht).
           exists t. now apply Hto.
        -- intros H k Hk. destruct (H k (or_intror Hk)) as (t & Ht).
           exists t. now apply Hto.
      * intros Hr k [<-|Hk].
        -- exists s. split; [|assumption]. eapply memo_kept; eauto.
        -- destruct (Hmemos Hr k Hk) as (t & Hm & Ht). exists t. split; [assumption|].
           now apply Hto.
    + destruct (Hraise e Hiter Hstore eq_refl) as [Hload Hnone].
      split; [|split].
      * split; [discriminate|]. intros H. destruct (H key (or_introl eq_refl)) as (t & Ht).
        elim (Hnone t Ht).
      * discriminate.
      * intros e' H; inversion H; subst. exact Hload.
Qed.

(** X10: in a well-formed store [check] returns exactly when every
    variable of the store has a fully expanded value; every variable is
    then resolved, its memo holding that value.  Otherwise [check] raises a
    [LoadError]. *)
Theorem check_spec set_iter self :
  set_iter_ok set_iter -> store_ok self ->
  let out := Variables.check set_iter self in
  (fst out = Ok tt <->
   forall k, In k (dict_keys (Variables._values self)) ->
             exists s, expands_to (Variables._values self) k s)
  /\ (fst out = Ok tt ->
      forall k, In k (dict_keys (Variables._values self)) ->
                exists s, memo (snd out) k = Some s
                          /\ expands_to (Variables._values self) k s)
  /\ (forall e, fst out = Raise e ->
                exists message reason detail, e = LoadError message reason detail).
Proof. intros Hiter Hstore. now apply for_keys_spec. Qed.

Lemma check_spec_witness :
  let out := Variables.check in_order greeting in
  (fst out = Ok tt <->
   forall k, In k (dict_keys (Variables._values greeting)) ->
             exists s, expands_to (Variables._values greeting) k s)
  /\ (fst out = Ok tt ->
      forall k, In k (dict_keys (Variables._values greeting)) ->
                exists s, memo (snd out) k = Some s
                          /\ expands_to (Variables._values greeting) k s)
  /\ (forall e, fst out = Raise e ->
                exists message reason detail, e = LoadError message reason detail).
Proof.
  apply (check_spec in_order greeting).
  - exact in_order_ok.
  - apply store_of_ok. solve_NoDup.
Defined.

(** ** Iteration *)

Lemma drain_spec set_iter names : forall self n,
  set_iter_ok set_iter -> store_ok self -> length names < n ->
  (forall k, In k names -> exists s, expands_to (Variables._values self) k s) ->
  exists items self',
    drain set_iter n (ValueIterator.mk names) self = (Ok items, ValueIterator.mk [], self')
    /\ map fst items = names
    /\ Forall (fun item => exists s, snd item = Some s
                                     /\ expands_to (Variables._values self) (fst item) s
                                     /\ memo self' (fst item) = Some s) items
    /\ extends self self'.
Proof.
  induction names as [|name names IH]; intros self n Hiter Hstore Hn Hall;
    (destruct n as [|n]; [simpl in Hn; lia|]); simpl.
  - exists [], self. repeat split; auto using same_classes_refl, memos_kept_refl.
  - unfold ValueIterator.__next__, Variables.__getitem__. cbn [ValueIterator._iter].
    pose proof (resolve_extends set_iter self name None) as Hext.
    pose proof (resolve_store_ok set_iter self name None Hiter Hstore) as Hstore1.
    pose proof (resolve_ok_expands set_iter self name None) as Hok.
    pose proof (resolve_raise_LoadError set_iter self name None) as Hraise.
    destruct (Variables._resolve set_iter self name None) as [[r|e] self1]; simpl in *.
    + destruct (Hok r Hiter Hstore eq_refl) as (s & -> & Hexp & Hmemo).
      destruct (IH self1 n Hiter Hstore1 ltac:(lia)) as (items & self' & -> & Hk & Hi & Hext').
      { intros k Hk. destruct (Hall k (or_intror Hk)) as (t & Ht). exists t.
        revert Ht. apply expands_to_ext, Hext. }
      exists ((name, Some s) :: items), self'. split; [reflexivity|].
      split; [simpl; now rewrite Hk|]. split; [|eapply extends_trans; eauto].
      constructor.
      * exists s. simpl. repeat split; auto. eapply memo_kept; eauto.
      * eapply Forall_impl; [|exact Hi]. intros item (t & Ht & Hexp' & Hm).
        exists t. repeat split; auto. revert Hexp'.
        apply expands_to_ext, same_classes_sym, Hext.
    + destruct (Hraise e Hiter Hstore eq_refl) as [_ Hnone].
      destruct (Hall name (or_introl eq_refl)) as (t & Ht). elim (Hnone t Ht).
Qed.

(** X11: in a well-formed store where every variable has a fully expanded
    value, running the iterator of the store to its end yields one item
    for each key, in the order of the keys, holding the key and its fully
    expanded value; the iterator is left empty and every variable
    resolved. *)
Theorem iteration_yields_all set_iter self :
  set_iter_ok set_iter -> store_ok self ->
  (forall k, In k (dict_keys (Variables._values self)) ->
             exists s, expands_to (Variables._values self) k s) ->
  exists items self',
    drain set_iter (S (length (Variables._values self))) (Variables__iter__ self) self
    = (Ok items, ValueIterator.mk [], self')
    /\ map fst items = dict_keys (Variables._values self)
    /\ Forall (fun item => exists s, snd item = Some s
                                     /\ expands_to (Variables._values self) (fst item) s
                                     /\ memo self' (fst item) = Some s) items.
Proof.
  intros Hiter Hstore Hall.
  destruct (drain_spec set_iter (dict_keys (Variables._values self)) self
              (S (length (Variables._values self))) Hiter Hstore) as (items & self' & H);
    [unfold dict_keys; rewrite length_map; lia | exact Hall|].
  exists items, self'. unfold Variables__iter__, ValueIterator.__cinit__. tauto.
Qed.

Lemma iteration_yields_all_witness :
  exists items self',
    drain in_order (S (length (Variables._values greeting))) (Variables__iter__ greeting)
      greeting
    = (Ok items, ValueIterator.mk [], self')
    /\ map fst items = dict_keys (Variables._values greeting)
    /\ Forall (fun item => exists s, snd item = Some s
                                     /\ expands_to (Variables._values greeting) (fst item) s
                                     /\ memo self' (fst item) = Some s) items.
Proof.
  assert (Hstore : store_ok greeting) by (apply store_of_ok; solve_NoDup).
  apply (iteration_yields_all in_order greeting).
  - exact in_order_ok.
  - exact Hstore.
  - apply (proj1 (for_keys_spec in_order _ greeting in_order_ok Hstore)).
    reflexivity.
Defined.

(** ** subst *)

Lemma substitutes_to_unique values raw s t :
  substitutes_to values raw s -> substitutes_to values raw t -> s = t.
Proof.
  intros [n Hn] [m Hm].
  apply (expand_parts_mono _ (expansion (Nat.max n m) values)) in Hn;
    [|intros x a; apply expansion_le; lia].
  apply (expand_parts_mono _ (expansion (Nat.max n m) values)) in Hm;
    [|intros x a; apply expansion_le; lia].
  congruence.
Qed.

Lemma for_dependencies_outcome set_iter provenance names : forall self,
  set_iter_ok set_iter -> store_ok self ->
  let out := Variables.for_dependencies set_iter names self provenance in
  ((forall x, In x names -> exists s, expands_to (Variables._values self) x s) ->
   fst out = Ok tt)
  /\ (forall e, fst out = Raise e ->
                exists message reason detail, e = LoadError message reason detail).
Proof.
  induction names as [|dep_name names IH]; intros self Hiter Hstore; simpl.
  - split; [reflexivity | discriminate].
  - pose proof (resolve_extends set_iter self dep_name provenance) as Hext.
    pose proof (resolve_store_ok set_iter self dep_name provenance Hiter Hstore) as Hstore1.
    pose proof (resolve_raise_LoadError set_iter self dep_name provenance) as Hraise.
    destruct (Variables._resolve set_iter self dep_name provenance) as [[r|e] self1];
      simpl in *.
    + destruct (IH self1 Hiter Hstore1) as [Hok Herr]. split; [|exact Herr].
      intros Hall. apply Hok. intros x Hx. destruct (Hall x (or_intror Hx)) as (t & Ht).
      exists t. revert Ht. apply expands_to_ext, Hext.
    + destruct (Hraise e Hiter Hstore eq_refl) as [Hload Hnone]. split.
      * intros Hall. destruct (Hall dep_name (or_introl eq_refl)) as (t & Ht).
        elim (Hnone t Ht).
      * intros e' H; inversion H; subst. exact Hload.
Qed.

Lemma subst_outcome set_iter self table node s :
  set_iter_ok set_iter -> store_ok self -> table_ok table ->
  let out := Variables.subst set_iter self table node in
  (fst (fst out) = Ok s
   <-> substitutes_to (Variables._values self) (ScalarNode.value node) s)
  /\ (forall e, fst (fst out) = Raise e ->
                exists message reason detail, e = LoadError message reason detail).
Proof.
  intros Hiter Hstore Ht out.
  destruct (subst_spec set_iter self table node) as [_ Hspec].
  destruct (Hspec Hiter Hstore Ht) as (_ & _ & Hsound). fold out in Hsound.
  assert (Hrun : (forall x, In x (variable_parts (ValueClass.parts
                                      (ValueClass.init (ScalarNode.value node)))) ->
                            exists t, expands_to (Variables._values self) x t) ->
                 exists s', fst (fst out) = Ok s').
  { intros Hall. unfold out, Variables.subst.
    destruct (value_init_ok table node Ht) as [Hvalue _].
    destruct (Value.init table node) as [value table']. simpl in Hvalue. subst value.
    pose proof (for_dependencies_outcome set_iter (Some (ScalarNode.get_provenance node))
                  (set_iter (Value.dependencies (value_of node))) self Hiter Hstore)
      as [Hok _].
    pose proof (for_dependencies_spec set_iter (Some (ScalarNode.get_provenance node))
                  (set_iter (Value.dependencies (value_of node))) self) as [_ Hdeps].
    destruct (Hdeps Hiter Hstore) as [_ Hres].
    destruct (Variables.for_dependencies set_iter _ self _) as [[[]|e] self']; simpl in *.
    - destruct (resolve_ready (value_of node) (Variables._values self')) as (s' & v' & ->).
      + intros x Hx. apply Hres; [reflexivity|].
        apply (set_iter_In set_iter Hiter). simpl.
        apply class_ok_names; [now eexists | exact Hx].
      + simpl. eauto.
    - assert (E : @Raise unit e = Ok tt); [|discriminate]. apply Hok.
      intros x Hx. apply Hall. apply (proj1 (set_iter_In set_iter Hiter _ x)) in Hx.
      simpl in Hx. apply (proj1 (class_ok_names _ x ltac:(now eexists))) in Hx. exact Hx. }
  split; [split|].
  - apply Hsound.
  - intros Hsub. destruct Hrun as (s' & Hs').
    + destruct Hsub as [n Hn]. intros x Hx.
      destruct (expand_parts_In _ _ _ _ Hn Hx) as (t & Hexp). exists t. now exists n.
    + rewrite Hs'. f_equal. eapply substitutes_to_unique; eauto.
  - intros e He. unfold out, Variables.subst in He.
    destruct (value_init_ok table node Ht) as [Hvalue _].
    destruct (Value.init table node) as [value table']. simpl in Hvalue. subst value.
    pose proof (for_dependencies_outcome set_iter (Some (ScalarNode.get_provenance node))
                  (set_iter (Value.dependencies (value_of node))) self Hiter Hstore)
      as [_ Herr].
    pose proof (for_dependencies_spec set_iter (Some (ScalarNode.get_provenance node))
                  (set_iter (Value.dependencies (value_of node))) self) as [_ Hdeps].
    destruct (Hdeps Hiter Hstore) as [_ Hres].
    destruct (Variables.for_dependencies set_iter _ self _) as [[[]|e'] self']; simpl in *.
    + destruct (resolve_ready (value_of node) (Variables._values self')) as (s' & v' & E).
      * intros x Hx. apply Hres; [reflexivity|].
        apply (set_iter_In set_iter Hiter). simpl.
        apply class_ok_names; [now eexists | exact Hx].
      * rewrite E in He. discriminate.
    + inversion He; subst. now apply Herr.
Qed.

(** X12: in a well-formed store [subst] returns exactly when the text of
    the node has a substitution, that is when every variable it refers to
    has a fully expanded value, and it returns that substitution;
    otherwise it raises a [LoadError]. *)
Theorem subst_iff set_iter self table node s :
  set_iter_ok set_iter -> store_ok self -> table_ok table ->
  let out := Variables.subst set_iter self table node in
  (fst (fst out) = Ok s
   <-> substitutes_to (Variables._values self) (ScalarNode.value node) s)
  /\ (forall e, fst (fst out) = Raise e ->
                exists message reason detail, e = LoadError message reason detail).
Proof. exact (subst_outcome set_iter self table node s). Qed.

Lemma subst_iff_witness :
  let out := Variables.subst in_order greeting [] (scalar "%{greet}!") in
  (fst (fst out) = Ok "hello world!"
   <-> substitutes_to (Variables._values greeting) (ScalarNode.value (scalar "%{greet}!"))
         "hello world!")
  /\ (forall e, fst (fst out) = Raise e ->
                exists message reason detail, e = LoadError message reason detail).
Proof.
  apply (subst_iff in_order greeting [] (scalar "%{greet}!")).
  - exact in_order_ok.
  - apply store_of_ok. solve_NoDup.
  - exact table_ok_empty.
Defined.

(** ** Construction of a store *)

(** X13: [__init__] raises what [get_bool] raises and then touches neither
    the mapping nor the table of value classes.  Otherwise, from a mapping
    with distinct keys, the store has one variable for each key of the
    mapping as [__init__] leaves it, in the same order; without
    [notparallel] the mapping is left as it is; with it, [max-jobs] keeps
    its place among the keys if the mapping had it and comes last if not;
    and every variable other than an overridden [max-jobs] has the parse
    of the text the mapping gave for it as its template. *)
Theorem init_frame get_bool table node :
  table_ok table -> NoDup (dict_keys node) ->
  match get_bool node "notparallel" false with
  | Raise e => Variables.__init__ get_bool table node = (Raise e, node, table)
  | Ok notparallel =>
      exists self node' table',
        Variables.__init__ get_bool table node = (Ok self, node', table')
        /\ dict_keys (Variables._values self) = dict_keys node'
        /\ dict_keys node'
           = (if notparallel && negb (dict_mem node "max-jobs")
              then dict_keys node ++ ["max-jobs"] else dict_keys node)%list
        /\ (notparallel = false -> node' = node)
        /\ (forall k, notparallel = false \/ k <> "max-jobs" ->
                      dict_get node' k = dict_get node k
                      /\ dict_get (Variables._values self) k
                         = option_map value_of (dict_get node k))
  end.
Proof.
  intros Ht Hnd. unfold Variables.__init__.
  destruct (get_bool node "notparallel" false) as [notparallel|e]; [|reflexivity].
  set (node' := if notparallel then Variables.MappingNode_setitem node "max-jobs" "1"
                else node).
  assert (Hnd' : NoDup (dict_keys node')).
  { unfold node'. destruct notparallel; [now apply dict_set_keys_NoDup | assumption]. }
  destruct (init_values_spec table node' Ht Hnd') as (_ & Hget & _).
  pose proof (for_items_keys node' [] table Hnd') as Hkeys.
  unfold Variables._init_values in *.
  destruct (Variables.for_items node' [] table) as [values table'].
  simpl in *. exists (Variables.mk values), node', table'.
  split; [reflexivity|]. split; [exact Hkeys|]. split; [|split].
  - unfold node', Variables.MappingNode_setitem, dict_mem. destruct notparallel; simpl.
    + destruct (dict_get node "max-jobs") as [old|] eqn:E; simpl.
      * eapply dict_keys_set_present; eauto.
      * now apply dict_keys_set_absent.
    + reflexivity.
  - intros ->. reflexivity.
  - intros k Hk.
    assert (E : dict_get node' k = dict_get node k).
    { unfold node'. destruct notparallel; [|reflexivity].
      destruct Hk as [|Hk]; [discriminate|].
      unfold Variables.MappingNode_setitem. apply dict_get_set_neq. congruence. }
    split; [exact E|]. cbn [Variables._values]. now rewrite Hget, E.
Qed.

Lemma init_frame_witness :
  exists self node' table',
    Variables.__init__ get_bool_text [] plain_node = (Ok self, node', table')
    /\ dict_keys (Variables._values self) = dict_keys node'
    /\ dict_keys node' = dict_keys plain_node
    /\ (false = false -> node' = plain_node)
    /\ (forall k, false = false \/ k <> "max-jobs" ->
                  dict_get node' k = dict_get plain_node k
                  /\ dict_get (Variables._values self) k
                     = option_map value_of (dict_get plain_node k)).
Proof.
  apply (init_frame get_bool_text [] plain_node).
  - exact table_ok_empty.
  - unfold plain_node. solve_NoDup.
Defined.

(** ** Expansion of a document tree *)

Lemma has_substitution_ext a b n :
  same_classes a b -> has_substitution a n -> has_substitution b n.
Proof.
  intros Hsame [s [m Hm]]. exists s, m. rewrite <- Hm.
  apply expand_parts_ext. intros x. symmetry. now apply expansion_ext.
Qed.

Lemma for_each_outcome {A B : Type} set_iter (lv : A -> list ScalarNode.t) (sk : A -> B)
    (body : Variables.t * dict ValueClass.t -> A
            -> result unit * A * (Variables.t * dict ValueClass.t)) xs :
  Forall (fun x => forall state,
              expand_post set_iter lv sk state x (body state x)
              /\ expand_outcome set_iter lv state x (body state x)) xs ->
  forall state, expand_outcome set_iter (flat_map lv) state xs (for_each body state xs).
Proof.
  induction 1 as [|x xs Hx Hxs IH]; intros state Hiter Hs Ht.
  - simpl. split; [split; [constructor | reflexivity] | discriminate].
  - simpl. destruct (Hx state) as [Hpost Hout]. specialize (Hout Hiter Hs Ht).
    destruct Hpost as (Hext & _ & Hinv). destruct (Hinv Hiter Hs Ht) as (Hs1 & Ht1 & _).
    destruct (body state x) as [[[[]|e] x'] state1]; simpl in *.
    + specialize (IH state1 Hiter Hs1 Ht1).
      destruct (for_each body state1 xs) as [[r xs'] state2]; simpl in *.
      destruct Hout as [Hiff _]. destruct IH as [Hiff' Herr]. split; [|exact Herr].
      rewrite Hiff', Forall_app. split.
      * intros H. split; [now apply Hiff|].
        eapply Forall_impl; [|exact H]. intros n.
        apply has_substitution_ext, same_classes_sym, Hext.
      * intros [_ H]. eapply Forall_impl; [|exact H]. intros n.
        apply has_substitution_ext, Hext.
    + destruct Hout as [Hiff Herr]. split.
      * split; [discriminate|]. intros H. apply Forall_app in H as [H _].
        apply Hiff in H. discriminate.
      * intros e' He. apply (Herr e'). exact He.
Qed.

Lemma expand_outcome_spec set_iter node :
  forall state,
    expand_outcome set_iter leaves state node (Variables._expand set_iter state node).
Proof.
  induction node as [n|value IH|value IH] using Node_ind'; intros [self table].
  - intros Hiter Hs Ht. cbn [Variables._expand fst snd leaves].
    pose proof (subst_outcome set_iter self table n) as Hsub.
    destruct (Variables.subst set_iter self table n) as [[[s|e] self'] table'];
      simpl in *.
    + split; [|discriminate]. split; [|reflexivity]. intros _.
      constructor; [|constructor]. exists s.
      now apply (proj1 (Hsub s Hiter Hs Ht)).
    + split.
      * split; [discriminate|]. intros H. inversion H as [|? ? [s Hsubst] _]; subst.
        apply (proj1 (Hsub s Hiter Hs Ht)) in Hsubst. discriminate.
      * intros e' He. inversion He; subst. now apply (proj2 (Hsub "" Hiter Hs Ht)).
  - cbn [Variables._expand leaves].
    assert (Hall : Forall (fun x => forall state,
                expand_post set_iter leaves skeleton state x (Variables._expand set_iter state x)
                /\ expand_outcome set_iter leaves state x (Variables._expand set_iter state x))
              value).
    { eapply Forall_impl; [|exact IH]. intros x Hx state. split; [apply expand_spec | apply Hx]. }
    pose proof (for_each_outcome set_iter leaves skeleton _ value Hall (self, table)) as H.
    destruct (for_each (Variables._expand set_iter) (self, table) value)
      as [[r value'] state']. exact H.
  - cbn [Variables._expand leaves].
    set (body := fun st (kv : string * Node) =>
                   match Variables._expand set_iter st (snd kv) with
                   | (r, entry', st') => (r, (fst kv, entry'), st')
                   end).
    assert (Hall : Forall (fun kv => forall state,
                expand_post set_iter (fun kv => leaves (snd kv))
                  (fun kv => (fst kv, skeleton (snd kv))) state kv (body state kv)
                /\ expand_outcome set_iter (fun kv => leaves (snd kv)) state kv (body state kv))
              value).
    { eapply Forall_impl; [|exact IH]. intros [key entry] Hentry state. unfold body.
      specialize (Hentry state). pose proof (expand_spec set_iter entry state) as Hpost.
      simpl in *. destruct (Variables._expand set_iter state entry) as [[r entry'] state'].
      unfold expand_post, expand_outcome in *. simpl in *.
      split; [|exact Hentry].
      destruct Hpost as (Hext & Hsk & Hp). split; [assumption|]. split; [now rewrite Hsk|].
      exact Hp. }
    pose proof (for_each_outcome set_iter _ _ body value Hall (self, table)) as H.
    fold body. destruct (for_each body (self, table) value) as [[r value'] state'].
    exact H.
Qed.

Lemma for_each_raise {A B : Type} set_iter (lv : A -> list ScalarNode.t) (sk : A -> B)
    (body : Variables.t * dict ValueClass.t -> A
            -> result unit * A * (Variables.t * dict ValueClass.t)) xs :
  Forall (fun x => forall state,
              expand_post set_iter lv sk state x (body state x)
              /\ expand_raise set_iter lv state x (body state x)) xs ->
  forall state, expand_raise set_iter (flat_map lv) state xs (for_each body state xs).
Proof.
  induction 1 as [|x xs Hx Hxs IH]; intros state Hiter Hs Ht e.
  - simpl. discriminate.
  - simpl. destruct (Hx state) as [Hpost Hraise]. specialize (Hraise Hiter Hs Ht).
    destruct Hpost as (Hext & _ & Hinv). destruct (Hinv Hiter Hs Ht) as (Hs1 & Ht1 & Hl).
    destruct (body state x) as [[[[]|e0] x'] state1]; simpl in *.
    + specialize (IH state1 Hiter Hs1 Ht1 e).
      destruct (for_each body state1 xs) as [[r xs'] state2]; simpl in *.
      intros Hr. destruct (IH Hr) as (pre & pre' & n & post & Hold & Hnew & Hpre & Hn).
      exists (lv x ++ pre)%list, (lv x' ++ pre')%list, n, post.
      split; [rewrite Hold; now rewrite app_assoc|].
      split; [rewrite Hnew; now rewrite app_assoc|].
      split.
      * apply Forall2_app; [now apply Hl|].
        eapply Forall2_impl; [|exact Hpre]. intros a b.
        apply substituted_ext, same_classes_sym, Hext.
      * intros Hhas. apply Hn. revert Hhas. apply has_substitution_ext, Hext.
    + intros He. destruct (Hraise e0 eq_refl) as (pre & pre' & n & post & Hold & Hnew & Hpre & Hn).
      exists pre, pre', n, (post ++ flat_map lv xs)%list.
      split; [rewrite Hold, <- app_assoc; reflexivity|].
      split; [rewrite Hnew, <- app_assoc; reflexivity|].
      split; assumption.
Qed.

Lemma expand_raise_spec set_iter node :
  forall state,
    expand_raise set_iter leaves state node (Variables._expand set_iter state node).
Proof.
  induction node as [n|value IH|value IH] using Node_ind'; intros [self table].
  - intros Hiter Hs Ht e. cbn [Variables._expand fst snd leaves].
    pose proof (subst_outcome set_iter self table n) as Hsub.
    destruct (Variables.subst set_iter self table n) as [[[s|e0] self'] table'];
      simpl in *; [discriminate|].
    intros _. exists [], [], n, []. split; [reflexivity|]. split; [reflexivity|].
    split; [constructor|]. intros [s Hsubst].
    apply (proj1 (Hsub s Hiter Hs Ht)) in Hsubst. discriminate.
  - cbn [Variables._expand leaves].
    assert (Hall : Forall (fun x => forall state,
                expand_post set_iter leaves skeleton state x (Variables._expand set_iter state x)
                /\ expand_raise set_iter leaves state x (Variables._expand set_iter state x))
              value).
    { eapply Forall_impl; [|exact IH]. intros x Hx state. split; [apply expand_spec | apply Hx]. }
    pose proof (for_each_raise set_iter leaves skeleton _ value Hall (self, table)) as H.
    destruct (for_each (Variables._expand set_iter) (self, table) value)
      as [[r value'] state']. exact H.
  - cbn [Variables._expand leaves].
    set (body := fun st (kv : string * Node) =>
                   match Variables._expand set_iter st (snd kv) with
                   | (r, entry', st') => (r, (fst kv, entry'), st')
                   end).
    assert (Hall : Forall (fun kv => forall state,
                expand_post set_iter (fun kv => leaves (snd kv))
                  (fun kv => (fst kv, skeleton (snd kv))) state kv (body state kv)
                /\ expand_raise set_iter (fun kv => leaves (snd kv)) state kv (body state kv))
              value).
    { eapply Forall_impl; [|exact IH]. intros [key entry] Hentry state. unfold body.
      specialize (Hentry state). pose proof (expand_spec set_iter entry state) as Hpost.
      simpl in *. destruct (Variables._expand set_iter state entry) as [[r entry'] state'].
      unfold expand_post, expand_raise in *. simpl in *.
      split; [|exact Hentry].
      destruct Hpost as (Hext & Hsk & Hp). split; [assumption|]. split; [now rewrite Hsk|].
      exact Hp. }
    pose proof (for_each_raise set_iter _ _ body value Hall (self, table)) as H.
    fold body. destruct (for_each body (self, table) value) as [[r value'] state'].
    exact H.
Qed.

(** C9: [expand] leaves the skeleton of the tree as it was: the kinds of
    the nodes, the children of each container and their order, the keys of
    each mapping and the provenance of each scalar; this holds when the
    call raises as well.  In a well-formed store, on a tree in which the
    text of every scalar leaf has a substitution, the call returns and
    the text of each scalar leaf is then the substitution of the text it
    had before; every call that returns leaves the tree so.  A call that
    raises has stopped at the first leaf whose text has no substitution:
    the leaves before it hold the substitution of their text, that leaf
    and the leaves after it are left as they were. *)
Theorem expand_rewrites_scalars set_iter self table node :
  let out := Variables.expand set_iter self table node in
  skeleton (snd (fst out)) = skeleton node
  /\ (set_iter_ok set_iter -> store_ok self -> table_ok table ->
      (Forall (has_substitution (Variables._values self)) (leaves node) ->
       fst (fst out) = Ok tt
       /\ Forall2 (substituted (Variables._values self))
            (leaves node) (leaves (snd (fst out))))
      /\ (fst (fst out) = Ok tt ->
          Forall2 (substituted (Variables._values self))
            (leaves node) (leaves (snd (fst out))))
      /\ (forall e, fst (fst out) = Raise e ->
                    stopped_at (Variables._values self)
                      (leaves node) (leaves (snd (fst out))))).
Proof.
  intros out. destruct (expand_spec set_iter node (self, table)) as (_ & Hsk & H).
  split; [exact Hsk|]. intros Hiter Hs Ht.
  destruct (H Hiter Hs Ht) as (_ & _ & Hl).
  destruct (expand_outcome_spec set_iter node (self, table) Hiter Hs Ht) as [Hiff _].
  split; [|split].
  - intros Hall. apply Hiff in Hall. split; [exact Hall | now apply Hl].
  - exact Hl.
  - exact (expand_raise_spec set_iter node (self, table) Hiter Hs Ht).
Qed.

(** The tree [greeting_tree] in the store [greeting]: every leaf has a
    substitution, the call returns and the scalar ["%{greet}!"] becomes
    ["hello world!"]. *)
Lemma expand_rewrites_scalars_witness :
  let out := Variables.expand in_order greeting [] greeting_tree in
  skeleton (snd (fst out)) = skeleton greeting_tree
  /\ fst (fst out) = Ok tt
  /\ Forall2 (substituted (Variables._values greeting))
       (leaves greeting_tree) (leaves (snd (fst out)))
  /\ map ScalarNode.value (leaves (snd (fst out))) = ["hello world!"; "plain"; "hellohello"].
Proof.
  intros out.
  destruct (expand_rewrites_scalars in_order greeting [] greeting_tree) as [Hsk H].
  split; [exact Hsk|].
  assert (Hstore : store_ok greeting) by (apply store_of_ok; solve_NoDup).
  destruct (H in_order_ok Hstore table_ok_empty) as [Htotal _].
  assert (Hall : Forall (has_substitution (Variables._values greeting))
                   (leaves greeting_tree)).
  { cbn [greeting_tree leaves flat_map snd app].
    apply Forall_cons; [exists "hello world!", 2; reflexivity|].
    apply Forall_cons; [exists "plain", 0; reflexivity|].
    apply Forall_cons; [exists "hellohello", 1; reflexivity|].
    apply Forall_nil. }
  destruct (Htotal Hall) as [Hok Hl].
  split; [exact Hok|]. split; [exact Hl | reflexivity].
Defined.

(** X14: in a well-formed store [expand] returns exactly when the text of
    every scalar leaf of the tree has a substitution; otherwise it raises
    a [LoadError]. *)
Theorem expand_iff set_iter self table node :
  set_iter_ok set_iter -> store_ok self -> table_ok table ->
  let out := Variables.expand set_iter self table node in
  (fst (fst out) = Ok tt
   <-> Forall (has_substitution (Variables._values self)) (leaves node))
  /\ (forall e, fst (fst out) = Raise e ->
                exists message reason detail, e = LoadError message reason detail).
Proof.
  intros Hiter Hs Ht. exact (expand_outcome_spec set_iter node (self, table) Hiter Hs Ht).
Qed.

Lemma expand_iff_witness :
  let out := Variables.expand in_order greeting [] broken_tree in
  (fst (fst out) = Ok tt
   <-> Forall (has_substitution (Variables._values greeting)) (leaves broken_tree))
  /\ (forall e, fst (fst out) = Raise e ->
                exists message reason detail, e = LoadError message reason detail).
Proof.
  apply (expand_iff in_order greeting [] broken_tree).
  - exact in_order_ok.
  - apply store_of_ok. solve_NoDup.
  - exact table_ok_empty.
Defined.

(** ** The memo of a value *)

(** X15: once [resolve] has returned a string for a value, the value as it
    leaves it has no dependencies, and [resolve] on it returns the same
    string from any table, without changing the value again. *)
Theorem value_resolve_idempotent v values s v' :
  Value.resolve v values = (Ok s, v') ->
  Value.dependencies v' = []
  /\ forall values', Value.resolve v' values' = (Ok s, v').
Proof.
  intros H.
  assert (Hmemo : Value._resolved v' = Some s).
  { unfold Value.resolve in H. destruct (Value._resolved v) as [s0|] eqn:Hv.
    - inversion H; subst. exact Hv.
    - destruct (Value.collect_parts values _) as [parts|e]; [|discriminate].
      destruct (Value.str_join parts) as [s1|e]; [|discriminate].
      inversion H; subst. reflexivity. }
  split.
  - unfold Value.dependencies. now rewrite Hmemo.
  - intros values'. now apply resolve_resolved.
Qed.

Lemma value_resolve_idempotent_witness :
  Value.dependencies (Value.mk "element.bst" (ValueClass.init "/usr") (Some "/usr")) = []
  /\ forall values',
       Value.resolve (Value.mk "element.bst" (ValueClass.init "/usr") (Some "/usr")) values'
       = (Ok "/usr", Value.mk "element.bst" (ValueClass.init "/usr") (Some "/usr")).
Proof.
  apply (value_resolve_idempotent literal_value []). reflexivity.
Defined.
